(** * Scalable arithmetic coder: a shallow embedding of
      [scalable_ac.hpp] (encoder), [scalable_adc.hpp] (decoder) and the
      adaptive driver [example_adaptive.cpp], with the properties of the
      specification proved or refuted on it.

    Conventions.
    - [probability_type_t] and [max_range_type_t] are unsigned integer types
      of [prob_bits] and [range_bits] bits.  Their values are integers of [Z];
      every C++ operation that can leave the type is followed by its
      wrap-around ([to_prob], [to_range]).  That is the arithmetic of C++
      for a [max_range_type_t] of 32 or 64 bits, as in the drivers; a
      narrower one would be promoted to [int].
    - Undefined behaviour of the C++ code (a read outside the table, a null
      table or stream, a division by zero) is the result [None].
    - The bit stream library is external.  A writer is the list of the bits
      written so far; a reader is an unbounded sequence of bits with a cursor,
      so that nothing is assumed about what is read behind the encoded data. *)

From stdpp Require Import base tactics option list list_numbers numbers.
From Stdlib Require Import ZArith Lia Bool.
From Stdlib.Strings Require Import Byte.

Local Open Scope Z_scope.

(** ** The two template parameters *)

Class coder_types := {
  prob_bits : Z;   (* 8 * sizeof(probability_type_t) *)
  range_bits : Z   (* 8 * sizeof(max_range_type_t) *)
}.

(** What the sources ask of an instantiation: the range type holds the
    product of a range and a cumulative count (two counter widths). *)
Class coder_types_ok (T : coder_types) : Prop := {
  prob_bits_ge : 8 <= prob_bits;
  range_bits_ge : 2 * prob_bits <= range_bits
}.

(** ** The external bit streams (lib_bitstreams), by their contract *)

Definition bit_writer := list bool.

(** The low [n] bits of [v], most significant first. *)
Fixpoint bits_msb (n : nat) (v : Z) : list bool :=
  match n with
  | O => []
  | S k => Z.testbit v (Z.of_nat k) :: bits_msb k v
  end.

(** [write(bits, n)] *)
Definition bs_write (v n : Z) (w : bit_writer) : bit_writer :=
  w ++ bits_msb (Z.to_nat n) v.

Record bit_reader := { rd_bits : nat -> bool; rd_pos : nat }.

(** [read(1)] *)
Definition bs_read1 (r : bit_reader) : Z * bit_reader :=
  (Z.b2z (rd_bits r (rd_pos r)), {| rd_bits := rd_bits r; rd_pos := S (rd_pos r) |}).

(** A reader positioned at the start of the sequence [s]. *)
Definition reader_of (s : nat -> bool) : bit_reader := {| rd_bits := s; rd_pos := O |}.

(** The sequence [s] starts with the bits [w]. *)
Definition extends (s : nat -> bool) (w : list bool) : Prop :=
  forall i b, w !! i = Some b -> s i = b.

(** The written bits followed by zeros, as a sequence. *)
Definition padded (w : list bool) : nat -> bool := fun i => default false (w !! i).

Section Model.
Context {T : coder_types}.

Definition to_range (x : Z) : Z := x mod 2 ^ range_bits.
Definition to_prob (x : Z) : Z := x mod 2 ^ prob_bits.

(** The constants shared by the two classes. *)
Definition k_max_bits : Z := to_range prob_bits.
Definition k_hi_bit : Z := to_range (k_max_bits - 1).
Definition k_low_bit : Z := to_range (k_max_bits - 2).
Definition k_low_bit_val : Z := to_range (Z.shiftl 1 (to_range (k_max_bits - 2))).
Definition k_low_bit_mask : Z := to_range (k_low_bit_val - 1).
Definition k_hi_bit_val : Z := to_range (Z.shiftl 1 (to_range (k_max_bits - 1))).
Definition k_hi_bit_mask : Z := to_range (k_hi_bit_val - 1).
Definition k_max_range : Z := k_low_bit_mask.
Definition k_probability_range_mask : Z := to_range (to_prob (-1)).

(** The two shifts that end a pass of the renormalisation loops:
    [(x << 1) & k_probability_range_mask] and
    [((x << 1) | 1) & k_probability_range_mask]. *)
Definition shift_low (x : Z) : Z :=
  Z.land (to_range (Z.shiftl x 1)) k_probability_range_mask.
Definition shift_high (x : Z) : Z :=
  Z.land (Z.lor (to_range (Z.shiftl x 1)) 1) k_probability_range_mask.

(** The tests at the head of a pass of the renormalisation loops, the same
    in [range_code] and [remove_range]:
    [(high & k_hi_bit_val) == (low & k_hi_bit_val)], else
    [(low & k_low_bit_val) && !(high & k_low_bit_val)], else leave. *)
Inductive renorm := TopBitsEqual | Underflow | Leave.

Definition renorm_case (hi lo : Z) : renorm :=
  if Z.land hi k_hi_bit_val =? Z.land lo k_hi_bit_val then TopBitsEqual
  else if negb (Z.land lo k_low_bit_val =? 0) && (Z.land hi k_low_bit_val =? 0)
       then Underflow
       else Leave.

(** The head of [range_code] and of [remove_range]: the three reads of the
    table and the new bounds,
    [m_tmp_range = (m_high - m_low) + 1;]
    [m_high = m_low + ((m_tmp_range * sym_high) / total) - 1;]
    [m_low = m_low + ((m_tmp_range * sym_low) / total);]
    The result is [(m_tmp_range, m_high, m_low)]; [None] is a read outside
    the table or a zero total. *)
Definition narrow (tbl : list Z) (max_syms symbol hi lo : Z) : option (Z * Z * Z) :=
  sym_low ← tbl !! Z.to_nat symbol;
  sym_high ← tbl !! Z.to_nat (to_range (symbol + 1));
  total ← tbl !! Z.to_nat max_syms;
  if total =? 0 then None
  else
    let r := to_range (to_range (hi - lo) + 1) in
    Some (r,
          to_range (to_range (lo + to_range (r * sym_high) / total) - 1),
          to_range (lo + to_range (r * sym_low) / total)).

(** ** The frequency model, as both classes write it *)

(** [for (i = 0; i <= max_symbols; i++) m_probability[i] = i;] *)
Definition uniform_model (max_symbols : Z) : list Z :=
  to_prob <$> seqZ 0 (max_symbols + 1).

(** The adaptive increment
    [if (p0 < p1) do { *(p0++) += 1; } while (p0 < p1);]
    with [p0 = &m_probability[s + 1]] and [p1 = &m_probability[m_max_syms + 1]]:
    one is added to each counter of index [p0 <= i < p1]. *)
Definition bump_model (p0 p1 : Z) (tbl : list Z) : option (list Z) :=
  if p0 <? p1 then
    if decide (Z.to_nat p1 <= length tbl)%nat then
      Some (take (Z.to_nat p0) tbl
            ++ ((fun c => to_prob (c + 1)) <$> take (Z.to_nat p1 - Z.to_nat p0) (drop (Z.to_nat p0) tbl))
            ++ drop (Z.to_nat p1) tbl)
    else None
  else Some tbl.

(** The [do ... while (p0 < p1)] of [scale_model], [p0] walking over the
    counters with [prev] in a register. *)
Fixpoint scale_walk (prev : Z) (rest : list Z) : list Z :=
  match rest with
  | [] => []
  | c :: rest' =>
      let curr := Z.shiftr c 1 in
      let curr := if curr <=? prev then to_prob (prev + 1) else curr in
      curr :: scale_walk curr rest'
  end.

(** [scale_model()]: [prev = *(p0++)], nothing more when [p0 >= p1], else the
    walk over the counters of index [1 .. m_max_syms]. *)
Definition scale_model (max_syms : Z) (tbl : list Z) : option (list Z) :=
  match tbl with
  | [] => None
  | c0 :: rest =>
      if decide (Z.to_nat max_syms <= length rest)%nat then
        Some (c0 :: scale_walk c0 (take (Z.to_nat max_syms) rest)
                 ++ drop (Z.to_nat max_syms) rest)
      else None
  end.

(** The tail shared by [encode_symbol], [estimate_cost] and [decode_symbol]:
    the increment after symbol [s], then
    [if (m_probability[m_max_syms] >= k_max_range) scale_model();] *)
Definition update_model (s max_syms : Z) (tbl : list Z) : option (list Z) :=
  tbl1 ← bump_model (to_range (s + 1)) (to_range (max_syms + 1)) tbl;
  total ← tbl1 !! Z.to_nat max_syms;
  if k_max_range <=? total then scale_model max_syms tbl1 else Some tbl1.

(** The copy loops of [save_state] and [restore_state]:
    [for (i = 0; i <= n; ++i) dst[i] = src[i];] *)
Definition copy_table (n : Z) (src dst : list Z) : option (list Z) :=
  if decide (Z.to_nat (n + 1) <= length src /\ Z.to_nat (n + 1) <= length dst)%nat
  then Some (take (Z.to_nat (n + 1)) src ++ drop (Z.to_nat (n + 1)) dst)
  else None.

(** [new probability_type_t[n + 1]]; every cell is overwritten before it is
    read. *)
Definition new_table (n : Z) : list Z := replicate (Z.to_nat (to_range (n + 1))) 0.

(** The run of pending underflow bits written in bursts:
    [for (; u >= 64U; u -= 64U) m_stream->write(uf_mask, 64U);] *)
Fixpoint write_bursts (n : nat) (uf_mask u : Z) (w : bit_writer) : Z * bit_writer :=
  match n with
  | O => (u, w)
  | S n' =>
      if 64 <=? u then write_bursts n' uf_mask (to_range (u - 64)) (bs_write uf_mask 64 w)
      else (u, w)
  end.

(** The bursts, then [if (u) m_stream->write(uf_mask, u);].  The result is
    the bits written; the caller resets the counter. *)
Definition write_underflow (bstate u : Z) (w : bit_writer) : bit_writer :=
  let uf_mask := if bstate =? 0 then 0 else 2 ^ 64 - 1 in
  let '(u1, w1) := write_bursts (Z.to_nat (u / 64)) uf_mask u w in
  if u1 =? 0 then w1 else bs_write uf_mask u1 w1.

End Model.

(** ** The encoder, [scalable_ac_c] *)
Module AC.
Section ac.
Context {T : coder_types}.

(** The members of the class; the stream member holds the bits written to
    the attached writer, [None] is the null pointer. *)
Record scalable_ac_c := {
  m_stream : option bit_writer;
  m_high : Z;
  m_low : Z;
  m_underflow_count : Z;
  m_tmp_range : Z;
  m_max_syms : Z;
  m_probability : option (list Z);
  m_flushed : bool
}.

(** [scalable_ac_state_t] *)
Record scalable_ac_state_t := {
  high : Z;
  low : Z;
  underflow_count : Z;
  tmp_range : Z;
  max_syms : Z;
  probability : list Z;
  flushed : bool
}.

(** The constructor. *)
Definition new : scalable_ac_c :=
  {| m_stream := None; m_high := to_range (to_prob (-1)); m_low := 0;
     m_underflow_count := 0; m_tmp_range := 0; m_max_syms := 0;
     m_probability := None; m_flushed := false |}.

Definition save_state (c : scalable_ac_c) : option scalable_ac_state_t :=
  src ← m_probability c;
  tbl ← copy_table (m_max_syms c) src (new_table (m_max_syms c));
  Some {| high := m_high c; low := m_low c;
          underflow_count := m_underflow_count c;
          tmp_range := m_tmp_range c; max_syms := m_max_syms c;
          probability := tbl; flushed := m_flushed c |}.

(** [restore_state(state, cleanup)] for a non-null [state]; [cleanup] only
    frees the snapshot.  The result is the [true] the function returns. *)
Definition restore_state (state : scalable_ac_state_t) (cleanup : bool)
    (c : scalable_ac_c) : option (bool * scalable_ac_c) :=
  '(dst, n) ←
     (if decide (m_max_syms c = max_syms state) then
        dst ← m_probability c; Some (dst, m_max_syms c)
      else Some (new_table (max_syms state), max_syms state));
  tbl ← copy_table n (probability state) dst;
  Some (true,
        {| m_stream := m_stream c; m_high := high state; m_low := low state;
           m_underflow_count := underflow_count state;
           m_tmp_range := tmp_range state; m_max_syms := max_syms state;
           m_probability := Some tbl; m_flushed := flushed state |}).

Definition flush (force : bool) (c : scalable_ac_c) : bool * scalable_ac_c :=
  match m_stream c with
  | None => (false, c)
  | Some w =>
      if negb (m_flushed c) || force then
        let u := to_range (m_underflow_count c + 1) in
        let w1 := bs_write (Z.land (Z.shiftr (m_low c) k_low_bit) 1) 1 w in
        let bstate := Z.land (Z.lxor (Z.shiftr (m_low c) k_low_bit) 1) 1 in
        let w2 := write_underflow bstate u w1 in
        (false,
         {| m_stream := Some w2; m_high := m_high c; m_low := m_low c;
            m_underflow_count := 0; m_tmp_range := m_tmp_range c;
            m_max_syms := m_max_syms c; m_probability := m_probability c;
            m_flushed := true |})
      else (false, c)
  end.

(** [init(max_symbols, stream)]; [stream = None] is a null pointer. *)
Definition init (max_symbols : Z) (stream : option bit_writer)
    (c : scalable_ac_c) : bool * scalable_ac_c :=
  let c := (flush false c).2 in
  match stream with
  | None => (false, c)
  | Some w =>
      if max_symbols =? 0 then (false, c)
      else
        (true,
         {| m_stream := Some w; m_high := to_range (to_prob (-1)); m_low := 0;
            m_underflow_count := 0; m_tmp_range := 0; m_max_syms := max_symbols;
            m_probability := Some (uniform_model max_symbols);
            m_flushed := false |})
  end.

Definition expand (max_symbols : Z) (c : scalable_ac_c) : option (bool * scalable_ac_c) :=
  match m_probability c with
  | None => Some (false, c)
  | Some tbl =>
      if max_symbols <=? m_max_syms c then Some (false, c)
      else
        tmp ← copy_table (m_max_syms c) tbl (new_table max_symbols);
        let tmp :=
          take (Z.to_nat (m_max_syms c + 1)) tmp
          ++ (to_prob <$> seqZ (m_max_syms c + 1) (max_symbols - m_max_syms c)) in
        Some (true,
              {| m_stream := m_stream c; m_high := m_high c; m_low := m_low c;
                 m_underflow_count := m_underflow_count c;
                 m_tmp_range := m_tmp_range c; m_max_syms := max_symbols;
                 m_probability := Some tmp; m_flushed := m_flushed c |})
  end.

(** Assignments to members, for the definitions below; the class has no
    such member functions. *)
Definition set_range (hi lo u : Z) (c : scalable_ac_c) : scalable_ac_c :=
  {| m_stream := m_stream c; m_high := hi; m_low := lo;
     m_underflow_count := u; m_tmp_range := m_tmp_range c;
     m_max_syms := m_max_syms c; m_probability := m_probability c;
     m_flushed := m_flushed c |}.

Definition set_stream (w : bit_writer) (c : scalable_ac_c) : scalable_ac_c :=
  {| m_stream := Some w; m_high := m_high c; m_low := m_low c;
     m_underflow_count := m_underflow_count c; m_tmp_range := m_tmp_range c;
     m_max_syms := m_max_syms c; m_probability := m_probability c;
     m_flushed := m_flushed c |}.

Definition set_tmp_range (r : Z) (c : scalable_ac_c) : scalable_ac_c :=
  {| m_stream := m_stream c; m_high := m_high c; m_low := m_low c;
     m_underflow_count := m_underflow_count c; m_tmp_range := r;
     m_max_syms := m_max_syms c; m_probability := m_probability c;
     m_flushed := m_flushed c |}.

Definition set_probability (tbl : list Z) (c : scalable_ac_c) : scalable_ac_c :=
  {| m_stream := m_stream c; m_high := m_high c; m_low := m_low c;
     m_underflow_count := m_underflow_count c; m_tmp_range := m_tmp_range c;
     m_max_syms := m_max_syms c; m_probability := Some tbl;
     m_flushed := m_flushed c |}.

(** The [do ... while (1)] of [range_code], one pass per unit of [fuel].
    [None] when the fuel runs out, or when a bit is to be written and no
    stream is attached. *)
Fixpoint range_code_loop (fuel : nat) (simulate : bool) (cost : Z)
    (c : scalable_ac_c) : option (Z * scalable_ac_c) :=
  match fuel with
  | O => None
  | S fuel' =>
      match renorm_case (m_high c) (m_low c) with
      | TopBitsEqual =>
          let cost := to_range (cost + to_range (m_underflow_count c + 1)) in
          c1 ← (if simulate then Some c
                else
                  w ← m_stream c;
                  let w1 := bs_write (Z.shiftr (m_high c) k_hi_bit) 1 w in
                  let bstate := Z.lxor (Z.shiftr (m_high c) k_hi_bit) 1 in
                  Some (set_stream (write_underflow bstate (m_underflow_count c) w1) c));
          range_code_loop fuel' simulate cost
            (set_range (shift_high (m_high c1)) (shift_low (m_low c1)) 0 c1)
      | Underflow =>
          let u := to_range (m_underflow_count c + 1) in
          let lo := Z.land (m_low c) k_low_bit_mask in
          let hi := Z.lor (m_high c) k_low_bit_val in
          range_code_loop fuel' simulate cost
            (set_range (shift_high hi) (shift_low lo) u c)
      | Leave => Some (cost, c)
      end
  end.

(** The passes the loop is given: it never needs more (see
    [range_code_exits]). *)
Definition loop_fuel : nat := S (Z.to_nat prob_bits).

(** The head of [range_code]. *)
Definition narrow_range (symbol : Z) (c : scalable_ac_c) : option scalable_ac_c :=
  tbl ← m_probability c;
  '(r, hi, lo) ← narrow tbl (m_max_syms c) symbol (m_high c) (m_low c);
  Some (set_range hi lo (m_underflow_count c) (set_tmp_range r c)).

(** [range_code(symbol, simulate)] *)
Definition range_code (symbol : Z) (simulate : bool) (c : scalable_ac_c)
    : option (Z * scalable_ac_c) :=
  c1 ← narrow_range symbol c;
  range_code_loop loop_fuel simulate 0 c1.

(** The model update that ends [encode_symbol] and [estimate_cost]. *)
Definition update (s : Z) (c : scalable_ac_c) : option scalable_ac_c :=
  tbl ← m_probability c;
  tbl' ← update_model s (m_max_syms c) tbl;
  Some (set_probability tbl' c).

Definition encode_symbol (s : Z) (c : scalable_ac_c) : option scalable_ac_c :=
  '(_, c1) ← range_code s false c;
  update s c1.

(** [estimate_cost(s)] for one symbol. *)
Definition estimate_cost (s : Z) (c : scalable_ac_c) : option (Z * scalable_ac_c) :=
  '(cost, c1) ← range_code s true c;
  c2 ← update s c1;
  Some (cost, c2).

(** [estimate_cost(s, count, lim)] over a buffer, [s] being the [count]
    symbols of the buffer. *)
Fixpoint estimate_cost_buf (s : list Z) (lim cost : Z) (c : scalable_ac_c)
    : option (Z * scalable_ac_c) :=
  match s with
  | [] => Some (cost, c)
  | x :: s' =>
      '(k, c1) ← estimate_cost x c;
      let cost := to_range (cost + k) in
      if lim <? cost then Some (cost, c1) else estimate_cost_buf s' lim cost c1
  end.

End ac.
End AC.

(** ** The decoder, [scalable_adc_c] *)
Module ADC.
Section adc.
Context {T : coder_types}.

Record scalable_adc_c := {
  m_stream : option bit_reader;
  m_high : Z;
  m_low : Z;
  m_tmp_range : Z;
  m_max_syms : Z;
  m_code : Z;
  m_probability : option (list Z)
}.

(** [scalable_adc_state_t] *)
Record scalable_adc_state_t := {
  high : Z;
  low : Z;
  tmp_range : Z;
  max_syms : Z;
  code : Z;
  probability : list Z
}.

Definition save_state (c : scalable_adc_c) : option scalable_adc_state_t :=
  src ← m_probability c;
  tbl ← copy_table (m_max_syms c) src (new_table (m_max_syms c));
  Some {| high := m_high c; low := m_low c; tmp_range := m_tmp_range c;
          max_syms := m_max_syms c; code := m_code c; probability := tbl |}.

Definition restore_state (state : scalable_adc_state_t) (cleanup : bool)
    (c : scalable_adc_c) : option (bool * scalable_adc_c) :=
  '(dst, n) ←
     (if decide (m_max_syms c = max_syms state) then
        dst ← m_probability c; Some (dst, m_max_syms c)
      else Some (new_table (max_syms state), max_syms state));
  tbl ← copy_table n (probability state) dst;
  Some (true,
        {| m_stream := m_stream c; m_high := high state; m_low := low state;
           m_tmp_range := tmp_range state; m_max_syms := max_syms state;
           m_code := code state; m_probability := Some tbl |}).

(** The loop of [init] that loads the code register:
    [m_code <<= 1; m_code |= read(1);], [n] times. *)
Fixpoint load_code (n : nat) (code : Z) (r : bit_reader) : Z * bit_reader :=
  match n with
  | O => (code, r)
  | S n' =>
      let '(b, r1) := bs_read1 r in
      load_code n' (Z.lor (to_range (Z.shiftl code 1)) b) r1
  end.

(** [init(max_symbols, stream)]; [stream = None] is a null pointer. *)
Definition init (max_symbols : Z) (stream : option bit_reader)
    (c : scalable_adc_c) : bool * scalable_adc_c :=
  match stream with
  | None => (false, c)
  | Some r =>
      if max_symbols =? 0 then (false, c)
      else
        let '(code, r1) := load_code (Z.to_nat k_max_bits) 0 r in
        (true,
         {| m_stream := Some r1; m_high := to_range (to_prob (-1)); m_low := 0;
            m_tmp_range := 0; m_max_syms := max_symbols; m_code := code;
            m_probability := Some (uniform_model max_symbols) |})
  end.

(** [expand]: the new cells are filled from [j = 0] up. *)
Definition expand (max_symbols : Z) (c : scalable_adc_c) : option (bool * scalable_adc_c) :=
  match m_probability c with
  | None => Some (false, c)
  | Some tbl =>
      if max_symbols <=? m_max_syms c then Some (false, c)
      else
        tmp ← copy_table (m_max_syms c) tbl (new_table max_symbols);
        let tmp :=
          take (Z.to_nat (m_max_syms c + 1)) tmp
          ++ (to_prob <$> seqZ 0 (max_symbols - m_max_syms c)) in
        Some (true,
              {| m_stream := m_stream c; m_high := m_high c; m_low := m_low c;
                 m_tmp_range := m_tmp_range c; m_max_syms := max_symbols;
                 m_code := m_code c; m_probability := Some tmp |})
  end.

(** Assignments to members, for the definitions below; the class has no
    such member functions. *)
Definition set_range (hi lo cd : Z) (c : scalable_adc_c) : scalable_adc_c :=
  {| m_stream := m_stream c; m_high := hi; m_low := lo;
     m_tmp_range := m_tmp_range c; m_max_syms := m_max_syms c;
     m_code := cd; m_probability := m_probability c |}.

Definition set_stream (r : bit_reader) (c : scalable_adc_c) : scalable_adc_c :=
  {| m_stream := Some r; m_high := m_high c; m_low := m_low c;
     m_tmp_range := m_tmp_range c; m_max_syms := m_max_syms c;
     m_code := m_code c; m_probability := m_probability c |}.

Definition set_tmp_range (r : Z) (c : scalable_adc_c) : scalable_adc_c :=
  {| m_stream := m_stream c; m_high := m_high c; m_low := m_low c;
     m_tmp_range := r; m_max_syms := m_max_syms c;
     m_code := m_code c; m_probability := m_probability c |}.

Definition set_probability (tbl : list Z) (c : scalable_adc_c) : scalable_adc_c :=
  {| m_stream := m_stream c; m_high := m_high c; m_low := m_low c;
     m_tmp_range := m_tmp_range c; m_max_syms := m_max_syms c;
     m_code := m_code c; m_probability := Some tbl |}.

(** [get_current_prob(range)]; [None] is the division by a zero
    [m_tmp_range]. *)
Definition get_current_prob (range : Z) (c : scalable_adc_c) : option (Z * scalable_adc_c) :=
  let r := to_range (to_range (m_high c - m_low c) + 1) in
  if r =? 0 then None
  else
    Some (to_range (to_range (to_range (to_range (m_code c - m_low c) + 1) * range) - 1) / r,
          set_tmp_range r c).

(** The scan of [decode_symbol] from [sym] down:
    [if (sym && p[sym] > prob) do {} while (sym && p[--sym] > prob);] *)
Fixpoint scan_down (tbl : list Z) (prob : Z) (sym : nat) : option nat :=
  match sym with
  | O => Some O
  | S k =>
      c ← tbl !! sym;
      if prob <? c then scan_down tbl prob k else Some sym
  end.

(** The [do ... while (1)] of [remove_range], one pass per unit of fuel. *)
Fixpoint remove_range_loop (fuel : nat) (c : scalable_adc_c) : option scalable_adc_c :=
  match fuel with
  | O => None
  | S fuel' =>
      let shift hi lo cd :=
        r ← m_stream c;
        let '(b, r1) := bs_read1 r in
        remove_range_loop fuel'
          (set_stream r1
             (set_range (shift_high hi) (shift_low lo)
                (Z.land (Z.lor (to_range (Z.shiftl cd 1)) b) k_probability_range_mask) c)) in
      match renorm_case (m_high c) (m_low c) with
      | TopBitsEqual => shift (m_high c) (m_low c) (m_code c)
      | Underflow =>
          shift (Z.lor (m_high c) k_low_bit_val)
                (Z.land (m_low c) k_low_bit_mask)
                (Z.lxor (m_code c) k_low_bit_val)
      | Leave => Some c
      end
  end.

(** The passes the loop is given: it never needs more (see
    [remove_range_exits]). *)
Definition loop_fuel : nat := S (Z.to_nat prob_bits).

(** The head of [remove_range]. *)
Definition narrow_range (symbol : Z) (c : scalable_adc_c) : option scalable_adc_c :=
  tbl ← m_probability c;
  '(r, hi, lo) ← narrow tbl (m_max_syms c) symbol (m_high c) (m_low c);
  Some (set_range hi lo (m_code c) (set_tmp_range r c)).

(** [remove_range(symbol)] *)
Definition remove_range (symbol : Z) (c : scalable_adc_c) : option scalable_adc_c :=
  c1 ← narrow_range symbol c;
  remove_range_loop loop_fuel c1.

(** The symbol the scan of [decode_symbol] stops at, for the value [prob]. *)
Definition locate (tbl : list Z) (max_syms prob : Z) : option Z :=
  let sym := if max_syms =? 0 then 0 else to_range (max_syms - 1) in
  Z.of_nat <$> scan_down tbl prob (Z.to_nat sym).

Definition decode_symbol (c : scalable_adc_c) : option (Z * scalable_adc_c) :=
  tbl ← m_probability c;
  total ← tbl !! Z.to_nat (m_max_syms c);
  '(prob, c1) ← get_current_prob total c;
  sym ← locate tbl (m_max_syms c) prob;
  c2 ← remove_range sym c1;
  tbl2 ← m_probability c2;
  tbl3 ← update_model sym (m_max_syms c2) tbl2;
  Some (sym, set_probability tbl3 c2).

End adc.
End ADC.

(** ** The adaptive driver, [example_adaptive.cpp] *)
Section Driver.
Context {T : coder_types}.

Definition byte_val (b : byte) : Z := Z.of_N (Byte.to_N b).

(** The symbols of a run of [encode_symbol] calls. *)
Fixpoint encode_symbols (syms : list Z) (c : AC.scalable_ac_c) : option AC.scalable_ac_c :=
  match syms with
  | [] => Some c
  | s :: syms' => c1 ← AC.encode_symbol s c; encode_symbols syms' c1
  end.

(** [encode]: the bits in the writer when the driver closes it, the file
    being the bytes [input]. *)
Definition encode (input : list byte) : option bit_writer :=
  let c := (AC.init (256 + 1) (Some []) AC.new).2 in
  c1 ← encode_symbols (byte_val <$> input) c;
  c2 ← AC.encode_symbol 256 c1;
  AC.m_stream (AC.flush false c2).2.

(** The [while (1)] of [decode], one symbol per unit of fuel: the bytes
    written to the output file. *)
Fixpoint decode_loop (fuel : nat) (d : ADC.scalable_adc_c) : option (list Z) :=
  match fuel with
  | O => None
  | S fuel' =>
      '(symbol, d1) ← ADC.decode_symbol d;
      if symbol =? 256 then Some []
      else out ← decode_loop fuel' d1; Some (symbol :: out)
  end.

(** [decode] on the bit sequence [s] of the input file, [d0] being the
    decoder object before [init]. *)
Definition decode (fuel : nat) (d0 : ADC.scalable_adc_c) (s : nat -> bool) : option (list Z) :=
  decode_loop fuel (ADC.init (256 + 1) (Some (reader_of s)) d0).2.

End Driver.

(** ** Instantiations *)

(** [<uint32_t, uint64_t>], the one of the drivers. *)
Definition u32_u64 : coder_types := {| prob_bits := 32; range_bits := 64 |}.

(** [<uint8_t, uint32_t>] *)
Definition u8_u32 : coder_types := {| prob_bits := 8; range_bits := 32 |}.

(** ** Definitions used by the statements *)
Section Statements.
Context {T : coder_types}.

(** The table of an encoder or decoder object is allocated with
    [m_max_syms + 1] cells: what [init], [expand] and [restore_state]
    establish. *)
Definition table_ok (max_syms : Z) (tbl : option (list Z)) : Prop :=
  0 <= max_syms /\
  exists t, tbl = Some t /\ length t = Z.to_nat (max_syms + 1).

(** Consecutive counters grow strictly: every slice is at least one. *)
Definition increasing (tbl : list Z) : Prop :=
  forall i a b, tbl !! i = Some a -> tbl !! S i = Some b -> a < b.

(** Consecutive counters do not decrease. *)
Definition nondecreasing (tbl : list Z) : Prop :=
  forall i a b, tbl !! i = Some a -> tbl !! S i = Some b -> a <= b.

(** The cells hold values of [probability_type_t]. *)
Definition typed_table (tbl : list Z) : Prop :=
  Forall (fun c => 0 <= c < 2 ^ prob_bits) tbl.

(** A cumulative table for the alphabet size [n]: [n + 1] cells, the first
    one zero, strictly increasing. *)
Definition cumulative (n : Z) (tbl : list Z) : Prop :=
  0 <= n /\ length tbl = Z.to_nat (n + 1) /\ typed_table tbl /\
  tbl !! O = Some 0 /\ increasing tbl.

(** The rescale pass in the words of the specification: [prev = C[0]];
    for [i] from 1 to [n]: [curr = C[i] >> 1]; if [curr <= prev] then
    [curr = prev + 1]; [C[i] = curr]; [prev = curr]. *)
Definition rescale_step (st : Z * list Z) (i : nat) : Z * list Z :=
  let '(prev, C) := st in
  let curr := Z.shiftr (C !!! i) 1 in
  let curr := if curr <=? prev then prev + 1 else curr in
  (curr, <[i := curr]> C).

Definition rescale_pass (n : Z) (C : list Z) : list Z :=
  (foldl rescale_step (C !!! O, C) (seq 1 (Z.to_nat n))).2.

(** The model at the start of a symbol operation: a cumulative table whose
    total, and whose alphabet size, are below the rescale ceiling. *)
Definition model_ok (n : Z) (tbl : list Z) : Prop :=
  cumulative n tbl /\ 1 <= n < k_max_range /\
  exists total, tbl !! Z.to_nat n = Some total /\ total < k_max_range.

(** The calls made between [save_state] and [restore_state] when a cost is
    estimated. *)
Inductive spec_call :=
  | CallCost (s : Z)
  | CallCostBuf (buf : list Z) (lim : Z)
  | CallExpand (max_symbols : Z).

Definition run_call (k : spec_call) (c : AC.scalable_ac_c) : option AC.scalable_ac_c :=
  match k with
  | CallCost s => snd <$> AC.estimate_cost s c
  | CallCostBuf buf lim => snd <$> AC.estimate_cost_buf buf lim 0 c
  | CallExpand m => snd <$> AC.expand m c
  end.

Fixpoint run_calls (ks : list spec_call) (c : AC.scalable_ac_c) : option AC.scalable_ac_c :=
  match ks with
  | [] => Some c
  | k :: ks' => c1 ← run_call k c; run_calls ks' c1
  end.

(** [state = save_state(); ...calls...; restore_state(state, true);] *)
Definition bracket (ks : list spec_call) (c : AC.scalable_ac_c) : option AC.scalable_ac_c :=
  state ← AC.save_state c;
  c1 ← run_calls ks c;
  snd <$> AC.restore_state state true c1.

(** A loop run with [fuel] passes at its disposal makes exactly [n] full
    passes and leaves in the next one with the result [r]: it is out of
    fuel with [n] passes or fewer, and returns [r] with any more. *)
Definition exits_after {A} (run : nat -> option A) (n : nat) (r : A) : Prop :=
  forall fuel, run fuel = if decide (fuel <= n)%nat then None else Some r.

(** After [k] passes of a renormalisation loop the [k] low bits of [low]
    are zeros and those of [high] are ones. *)
Definition shifted_in (k lo hi : Z) : Prop :=
  lo mod 2 ^ k = 0 /\ hi mod 2 ^ k = 2 ^ k - 1.

(** The bounds a pass of a renormalisation loop passes on to the next. *)
Definition next_high (hi lo : Z) : Z :=
  match renorm_case hi lo with
  | TopBitsEqual => shift_high hi
  | Underflow => shift_high (Z.lor hi k_low_bit_val)
  | Leave => hi
  end.
Definition next_low (hi lo : Z) : Z :=
  match renorm_case hi lo with
  | TopBitsEqual => shift_low lo
  | Underflow => shift_low (Z.land lo k_low_bit_mask)
  | Leave => lo
  end.

(** The number of bits the loop of [range_code] writes in [fuel] passes
    from the bounds [hi], [lo] and the underflow count [u], counted without
    wrap-around. *)
Fixpoint emitted (fuel : nat) (hi lo u : Z) : Z :=
  match fuel with
  | O => 0
  | S fuel' =>
      match renorm_case hi lo with
      | TopBitsEqual => (u + 1) + emitted fuel' (shift_high hi) (shift_low lo) 0
      | Underflow =>
          emitted fuel' (shift_high (Z.lor hi k_low_bit_val))
            (shift_low (Z.land lo k_low_bit_mask)) (to_range (u + 1))
      | Leave => 0
      end
  end.

(** The value of the [n] bits of the sequence [s] from position [p], most
    significant first. *)
Fixpoint window (s : nat -> bool) (p n : nat) : Z :=
  match n with
  | O => 0
  | S k => 2 * window s p k + Z.b2z (s (p + k)%nat)
  end.

(** The code register of a decoder that reads [s] and has followed the
    encoder up to a state whose writer holds [e] bits with [u] underflow
    bits pending: the bit the encoder writes next, then the bits behind the
    pending ones. *)
Definition code_at (s : nat -> bool) (e : nat) (u : Z) : Z :=
  Z.b2z (s e) * 2 ^ (prob_bits - 1)
  + window s (e + Z.to_nat u + 1) (Z.to_nat (prob_bits - 1)).

(** The bounds of an encoder inside the loop of [range_code]. *)
Definition range_ok (c : AC.scalable_ac_c) : Prop :=
  0 <= AC.m_low c /\ AC.m_low c <= AC.m_high c /\ AC.m_high c < 2 ^ prob_bits.

(** An encoder between two symbols. *)
Definition enc_ok (c : AC.scalable_ac_c) : Prop :=
  range_ok c /\ renorm_case (AC.m_high c) (AC.m_low c) = Leave /\
  0 <= AC.m_underflow_count c /\ AC.m_flushed c = false /\
  is_Some (AC.m_stream c) /\
  exists tbl, AC.m_probability c = Some tbl /\ model_ok (AC.m_max_syms c) tbl.

(** The sequence [s] is one the encoder [c] can still produce: the pending
    underflow bits are the complement of the next bit, and the code a decoder
    holds lies within the bounds. *)
Definition sound (s : nat -> bool) (c : AC.scalable_ac_c) : Prop :=
  exists w, AC.m_stream c = Some w /\
    (forall j : nat, (1 <= j <= Z.to_nat (AC.m_underflow_count c))%nat ->
       s (length w + j)%nat = negb (s (length w))) /\
    AC.m_low c <= code_at s (length w) (AC.m_underflow_count c) <= AC.m_high c.

(** The decoder [d], reading [s], has followed the encoder [c]. *)
Definition follows (s : nat -> bool) (c : AC.scalable_ac_c) (d : ADC.scalable_adc_c) : Prop :=
  exists w, AC.m_stream c = Some w /\
    ADC.m_stream d =
      Some {| rd_bits := s;
              rd_pos := length w + Z.to_nat (AC.m_underflow_count c)
                        + Z.to_nat prob_bits |} /\
    ADC.m_code d = code_at s (length w) (AC.m_underflow_count c) /\
    ADC.m_high d = AC.m_high c /\ ADC.m_low d = AC.m_low c /\
    ADC.m_probability d = AC.m_probability c /\
    ADC.m_max_syms d = AC.m_max_syms c.

(** A run of [decode_symbol] calls. *)
Fixpoint decode_symbols (n : nat) (d : ADC.scalable_adc_c)
    : option (list Z * ADC.scalable_adc_c) :=
  match n with
  | O => Some ([], d)
  | S n' =>
      '(s, d1) ← ADC.decode_symbol d;
      '(l, d2) ← decode_symbols n' d1;
      Some (s :: l, d2)
  end.

(** A decoder object as the constructor leaves it: no stream, no table.
    The constructor does not initialise the other members; zero stands for
    whatever they hold. *)
Definition adc_new : ADC.scalable_adc_c :=
  {| ADC.m_stream := None; ADC.m_high := 0; ADC.m_low := 0; ADC.m_tmp_range := 0;
     ADC.m_max_syms := 0; ADC.m_code := 0; ADC.m_probability := None |}.

End Statements.

(** ** Two objects the examples start from *)
Section Objects_u32_u64.
#[local] Existing Instance u32_u64.

(** An encoder after [init] with three symbols on an empty stream. *)
Definition enc3 : AC.scalable_ac_c := (AC.init 3 (Some []) AC.new).2.

(** A decoder after [init] with three symbols on a stream of zeros. *)
Definition dec3 : ADC.scalable_adc_c :=
  (ADC.init 3 (Some (reader_of (fun _ => false))) adc_new).2.

End Objects_u32_u64.

(** [<uint16_t, uint32_t>], the instantiation of the examples in the
    headers. *)
Definition u16_u32 : coder_types := {| prob_bits := 16; range_bits := 32 |}.

(** ** Definitions used by the further properties *)
Section MoreStatements.
Context {T : coder_types}.

(** A decoder between two symbols: the code register lies within the
    bounds, the bounds need no renormalisation pass, a stream is attached
    and the model is as [model_ok] says. *)
Definition dec_ok (d : ADC.scalable_adc_c) : Prop :=
  0 <= ADC.m_low d /\ ADC.m_low d <= ADC.m_code d <= ADC.m_high d /\
  ADC.m_high d < 2 ^ prob_bits /\
  renorm_case (ADC.m_high d) (ADC.m_low d) = Leave /\
  is_Some (ADC.m_stream d) /\
  exists tbl, ADC.m_probability d = Some tbl /\ model_ok (ADC.m_max_syms d) tbl.

(** The reader [r] moved [k] bits on. *)
Definition advance (k : nat) (r : bit_reader) : bit_reader :=
  {| rd_bits := rd_bits r; rd_pos := (rd_pos r + k)%nat |}.

(** The width of the slice of symbol [i] in a cumulative table: its
    frequency count. *)
Definition slice_width (tbl : list Z) (i : nat) : Z :=
  tbl !!! S i - tbl !!! i.

(** The use of the encoder the header of [scalable_ac.hpp] shows:
    [coder.init(n, &out); coder.encode_symbol(..) ...; coder.flush();], on
    a writer that holds the bits [w0] already.  The result is what the
    writer holds in the end. *)
Definition encode_run (n : Z) (w0 : bit_writer) (syms : list Z) : option bit_writer :=
  c ← encode_symbols syms (AC.init n (Some w0) AC.new).2;
  AC.m_stream (AC.flush false c).2.

(** The use of the decoder the header of [scalable_adc.hpp] shows:
    [coder.init(n, &in);] then [k] calls of [coder.decode_symbol()], on the
    reader [r]. *)
Definition decode_run (n : Z) (r : bit_reader) (k : nat) (d0 : ADC.scalable_adc_c)
    : option (list Z * ADC.scalable_adc_c) :=
  decode_symbols k (ADC.init n (Some r) d0).2.

End MoreStatements.

(** * The properties *)

(** ** Lengths of the tables *)

Section TableFacts.
Context {T : coder_types}.

Lemma length_bump_model p0 p1 tbl tbl' :
  bump_model p0 p1 tbl = Some tbl' -> length tbl' = length tbl.
Proof.
  unfold bump_model. intros H.
  destruct (p0 <? p1) eqn:E; [|congruence].
  destruct (decide _) as [Hl|]; [|congruence].
  injection H as <-. apply Z.ltb_lt in E.
  rewrite !length_app, length_fmap, !length_take, !length_drop. lia.
Qed.

Lemma length_scale_walk prev rest : length (scale_walk prev rest) = length rest.
Proof. revert prev. induction rest as [|c rest IH]; intros prev; simpl; [done|]. by rewrite IH. Qed.

Lemma length_scale_model n tbl tbl' :
  scale_model n tbl = Some tbl' -> length tbl' = length tbl.
Proof.
  unfold scale_model. destruct tbl as [|c0 rest]; [congruence|].
  destruct (decide _); [|congruence]. intros H. injection H as <-.
  simpl. rewrite length_app, length_scale_walk, length_take, length_drop. lia.
Qed.

Lemma length_update_model s n tbl tbl' :
  update_model s n tbl = Some tbl' -> length tbl' = length tbl.
Proof.
  unfold update_model. intros H.
  destruct (bump_model _ _ tbl) as [tbl1|] eqn:E1; simpl in H; [|congruence].
  destruct (tbl1 !! _) as [total|]; simpl in H; [|congruence].
  apply length_bump_model in E1.
  destruct (k_max_range <=? total).
  - apply length_scale_model in H. congruence.
  - congruence.
Qed.

Lemma length_new_table n :
  0 <= n -> n + 1 < 2 ^ range_bits -> length (new_table n) = Z.to_nat (n + 1).
Proof.
  intros. unfold new_table, to_range. rewrite length_replicate, Z.mod_small by lia. done.
Qed.

Lemma copy_table_full n src dst :
  length src = Z.to_nat (n + 1) -> length dst = Z.to_nat (n + 1) ->
  copy_table n src dst = Some src.
Proof.
  intros Hs Hd. unfold copy_table. rewrite decide_True by lia.
  rewrite take_ge, drop_ge, app_nil_r by lia. done.
Qed.

End TableFacts.

(** ** The encoder object: flush and snapshots *)

(** Inversion of the chains of binds of the undefined-behaviour monad. *)
Lemma bind_Some_l {A B} (f : A -> option B) (x : A) : Some x ≫= f = f x.
Proof. reflexivity. Qed.
Lemma bind_None_l {A B} (f : A -> option B) : None ≫= f = None.
Proof. reflexivity. Qed.

Ltac inv_bind_step :=
  match goal with
  | H : mbind _ ?m = Some _ |- _ =>
      let E := fresh "E" in
      destruct m eqn:E;
      [rewrite bind_Some_l in H; cbv beta iota in H
      |rewrite bind_None_l in H; discriminate H]
  | H : (if ?b then None else _) = Some _ |- _ =>
      let E := fresh "E" in
      destruct b eqn:E; [discriminate H|]
  | H : (let '(_, _) := ?p in _) = Some _ |- _ => destruct p
  end.
Ltac inv_binds := repeat inv_bind_step; simplify_eq.

Section EncoderState.
Context {T : coder_types}.

(** C10, the value [flush] returns.  On every path, the one that writes
    the closing bits included, [flush] returns [false]. *)
Theorem flush_returns_false (force : bool) (c : AC.scalable_ac_c) :
  (AC.flush force c).1 = false.
Proof.
  unfold AC.flush. destruct (AC.m_stream c); [|done].
  by destruct (negb (AC.m_flushed c) || force).
Qed.

Lemma flush_sets_flushed force c w :
  AC.m_stream c = Some w -> AC.m_flushed (AC.flush force c).2 = true.
Proof.
  intros Hw. unfold AC.flush. rewrite Hw.
  destruct (negb (AC.m_flushed c) || force) eqn:E; simpl; [done|].
  apply orb_false_elim in E as [E _]. by apply negb_false_iff in E.
Qed.

Lemma flush_keeps_stream_attached force c w :
  AC.m_stream c = Some w -> exists w', AC.m_stream (AC.flush force c).2 = Some w'.
Proof.
  intros Hw. unfold AC.flush. rewrite Hw.
  destruct (negb (AC.m_flushed c) || force); simpl; eauto.
Qed.

Lemma flush_flushed_noop c :
  AC.m_flushed c = true -> AC.flush false c = (false, c).
Proof.
  intros Hf. unfold AC.flush. destruct (AC.m_stream c); [|done]. by rewrite Hf.
Qed.

(** C9, [flush] is idempotent.  After a [flush] on an encoder with a
    stream attached, [flush(false)] returns the very state it was given, the
    stream with it, and so does any number of such calls in a row. *)
Theorem flush_idempotent (force : bool) (c : AC.scalable_ac_c) (w : bit_writer) (n : nat) :
  AC.m_stream c = Some w ->
  let c1 := (AC.flush force c).2 in
  AC.flush false c1 = (false, c1) /\
  Nat.iter n (fun c => (AC.flush false c).2) c1 = c1.
Proof.
  intros Hw c1.
  assert (Hno : AC.flush false c1 = (false, c1)).
  { apply flush_flushed_noop. unfold c1. by eapply flush_sets_flushed. }
  split; [done|].
  induction n as [|n IH]; simpl; [done|]. by rewrite IH, Hno.
Qed.

(** *** Speculative calls keep the stream, the flag and the table size *)

Lemma range_code_loop_sim_frame fuel cost c r c' :
  AC.range_code_loop fuel true cost c = Some (r, c') ->
  AC.m_stream c' = AC.m_stream c /\ AC.m_flushed c' = AC.m_flushed c /\
  AC.m_max_syms c' = AC.m_max_syms c /\ AC.m_probability c' = AC.m_probability c /\
  AC.m_tmp_range c' = AC.m_tmp_range c.
Proof.
  revert cost c. induction fuel as [|fuel IH]; intros cost c; simpl; [done|].
  repeat case_match; simpl; intros Hx.
  - apply IH in Hx. simpl in Hx. done.
  - apply IH in Hx. simpl in Hx. done.
  - by injection Hx as _ <-.
Qed.

Lemma estimate_cost_frame s c r c' :
  AC.estimate_cost s c = Some (r, c') ->
  AC.m_stream c' = AC.m_stream c /\ AC.m_flushed c' = AC.m_flushed c /\
  AC.m_max_syms c' = AC.m_max_syms c /\
  (table_ok (AC.m_max_syms c) (AC.m_probability c) ->
   table_ok (AC.m_max_syms c') (AC.m_probability c')).
Proof.
  unfold AC.estimate_cost, AC.range_code, AC.narrow_range, AC.update. intros H.
  inv_binds.
  match goal with E : AC.range_code_loop _ _ _ _ = Some _ |- _ =>
    apply range_code_loop_sim_frame in E as (Hs & Hf & Hn & Hp & _); simpl in * end.
  simpl. split_and!; try done.
  intros (? & t & Ht & Hlen). rewrite Hn.
  split_and!; try done. eexists. split; [done|].
  match goal with E : update_model _ _ _ = Some _ |- _ =>
    apply length_update_model in E end.
  congruence.
Qed.

Lemma estimate_cost_buf_frame buf lim cost c r c' :
  AC.estimate_cost_buf buf lim cost c = Some (r, c') ->
  AC.m_stream c' = AC.m_stream c /\ AC.m_flushed c' = AC.m_flushed c /\
  AC.m_max_syms c' = AC.m_max_syms c /\
  (table_ok (AC.m_max_syms c) (AC.m_probability c) ->
   table_ok (AC.m_max_syms c') (AC.m_probability c')).
Proof.
  revert cost c. induction buf as [|x buf IH]; intros cost c; simpl.
  - intros [= <- <-]. done.
  - destruct (AC.estimate_cost x c) as [[k c1]|] eqn:E1; simpl; [|done].
    apply estimate_cost_frame in E1 as (Hs & Hf & Hn & Ht).
    destruct (lim <? _).
    + intros [= <- <-]. done.
    + intros H. apply IH in H as (Hs' & Hf' & Hn' & Ht').
      split_and!; try congruence. auto.
Qed.

Lemma expand_frame m c b c' :
  AC.expand m c = Some (b, c') ->
  AC.m_stream c' = AC.m_stream c /\ AC.m_flushed c' = AC.m_flushed c /\
  (table_ok (AC.m_max_syms c) (AC.m_probability c) ->
   table_ok (AC.m_max_syms c') (AC.m_probability c')).
Proof.
  unfold AC.expand. destruct (AC.m_probability c) as [tbl|] eqn:Et.
  2:{ intros [= <- <-]. rewrite Et. done. }
  destruct (m <=? AC.m_max_syms c) eqn:Em.
  { intros [= <- <-]. rewrite Et. done. }
  apply Z.leb_gt in Em.
  destruct (copy_table _ _ _) as [tmp|] eqn:Ec; simpl; [|done].
  intros [= <- <-]. simpl. split_and!; try done.
  intros (Hn0 & t & [= <-] & Hlen). split_and!; try lia.
  eexists. split; [done|].
  unfold copy_table in Ec. destruct (decide _) as [[Ha Hb]|]; [|done].
  injection Ec as <-.
  rewrite length_app, length_take, length_app, length_take, length_drop.
  rewrite length_fmap, length_seqZ. lia.
Qed.

Lemma run_call_frame k c c' :
  run_call k c = Some c' ->
  AC.m_stream c' = AC.m_stream c /\ AC.m_flushed c' = AC.m_flushed c /\
  (table_ok (AC.m_max_syms c) (AC.m_probability c) ->
   table_ok (AC.m_max_syms c') (AC.m_probability c')).
Proof.
  destruct k as [s|buf lim|m]; simpl; intros H;
    apply fmap_Some in H as ([r c1] & H & ->); simpl.
  - apply estimate_cost_frame in H as (? & ? & ? & ?). auto.
  - apply estimate_cost_buf_frame in H as (? & ? & ? & ?). auto.
  - apply expand_frame in H as (? & ? & ?). auto.
Qed.

Lemma run_calls_frame ks c c' :
  run_calls ks c = Some c' ->
  AC.m_stream c' = AC.m_stream c /\ AC.m_flushed c' = AC.m_flushed c /\
  (table_ok (AC.m_max_syms c) (AC.m_probability c) ->
   table_ok (AC.m_max_syms c') (AC.m_probability c')).
Proof.
  revert c. induction ks as [|k ks IH]; intros c; simpl.
  - intros [= <-]. done.
  - intros H. inv_binds.
    match goal with E : run_call _ _ = Some _ |- _ =>
      apply run_call_frame in E as (? & ? & ?) end.
    apply IH in H as (? & ? & ?). split_and!; try congruence. auto.
Qed.

(** [restore_state] of what [save_state] returned rebuilds the object the
    snapshot was taken of, whatever the table of the object it is restored
    into, and leaves the stream of that object alone. *)
Lemma restore_save c state c1 cleanup :
  table_ok (AC.m_max_syms c) (AC.m_probability c) ->
  table_ok (AC.m_max_syms c1) (AC.m_probability c1) ->
  AC.save_state c = Some state ->
  AC.restore_state state cleanup c1 =
    Some (true,
          {| AC.m_stream := AC.m_stream c1; AC.m_high := AC.m_high c;
             AC.m_low := AC.m_low c;
             AC.m_underflow_count := AC.m_underflow_count c;
             AC.m_tmp_range := AC.m_tmp_range c;
             AC.m_max_syms := AC.m_max_syms c;
             AC.m_probability := AC.m_probability c;
             AC.m_flushed := AC.m_flushed c |}).
Proof.
  intros (Hn & t & Ht & Hlen) (Hn1 & t1 & Ht1 & Hlen1) Hs.
  unfold AC.save_state in Hs. rewrite Ht in Hs. inv_binds.
  match goal with E : copy_table _ _ _ = Some _ |- _ => rename E into Ec end.
  assert (Hnew : length (new_table (AC.m_max_syms c)) = Z.to_nat (AC.m_max_syms c + 1)).
  { unfold copy_table in Ec. destruct (decide _) as [[_ Hb]|]; [|done].
    unfold new_table, to_range in *. rewrite length_replicate in *.
    destruct (Z.le_gt_cases 0 range_bits).
    - pose proof (Z.mod_le (AC.m_max_syms c + 1) (2 ^ range_bits)).
      assert (0 < 2 ^ range_bits) by (by apply Z.pow_pos_nonneg). lia.
    - by rewrite Z.pow_neg_r, Z.mod_0_r by lia. }
  rewrite copy_table_full in Ec by done. injection Ec as <-.
  unfold AC.restore_state. simpl.
  destruct (decide _) as [Heq|Hne].
  - rewrite Ht1. simpl. rewrite copy_table_full by congruence. simpl.
    by rewrite Ht.
  - simpl. rewrite copy_table_full by done. simpl. by rewrite Ht.
Qed.

(** [save_state] is defined on an allocated table whose size fits the
    range type. *)
Lemma save_state_defined c :
  table_ok (AC.m_max_syms c) (AC.m_probability c) ->
  AC.m_max_syms c + 1 < 2 ^ range_bits ->
  is_Some (AC.save_state c).
Proof.
  intros (Hn & t & Ht & Hlen) Hfit. unfold AC.save_state.
  rewrite Ht, bind_Some_l.
  assert (Hnew : length (new_table (AC.m_max_syms c)) = Z.to_nat (AC.m_max_syms c + 1)).
  { unfold new_table, to_range. rewrite length_replicate.
    by rewrite Z.mod_small by lia. }
  rewrite copy_table_full by congruence. simpl. eauto.
Qed.

(** C7, snapshot neutrality.  On an encoder whose table is allocated (with
    a size that fits the range type), [save_state], then any sequence of
    [estimate_cost] calls on single symbols or buffers and of [expand]
    calls that stays clear of undefined behaviour, then [restore_state] of
    the snapshot with [cleanup = true]: the bracket is defined and ends in
    the state it started from.  The bounds, the underflow count, the flag,
    [m_tmp_range], the alphabet size, the table and the stream are those of
    the save point, also when a call to [expand] has changed the alphabet
    size in between and [restore_state] allocates the table anew. *)
Theorem snapshot_neutrality (ks : list spec_call) (c c1 : AC.scalable_ac_c) :
  table_ok (AC.m_max_syms c) (AC.m_probability c) ->
  AC.m_max_syms c + 1 < 2 ^ range_bits ->
  run_calls ks c = Some c1 ->
  bracket ks c = Some c.
Proof.
  intros Hok Hfit Hrun. unfold bracket.
  destruct (save_state_defined c Hok Hfit) as [state Hsave].
  rewrite Hsave, bind_Some_l, Hrun, bind_Some_l.
  destruct (run_calls_frame _ _ _ Hrun) as (Hs & Hf & Hok').
  rewrite (restore_save c state c1 true Hok (Hok' Hok) Hsave).
  simpl. rewrite Hs. by destruct c.
Qed.

End EncoderState.

(** ** Bit-level facts on [Z] *)

Lemma land_pow2 x k :
  0 <= k -> Z.land x (2 ^ k) = if Z.testbit x k then 2 ^ k else 0.
Proof.
  intros Hk. apply Z.bits_inj'. intros n Hn.
  rewrite Z.land_spec, Z.pow2_bits_eqb by lia.
  destruct (Z.eqb_spec k n) as [->|Hne].
  - destruct (Z.testbit x n); simpl.
    + by rewrite Z.pow2_bits_true.
    + by rewrite Z.bits_0.
  - rewrite andb_false_r. destruct (Z.testbit x k).
    + rewrite Z.pow2_bits_false; [done|lia].
    + by rewrite Z.bits_0.
Qed.

Lemma land_pow2_eq0 x k : 0 <= k -> (Z.land x (2 ^ k) =? 0) = negb (Z.testbit x k).
Proof.
  intros Hk. rewrite land_pow2 by done.
  assert (0 < 2 ^ k) by (by apply Z.pow_pos_nonneg).
  destruct (Z.testbit x k); simpl; [apply Z.eqb_neq; lia|done].
Qed.

Lemma land_pow2_eqb x y k :
  0 <= k ->
  (Z.land x (2 ^ k) =? Z.land y (2 ^ k)) = Bool.eqb (Z.testbit x k) (Z.testbit y k).
Proof.
  intros Hk. rewrite !land_pow2 by done.
  assert (0 < 2 ^ k) by (by apply Z.pow_pos_nonneg).
  destruct (Z.testbit x k), (Z.testbit y k); cbn [Bool.eqb];
    first [apply Z.eqb_eq; lia | apply Z.eqb_neq; lia].
Qed.

Lemma lor_pow2_clear x k :
  0 <= k -> Z.testbit x k = false -> Z.lor x (2 ^ k) = x + 2 ^ k.
Proof.
  intros Hk Hb. rewrite <-Z.add_lor_land.
  rewrite land_pow2, Hb by done. lia.
Qed.

Lemma lxor_pow2 x k :
  0 <= k -> Z.lxor x (2 ^ k) = if Z.testbit x k then x - 2 ^ k else x + 2 ^ k.
Proof.
  intros Hk. destruct (Z.testbit x k) eqn:Hb.
  - set (y := x - 2 ^ k).
    assert (Hc : Z.testbit y k = false).
    { apply Z.testbit_true in Hb; [|done]. apply Z.testbit_false; [done|].
      unfold y. replace (x - 2 ^ k) with (x + (-1) * 2 ^ k) by lia.
      assert (0 < 2 ^ k) by (by apply Z.pow_pos_nonneg).
      rewrite Z.div_add by lia.
      replace (x / 2 ^ k + -1) with (x / 2 ^ k - 1) by lia.
      rewrite Zminus_mod, Hb. done. }
    assert (Hx : x = Z.lor y (2 ^ k)) by (rewrite lor_pow2_clear by done; unfold y; lia).
    rewrite Hx at 1.
    apply Z.bits_inj'. intros n Hn.
    rewrite Z.lxor_spec, Z.lor_spec, Z.pow2_bits_eqb by lia.
    destruct (Z.eqb_spec k n) as [->|Hne].
    + by rewrite Hc.
    + by destruct (Z.testbit y n).
  - rewrite <-(lor_pow2_clear _ _ Hk Hb).
    apply Z.bits_inj'. intros n Hn.
    rewrite Z.lxor_spec, Z.lor_spec, Z.pow2_bits_eqb by lia.
    destruct (Z.eqb_spec k n) as [->|Hne].
    + by rewrite Hb.
    + by destruct (Z.testbit x n).
Qed.

Lemma testbit_top x k :
  0 <= k -> 0 <= x < 2 ^ (k + 1) -> Z.testbit x k = (2 ^ k <=? x).
Proof.
  intros Hk Hx. rewrite Z.pow_add_r in Hx by lia. change (2 ^ 1) with 2 in Hx.
  assert (0 < 2 ^ k) by (by apply Z.pow_pos_nonneg).
  destruct (Z.leb_spec (2 ^ k) x).
  - apply Z.testbit_true; [done|].
    assert (x / 2 ^ k = 1) as -> by (symmetry; apply Z.div_unique with (x - 2 ^ k); lia). done.
  - apply Z.testbit_false; [done|]. by rewrite Z.div_small by lia.
Qed.

Lemma testbit_mod_pow2 x k j :
  0 <= j < k -> Z.testbit x j = Z.testbit (x mod 2 ^ k) j.
Proof. intros. by rewrite Z.mod_pow2_bits_low by lia. Qed.

Lemma mod_mod_pow2 x a b : 0 <= a <= b -> (x mod 2 ^ b) mod 2 ^ a = x mod 2 ^ a.
Proof.
  intros Hab. replace b with (a + (b - a)) by lia.
  rewrite Z.pow_add_r by lia.
  assert (0 < 2 ^ a) by (apply Z.pow_pos_nonneg; lia).
  assert (0 < 2 ^ (b - a)) by (apply Z.pow_pos_nonneg; lia).
  rewrite Z.rem_mul_r by lia.
  rewrite Z.mul_comm, Z.mod_add by lia. apply Z.mod_mod. lia.
Qed.

(** ** The constants of a well-formed instantiation *)
Section Constants.
Context {T : coder_types} {Tok : coder_types_ok T}.

Lemma prob_bits_pos : 8 <= prob_bits.
Proof. apply prob_bits_ge. Qed.

Lemma range_bits_big : 2 * prob_bits <= range_bits.
Proof. apply range_bits_ge. Qed.

Lemma pow_prob_pos : 0 < 2 ^ prob_bits.
Proof. pose proof prob_bits_pos. apply Z.pow_pos_nonneg; lia. Qed.

Lemma pow_range_pos : 0 < 2 ^ range_bits.
Proof. pose proof prob_bits_pos. pose proof range_bits_big. apply Z.pow_pos_nonneg; lia. Qed.

Lemma pow_prob_le_range : 2 ^ prob_bits * 2 ^ prob_bits <= 2 ^ range_bits.
Proof.
  pose proof prob_bits_pos. pose proof range_bits_big.
  rewrite <-Z.pow_add_r by lia. apply Z.pow_le_mono_r; lia.
Qed.

Lemma pow_prob_split : 2 ^ prob_bits = 4 * 2 ^ (prob_bits - 2).
Proof.
  pose proof prob_bits_pos.
  replace prob_bits with (2 + (prob_bits - 2)) at 1 by lia.
  by rewrite Z.pow_add_r by lia.
Qed.

Lemma pow_hi_split : 2 ^ (prob_bits - 1) = 2 * 2 ^ (prob_bits - 2).
Proof.
  pose proof prob_bits_pos.
  replace (prob_bits - 1) with (1 + (prob_bits - 2)) at 1 by lia.
  by rewrite Z.pow_add_r by lia.
Qed.

Lemma pow_low_pos : 64 <= 2 ^ (prob_bits - 2).
Proof.
  pose proof prob_bits_pos. change 64 with (2 ^ 6).
  apply Z.pow_le_mono_r; lia.
Qed.

Lemma to_range_small x : 0 <= x < 2 ^ range_bits -> to_range x = x.
Proof. intros. unfold to_range. by apply Z.mod_small. Qed.

Lemma to_prob_small x : 0 <= x < 2 ^ prob_bits -> to_prob x = x.
Proof. intros. unfold to_prob. by apply Z.mod_small. Qed.

Lemma to_range_bound x : 0 <= to_range x < 2 ^ range_bits.
Proof. unfold to_range. apply Z.mod_pos_bound, pow_range_pos. Qed.

Lemma to_prob_bound x : 0 <= to_prob x < 2 ^ prob_bits.
Proof. unfold to_prob. apply Z.mod_pos_bound, pow_prob_pos. Qed.

Lemma prob_lt_range : 2 ^ prob_bits <= 2 ^ range_bits.
Proof.
  pose proof prob_bits_pos. pose proof range_bits_big.
  apply Z.pow_le_mono_r; lia.
Qed.

Lemma pow_prob_256 : 256 <= 2 ^ prob_bits.
Proof.
  pose proof prob_bits_pos. change 256 with (2 ^ 8). apply Z.pow_le_mono_r; lia.
Qed.

Lemma pow_prob_lt_range : 256 * 2 ^ prob_bits <= 2 ^ range_bits.
Proof.
  pose proof pow_prob_256. pose proof pow_prob_le_range. pose proof pow_prob_pos. nia.
Qed.

Lemma bits_lt_pow : prob_bits < 2 ^ prob_bits.
Proof. pose proof prob_bits_pos. apply Z.pow_gt_lin_r; lia. Qed.

Lemma k_max_bits_eq : k_max_bits = prob_bits.
Proof.
  unfold k_max_bits. apply to_range_small.
  pose proof prob_bits_pos. pose proof bits_lt_pow. pose proof prob_lt_range. lia.
Qed.

Lemma k_hi_bit_eq : k_hi_bit = prob_bits - 1.
Proof.
  unfold k_hi_bit. rewrite k_max_bits_eq. apply to_range_small.
  pose proof prob_bits_pos. pose proof bits_lt_pow. pose proof prob_lt_range. lia.
Qed.

Lemma k_low_bit_eq : k_low_bit = prob_bits - 2.
Proof.
  unfold k_low_bit. rewrite k_max_bits_eq. apply to_range_small.
  pose proof prob_bits_pos. pose proof bits_lt_pow. pose proof prob_lt_range. lia.
Qed.

Lemma k_low_bit_val_eq : k_low_bit_val = 2 ^ (prob_bits - 2).
Proof.
  unfold k_low_bit_val. fold k_low_bit. rewrite k_low_bit_eq.
  pose proof prob_bits_pos.
  rewrite Z.shiftl_1_l. apply to_range_small.
  pose proof pow_prob_split. pose proof prob_lt_range. pose proof pow_low_pos. lia.
Qed.

Lemma k_hi_bit_val_eq : k_hi_bit_val = 2 ^ (prob_bits - 1).
Proof.
  unfold k_hi_bit_val. fold k_hi_bit. rewrite k_hi_bit_eq.
  pose proof prob_bits_pos.
  rewrite Z.shiftl_1_l. apply to_range_small.
  pose proof pow_prob_split. pose proof pow_hi_split.
  pose proof prob_lt_range. pose proof pow_low_pos. lia.
Qed.

Lemma k_low_bit_mask_eq : k_low_bit_mask = 2 ^ (prob_bits - 2) - 1.
Proof.
  unfold k_low_bit_mask. rewrite k_low_bit_val_eq. apply to_range_small.
  pose proof pow_prob_split. pose proof prob_lt_range. pose proof pow_low_pos. lia.
Qed.

Lemma k_max_range_eq : k_max_range = 2 ^ (prob_bits - 2) - 1.
Proof. apply k_low_bit_mask_eq. Qed.

Lemma k_probability_range_mask_eq : k_probability_range_mask = Z.ones prob_bits.
Proof.
  unfold k_probability_range_mask, to_prob.
  pose proof pow_prob_pos. pose proof prob_lt_range.
  assert ((-1) mod 2 ^ prob_bits = 2 ^ prob_bits - 1) as ->.
  { symmetry. apply Z.mod_unique with (-1); lia. }
  rewrite to_range_small by lia. rewrite Z.ones_equiv. lia.
Qed.

Lemma all_ones_eq : to_range (to_prob (-1)) = 2 ^ prob_bits - 1.
Proof.
  fold k_probability_range_mask. rewrite k_probability_range_mask_eq, Z.ones_equiv. lia.
Qed.

Lemma shift_low_eq x : shift_low x = (2 * x) mod 2 ^ prob_bits.
Proof.
  unfold shift_low. rewrite k_probability_range_mask_eq.
  pose proof prob_bits_pos. pose proof range_bits_big.
  rewrite Z.land_ones by lia. unfold to_range.
  rewrite mod_mod_pow2 by lia. rewrite Z.shiftl_mul_pow2 by lia.
  f_equal. lia.
Qed.

Lemma shift_high_eq x : shift_high x = (2 * x + 1) mod 2 ^ prob_bits.
Proof.
  unfold shift_high. rewrite k_probability_range_mask_eq.
  pose proof prob_bits_pos. pose proof range_bits_big.
  rewrite Z.land_ones by lia.
  assert (Hlor : forall y, Z.lor (to_range (Z.shiftl y 1)) 1 = to_range (2 * y) + 1).
  { intros y. rewrite Z.shiftl_mul_pow2 by lia. change (2 ^ 1) with 2.
    replace (y * 2) with (2 * y) by lia.
    change 1 with (2 ^ 0) at 1. rewrite lor_pow2_clear; [done|lia|].
    unfold to_range. rewrite <-(testbit_mod_pow2 _ range_bits 0) by lia.
    apply Z.testbit_even_0. }
  rewrite Hlor. unfold to_range.
  rewrite <-Zplus_mod_idemp_l, mod_mod_pow2 by lia.
  rewrite Zplus_mod_idemp_l. done.
Qed.

End Constants.

(** ** The renormalisation loops end *)

Lemma mod_double x k : 0 <= k -> (2 * x) mod 2 ^ (k + 1) = 2 * (x mod 2 ^ k).
Proof.
  intros Hk. rewrite Z.pow_add_r by lia. change (2 ^ 1) with 2.
  assert (0 < 2 ^ k) by (by apply Z.pow_pos_nonneg).
  rewrite (Z.mul_comm (2 ^ k) 2). rewrite Z.mul_mod_distr_l by lia. done.
Qed.

Lemma mod_double_1 x k : 0 <= k -> (2 * x + 1) mod 2 ^ (k + 1) = 2 * (x mod 2 ^ k) + 1.
Proof.
  intros Hk. assert (0 < 2 ^ k) by (by apply Z.pow_pos_nonneg).
  assert (Hp : 2 ^ (k + 1) = 2 * 2 ^ k) by (rewrite Z.pow_add_r by lia; lia).
  pose proof (Z.mod_pos_bound x (2 ^ k) ltac:(lia)).
  symmetry. apply Z.mod_unique with (x / 2 ^ k); [lia|].
  rewrite Hp. pose proof (Z.div_mod x (2 ^ k) ltac:(lia)). lia.
Qed.

Lemma add_pow2_mod x j k : 0 <= k <= j -> (x + 2 ^ j) mod 2 ^ k = x mod 2 ^ k.
Proof.
  intros Hkj. replace j with ((j - k) + k) by lia.
  rewrite Z.pow_add_r by lia. apply Z.mod_add.
  assert (0 < 2 ^ k) by (apply Z.pow_pos_nonneg; lia). lia.
Qed.

Lemma ones_eq n : Z.ones n = 2 ^ n - 1.
Proof. rewrite Z.ones_equiv. lia. Qed.

Section Renorm.
Context {T : coder_types} {Tok : coder_types_ok T}.

Lemma renorm_case_bits hi lo :
  renorm_case hi lo =
    if Bool.eqb (Z.testbit hi (prob_bits - 1)) (Z.testbit lo (prob_bits - 1))
    then TopBitsEqual
    else if Z.testbit lo (prob_bits - 2) && negb (Z.testbit hi (prob_bits - 2))
         then Underflow else Leave.
Proof.
  unfold renorm_case. pose proof prob_bits_pos.
  rewrite k_hi_bit_val_eq, k_low_bit_val_eq.
  rewrite land_pow2_eqb, !land_pow2_eq0 by lia.
  by rewrite negb_involutive.
Qed.

Lemma shifted_in_full hi lo :
  shifted_in prob_bits lo hi -> renorm_case hi lo = Leave.
Proof.
  intros [Hlo Hhi]. rewrite renorm_case_bits. pose proof prob_bits_pos.
  assert (Hl1 : Z.testbit lo (prob_bits - 1) = false).
  { rewrite (testbit_mod_pow2 _ prob_bits), Hlo by lia. apply Z.bits_0. }
  assert (Hl2 : Z.testbit lo (prob_bits - 2) = false).
  { rewrite (testbit_mod_pow2 _ prob_bits), Hlo by lia. apply Z.bits_0. }
  assert (Hh1 : Z.testbit hi (prob_bits - 1) = true).
  { rewrite (testbit_mod_pow2 _ prob_bits), Hhi by lia.
    rewrite <-ones_eq. apply Z.ones_spec_low. lia. }
  by rewrite Hl1, Hl2, Hh1.
Qed.

Lemma shifted_in_next k hi lo :
  0 <= k < prob_bits -> shifted_in k lo hi -> renorm_case hi lo <> Leave ->
  shifted_in (k + 1) (next_low hi lo) (next_high hi lo).
Proof.
  intros Hk [Hlo Hhi] Hcase. unfold next_low, next_high.
  pose proof prob_bits_pos.
  rewrite renorm_case_bits in *.
  destruct (Bool.eqb _ _).
  - rewrite shift_low_eq, shift_high_eq. split.
    + rewrite mod_mod_pow2, mod_double by lia. lia.
    + rewrite mod_mod_pow2, mod_double_1 by lia.
      rewrite Hhi, Z.pow_add_r by lia. lia.
  - destruct (Z.testbit lo (prob_bits - 2)) eqn:Hb2; simpl in *; [|done].
    destruct (Z.testbit hi (prob_bits - 2)) eqn:Hh2; simpl in *; [done|].
    assert (k <= prob_bits - 2).
    { destruct (Z.le_gt_cases k (prob_bits - 2)); [done|].
      rewrite (testbit_mod_pow2 _ k), Hlo, Z.bits_0 in Hb2 by lia. done. }
    rewrite shift_low_eq, shift_high_eq, k_low_bit_mask_eq, k_low_bit_val_eq.
    rewrite <-ones_eq, Z.land_ones by lia.
    rewrite lor_pow2_clear by (done || lia). split.
    + rewrite mod_mod_pow2, mod_double by lia.
      rewrite mod_mod_pow2 by lia. lia.
    + rewrite mod_mod_pow2, mod_double_1 by lia.
      rewrite add_pow2_mod by lia.
      rewrite Hhi, Z.pow_add_r by lia. lia.
Qed.

Lemma shifted_in_0 hi lo : shifted_in 0 lo hi.
Proof. split; simpl; apply Z.mod_1_r. Qed.

(** *** The encoder's loop *)

Lemma range_code_loop_exits (n : nat) (k : Z) simulate cost c :
  k + Z.of_nat n = prob_bits -> 0 <= k ->
  shifted_in k (AC.m_low c) (AC.m_high c) ->
  (simulate = true \/ is_Some (AC.m_stream c)) ->
  exists m r, (m <= n)%nat /\
    exits_after (fun fuel => AC.range_code_loop fuel simulate cost c) m r.
Proof.
  revert k cost c. induction n as [|n IH]; intros k cost c Hkn Hk Hsh Hst.
  - exists O, (cost, c). split; [done|]. intros [|fuel]; simpl; [done|].
    replace k with prob_bits in Hsh by lia.
    by rewrite (shifted_in_full _ _ Hsh).
  - destruct (renorm_case (AC.m_high c) (AC.m_low c)) eqn:Hcase.
    + pose proof (shifted_in_next k _ _ ltac:(lia) Hsh) as Hnext.
      unfold next_low, next_high in Hnext. rewrite Hcase in Hnext.
      specialize (Hnext ltac:(done)).
      set (c1 := if simulate then c
                 else match AC.m_stream c with
                      | Some w =>
                          AC.set_stream
                            (write_underflow (Z.lxor (Z.shiftr (AC.m_high c) k_hi_bit) 1)
                               (AC.m_underflow_count c)
                               (bs_write (Z.shiftr (AC.m_high c) k_hi_bit) 1 w)) c
                      | None => c
                      end).
      assert (Hc1 : AC.m_high c1 = AC.m_high c /\ AC.m_low c1 = AC.m_low c /\
                    (simulate = true \/ is_Some (AC.m_stream c1))).
      { unfold c1. destruct simulate; [by auto|].
        destruct Hst as [|[w Hw]]; [done|]. rewrite Hw. simpl. eauto. }
      destruct Hc1 as (Hh1 & Hl1 & Hst1).
      destruct (IH (k + 1) (to_range (cost + to_range (AC.m_underflow_count c + 1)))
                  (AC.set_range (shift_high (AC.m_high c1)) (shift_low (AC.m_low c1)) 0 c1))
        as (m & r & Hm & Hex); [lia|lia|simpl; by rewrite Hh1, Hl1|by simpl|].
      exists (S m), r. split; [lia|].
      intros [|fuel]; [done|]. cbn [AC.range_code_loop]. rewrite Hcase.
      replace (if simulate then Some c else _) with (Some c1).
      2:{ unfold c1. destruct simulate; [done|].
          destruct Hst as [|[w Hw]]; [done|]. by rewrite Hw. }
      rewrite bind_Some_l. rewrite (Hex fuel).
      destruct (decide (fuel <= m)%nat), (decide (S fuel <= S m)%nat); done || lia.
    + pose proof (shifted_in_next k _ _ ltac:(lia) Hsh) as Hnext.
      unfold next_low, next_high in Hnext. rewrite Hcase in Hnext.
      specialize (Hnext ltac:(done)).
      destruct (IH (k + 1) cost
                  (AC.set_range (shift_high (Z.lor (AC.m_high c) k_low_bit_val))
                     (shift_low (Z.land (AC.m_low c) k_low_bit_mask))
                     (to_range (AC.m_underflow_count c + 1)) c))
        as (m & r & Hm & Hex); [lia|lia|done|by simpl|].
      exists (S m), r. split; [lia|].
      intros [|fuel]; [done|]. cbn [AC.range_code_loop]. rewrite Hcase.
      rewrite (Hex fuel).
      destruct (decide (fuel <= m)%nat), (decide (S fuel <= S m)%nat); done || lia.
    + exists O, (cost, c). split; [lia|]. intros [|fuel]; simpl; [done|].
      by rewrite Hcase.
Qed.

(** *** The decoder's loop *)

Lemma remove_range_loop_exits (n : nat) (k : Z) d :
  k + Z.of_nat n = prob_bits -> 0 <= k ->
  shifted_in k (ADC.m_low d) (ADC.m_high d) ->
  is_Some (ADC.m_stream d) ->
  exists m r, (m <= n)%nat /\
    exits_after (fun fuel => ADC.remove_range_loop fuel d) m r.
Proof.
  revert k d. induction n as [|n IH]; intros k d Hkn Hk Hsh [rd Hrd].
  - exists O, d. split; [done|]. intros [|fuel]; simpl; [done|].
    replace k with prob_bits in Hsh by lia.
    by rewrite (shifted_in_full _ _ Hsh).
  - destruct (renorm_case (ADC.m_high d) (ADC.m_low d)) eqn:Hcase.
    + pose proof (shifted_in_next k _ _ ltac:(lia) Hsh) as Hnext.
      unfold next_low, next_high in Hnext. rewrite Hcase in Hnext.
      specialize (Hnext ltac:(done)).
      destruct (IH (k + 1)
                  (ADC.set_stream (bs_read1 rd).2
                     (ADC.set_range (shift_high (ADC.m_high d)) (shift_low (ADC.m_low d))
                        (Z.land (Z.lor (to_range (Z.shiftl (ADC.m_code d) 1)) (bs_read1 rd).1)
                                k_probability_range_mask) d)))
        as (m & r & Hm & Hex); [lia|lia|exact Hnext|simpl; eauto|].
      exists (S m), r. split; [lia|].
      intros [|fuel]; [done|]. cbn [ADC.remove_range_loop]. rewrite Hcase, Hrd.
      rewrite bind_Some_l. cbn [bs_read1 fst snd] in *.
      etrans; [apply (Hex fuel)|].
      destruct (decide (fuel <= m)%nat), (decide (S fuel <= S m)%nat); done || lia.
    + pose proof (shifted_in_next k _ _ ltac:(lia) Hsh) as Hnext.
      unfold next_low, next_high in Hnext. rewrite Hcase in Hnext.
      specialize (Hnext ltac:(done)).
      destruct (IH (k + 1)
                  (ADC.set_stream (bs_read1 rd).2
                     (ADC.set_range (shift_high (Z.lor (ADC.m_high d) k_low_bit_val)) (shift_low (Z.land (ADC.m_low d) k_low_bit_mask))
                        (Z.land (Z.lor (to_range (Z.shiftl (Z.lxor (ADC.m_code d) k_low_bit_val) 1)) (bs_read1 rd).1)
                                k_probability_range_mask) d)))
        as (m & r & Hm & Hex); [lia|lia|exact Hnext|simpl; eauto|].
      exists (S m), r. split; [lia|].
      intros [|fuel]; [done|]. cbn [ADC.remove_range_loop]. rewrite Hcase, Hrd.
      rewrite bind_Some_l. cbn [bs_read1 fst snd] in *.
      etrans; [apply (Hex fuel)|].
      destruct (decide (fuel <= m)%nat), (decide (S fuel <= S m)%nat); done || lia.
    + exists O, d. split; [lia|]. intros [|fuel]; simpl; [done|].
      by rewrite Hcase.
Qed.

Lemma exits_after_fuel {A} (run : nat -> option A) m r fuel :
  exits_after run m r -> (m < fuel)%nat -> run fuel = Some r.
Proof. intros H Hlt. rewrite (H fuel). by rewrite decide_False by lia. Qed.

Lemma narrow_range_stream s c c1 :
  AC.narrow_range s c = Some c1 -> AC.m_stream c1 = AC.m_stream c.
Proof. unfold AC.narrow_range. intros H. inv_binds. done. Qed.

Lemma adc_narrow_range_stream s d d1 :
  ADC.narrow_range s d = Some d1 -> ADC.m_stream d1 = ADC.m_stream d.
Proof. unfold ADC.narrow_range. intros H. inv_binds. done. Qed.

(** [range_code] leaves its loop within [prob_bits] passes, whatever the
    bounds [narrow_range] produced. *)
Lemma range_code_exits s simulate c c1 :
  AC.narrow_range s c = Some c1 ->
  simulate = true \/ is_Some (AC.m_stream c) ->
  exists n r,
    Z.of_nat n <= prob_bits /\
    exits_after (fun fuel => AC.range_code_loop fuel simulate 0 c1) n r /\
    AC.range_code s simulate c = Some r.
Proof.
  pose proof prob_bits_pos. intros Hn Hst.
  destruct (range_code_loop_exits (Z.to_nat prob_bits) 0 simulate 0 c1)
    as (m & r & Hm & Hex); [lia|lia|apply shifted_in_0| |].
  { by rewrite (narrow_range_stream _ _ _ Hn). }
  exists m, r. split_and!; [lia|done|].
  unfold AC.range_code. rewrite Hn, bind_Some_l.
  apply (exits_after_fuel _ _ _ _ Hex). unfold AC.loop_fuel. lia.
Qed.

(** The same for [remove_range]. *)
Lemma remove_range_exits s d d1 :
  ADC.narrow_range s d = Some d1 ->
  is_Some (ADC.m_stream d) ->
  exists n r,
    Z.of_nat n <= prob_bits /\
    exits_after (fun fuel => ADC.remove_range_loop fuel d1) n r /\
    ADC.remove_range s d = Some r.
Proof.
  pose proof prob_bits_pos. intros Hn Hst.
  destruct (remove_range_loop_exits (Z.to_nat prob_bits) 0 d1)
    as (m & r & Hm & Hex); [lia|lia|apply shifted_in_0| |].
  { by rewrite (adc_narrow_range_stream _ _ _ Hn). }
  exists m, r. split_and!; [lia|done|].
  unfold ADC.remove_range. rewrite Hn, bind_Some_l.
  apply (exits_after_fuel _ _ _ _ Hex). unfold ADC.loop_fuel. lia.
Qed.

(** C8, renormalisation progress.  From every encoder state and every
    decoder state in which [narrow_range] is defined, and for every symbol,
    the loop of [range_code] and the loop of [remove_range] leave after at
    most [prob_bits] iterations, an iteration being a pass that shifts the
    bounds (equal top bits, or underflow): the loop makes [n] such passes,
    [n <= prob_bits], and leaves at the test that follows; with [n] passes
    or fewer at its disposal it is still running, with more it returns.
    [range_code] and [remove_range] then return that result.  The bounds
    need not satisfy the range invariant. *)
Theorem renormalisation_progress :
  (forall s simulate c c1,
     AC.narrow_range s c = Some c1 ->
     simulate = true \/ is_Some (AC.m_stream c) ->
     exists n r,
       Z.of_nat n <= prob_bits /\
       exits_after (fun fuel => AC.range_code_loop fuel simulate 0 c1) n r /\
       AC.range_code s simulate c = Some r) /\
  (forall s d d1,
     ADC.narrow_range s d = Some d1 ->
     is_Some (ADC.m_stream d) ->
     exists n r,
       Z.of_nat n <= prob_bits /\
       exits_after (fun fuel => ADC.remove_range_loop fuel d1) n r /\
       ADC.remove_range s d = Some r).
Proof.
  split.
  - intros s simulate c c1. apply range_code_exits.
  - intros s d d1. apply remove_range_exits.
Qed.

End Renorm.

(** ** Cumulative tables *)

Section Increasing.

Lemma increasing_nil : increasing [].
Proof. intros i a b H. done. Qed.

Lemma increasing_singleton a : increasing [a].
Proof. intros [|i] x y H1 H2; done. Qed.

Lemma increasing_cons a b l :
  increasing (a :: b :: l) <-> a < b /\ increasing (b :: l).
Proof.
  split.
  - intros H. split; [by apply (H O)|].
    intros i x y Hx Hy. by apply (H (S i)).
  - intros [Hab H] [|i] x y Hx Hy; simpl in *.
    + congruence.
    + by apply (H i).
Qed.

Lemma increasing_tail a l : increasing (a :: l) -> increasing l.
Proof. intros H i x y Hx Hy. by apply (H (S i)). Qed.

(** In an increasing table the counters grow at least as fast as the
    indices. *)
Lemma increasing_gap l i j a b :
  increasing l -> (i <= j)%nat -> l !! i = Some a -> l !! j = Some b ->
  a + Z.of_nat (j - i) <= b.
Proof.
  intros Hinc Hij Ha. revert b. induction j as [|j IH]; intros b Hb.
  - assert (i = O) as -> by lia. simpl. rewrite Ha in Hb. injection Hb as ->. lia.
  - destruct (decide (i = S j)) as [->|Hne].
    + rewrite Ha in Hb. injection Hb as ->. lia.
    + assert (is_Some (l !! j)) as [c Hc].
      { apply lookup_lt_is_Some. apply lookup_lt_Some in Hb. lia. }
      specialize (IH ltac:(lia) c Hc).
      pose proof (Hinc j c b Hc Hb). lia.
Qed.

Lemma increasing_lt l i j a b :
  increasing l -> (i < j)%nat -> l !! i = Some a -> l !! j = Some b -> a < b.
Proof.
  intros Hinc Hij Ha Hb.
  pose proof (increasing_gap l i j a b Hinc ltac:(lia) Ha Hb). lia.
Qed.

Lemma increasing_le l i j a b :
  increasing l -> (i <= j)%nat -> l !! i = Some a -> l !! j = Some b -> a <= b.
Proof.
  intros Hinc Hij Ha Hb.
  pose proof (increasing_gap l i j a b Hinc ltac:(lia) Ha Hb). lia.
Qed.

End Increasing.

Section Tables.
Context {T : coder_types} {Tok : coder_types_ok T}.

Lemma typed_lookup tbl i c :
  typed_table tbl -> tbl !! i = Some c -> 0 <= c < 2 ^ prob_bits.
Proof. intros Ht Hc. by apply (Forall_lookup_1 _ _ _ _ Ht Hc). Qed.

Lemma typed_tail c tbl : typed_table (c :: tbl) -> typed_table tbl.
Proof. apply Forall_inv_tail. Qed.

(** *** The uniform table of [init] *)

Lemma uniform_model_lookup n i :
  0 <= n -> n < 2 ^ prob_bits -> (i <= Z.to_nat n)%nat ->
  uniform_model n !! i = Some (Z.of_nat i).
Proof.
  intros Hn Hlt Hi. unfold uniform_model.
  rewrite list_lookup_fmap, lookup_seqZ_lt by lia. simpl.
  f_equal. apply to_prob_small. lia.
Qed.

Lemma length_uniform_model n : length (uniform_model n) = Z.to_nat (n + 1).
Proof. unfold uniform_model. by rewrite length_fmap, length_seqZ. Qed.

Lemma uniform_model_cumulative n :
  0 <= n -> n < 2 ^ prob_bits -> cumulative n (uniform_model n).
Proof.
  intros Hn Hlt. split_and!; [done|apply length_uniform_model| | |].
  - apply Forall_lookup_2. intros i c Hc.
    assert (i <= Z.to_nat n)%nat.
    { apply lookup_lt_Some in Hc. rewrite length_uniform_model in Hc. lia. }
    rewrite uniform_model_lookup in Hc by done. injection Hc as <-. lia.
  - by rewrite uniform_model_lookup by lia.
  - intros i a b Ha Hb.
    assert (S i <= Z.to_nat n)%nat.
    { apply lookup_lt_Some in Hb. rewrite length_uniform_model in Hb. lia. }
    rewrite uniform_model_lookup in Ha, Hb by lia.
    injection Ha as <-. injection Hb as <-. lia.
Qed.

(** *** The adaptive increment *)

Lemma bump_model_lookup p0 n tbl :
  0 <= p0 -> length tbl = Z.to_nat (n + 1) -> 0 <= n ->
  exists tbl', bump_model p0 (n + 1) tbl = Some tbl' /\
    length tbl' = length tbl /\
    forall i, tbl' !! i =
      if decide (Z.to_nat p0 <= i)%nat then (fun c => to_prob (c + 1)) <$> tbl !! i
      else tbl !! i.
Proof.
  intros Hp0 Hlen Hn. unfold bump_model.
  destruct (Z.ltb_spec p0 (n + 1)).
  - rewrite decide_True by lia. eexists. split; [done|]. split.
    + rewrite !length_app, length_fmap, !length_take, !length_drop. lia.
    + intros i. rewrite (drop_ge tbl (Z.to_nat (n + 1))), app_nil_r by lia.
      rewrite (take_ge (drop _ _)) by (rewrite length_drop; lia).
      destruct (decide _).
      * rewrite lookup_app_r by (rewrite length_take; lia).
        rewrite length_take, list_lookup_fmap, lookup_drop.
        do 2 f_equal. lia.
      * rewrite lookup_app_l by (rewrite length_take; lia).
        apply lookup_take_lt. lia.
  - exists tbl. split; [done|]. split; [done|]. intros i.
    destruct (decide _); [|done].
    rewrite lookup_ge_None_2 by lia. done.
Qed.

(** *** The rescale *)

Lemma scale_walk_spec rest prev cprev i0 :
  0 <= i0 -> 0 <= prev <= cprev -> 2 * prev <= cprev + i0 ->
  increasing (cprev :: rest) -> typed_table (cprev :: rest) ->
  increasing (prev :: scale_walk prev rest) /\
  forall k a b, rest !! k = Some a -> scale_walk prev rest !! k = Some b ->
    prev < b <= a /\ 2 * b <= a + i0 + Z.of_nat k + 1 /\ a / 2 <= b.
Proof.
  revert prev cprev i0. induction rest as [|c rest IH]; intros prev cprev i0 Hi0 Hp H2 Hinc Hty.
  - split; [apply increasing_singleton|done].
  - cbn [scale_walk].
    apply increasing_cons in Hinc as [Hlt Hinc].
    assert (Hc : 0 <= c < 2 ^ prob_bits).
    { apply (typed_lookup _ 1%nat _ Hty). done. }
    rewrite Z.shiftr_div_pow2 by lia. change (2 ^ 1) with 2.
    set (curr := if c / 2 <=? prev then to_prob (prev + 1) else c / 2).
    assert (Hcurr : prev < curr <= c /\ 2 * curr <= c + i0 + 1 /\ c / 2 <= curr).
    { unfold curr. destruct (Z.leb_spec (c / 2) prev).
      - rewrite to_prob_small by lia. lia.
      - pose proof (Z.mul_div_le c 2 ltac:(lia)). lia. }
    destruct (IH curr c (i0 + 1)) as [Hinc' Hk]; [lia|lia|lia|done| |].
    { by apply typed_tail in Hty. }
    split.
    + apply increasing_cons. split; [lia|done].
    + intros [|k] a b Ha Hb; simpl in *.
      * injection Ha as <-. injection Hb as <-. lia.
      * specialize (Hk k a b Ha Hb). lia.
Qed.

Lemma rescale_fold rest pre prev cprev :
  0 <= prev <= cprev -> increasing (cprev :: rest) -> typed_table (cprev :: rest) ->
  (foldl rescale_step (prev, pre ++ rest) (seq (length pre) (length rest))).2
  = pre ++ scale_walk prev rest.
Proof.
  revert pre prev cprev. induction rest as [|c rest IH]; intros pre prev cprev Hp Hinc Hty.
  - done.
  - cbn [length seq foldl scale_walk rescale_step].
    apply increasing_cons in Hinc as [Hlt Hinc].
    assert (Hc : 0 <= c < 2 ^ prob_bits).
    { apply (typed_lookup _ 1%nat _ Hty). done. }
    rewrite (list_lookup_total_middle pre rest c (length pre)) by done.
    rewrite insert_app_r_alt, Nat.sub_diag by lia. cbn [insert list_insert].
    rewrite Z.shiftr_div_pow2 by lia. change (2 ^ 1) with 2.
    assert (Heq : (if c / 2 <=? prev then prev + 1 else c / 2)
                  = (if c / 2 <=? prev then to_prob (prev + 1) else c / 2)).
    { destruct (Z.leb_spec (c / 2) prev); [|done]. rewrite to_prob_small; lia. }
    rewrite Heq.
    set (curr := if c / 2 <=? prev then to_prob (prev + 1) else c / 2).
    assert (Hcurr : 0 <= curr <= c).
    { unfold curr. destruct (Z.leb_spec (c / 2) prev).
      - rewrite to_prob_small by lia. lia.
      - pose proof (Z.mul_div_le c 2 ltac:(lia)). lia. }
    replace (pre ++ curr :: rest) with ((pre ++ [curr]) ++ rest)
      by (by rewrite <-app_assoc).
    replace (S (length pre)) with (length (pre ++ [curr])) by (rewrite length_app; simpl; lia).
    rewrite (IH (pre ++ [curr]) curr c); [|done|done|].
    + by rewrite <-app_assoc.
    + by apply typed_tail in Hty.
Qed.

Lemma cumulative_head n tbl :
  cumulative n tbl -> exists rest, tbl = 0 :: rest /\ length rest = Z.to_nat n.
Proof.
  intros (Hn & Hlen & _ & H0 & _). destruct tbl as [|c rest]; [done|].
  injection H0 as ->. exists rest. split; [done|]. simpl in Hlen. lia.
Qed.

Lemma scale_model_cumulative n tbl :
  cumulative n tbl ->
  exists tbl', scale_model n tbl = Some tbl' /\ tbl' = rescale_pass n tbl /\
    cumulative n tbl' /\
    forall i a b, tbl !! i = Some a -> tbl' !! i = Some b ->
      b <= a /\ 2 * b <= a + Z.of_nat i /\ a / 2 <= b.
Proof.
  intros Hc. destruct (cumulative_head _ _ Hc) as (rest & -> & Hlen).
  destruct Hc as (Hn & Hl & Hty & _ & Hinc).
  destruct (scale_walk_spec rest 0 0 0) as [Hinc' Hk]; [lia|lia|lia|done|done|].
  exists (0 :: scale_walk 0 rest). split_and!.
  - unfold scale_model. rewrite decide_True by lia.
    by rewrite take_ge, drop_ge, app_nil_r by lia.
  - unfold rescale_pass. cbn [lookup_total list_lookup_total].
    rewrite <-Hlen. change (0 :: rest) with ([0] ++ rest).
    change 1%nat with (length [0]).
    by rewrite (rescale_fold rest [0] 0 0) by (done || lia).
  - split_and!; [done| | |done|done].
    + simpl. rewrite length_scale_walk. simpl in Hl. done.
    + apply Forall_lookup_2. intros [|i] c Hi; simpl in Hi.
      * injection Hi as <-. pose proof pow_prob_pos. lia.
      * assert (is_Some (rest !! i)) as [a Ha].
        { apply lookup_lt_is_Some. apply lookup_lt_Some in Hi.
          by rewrite length_scale_walk in Hi. }
        pose proof (Hk i a c Ha Hi).
        pose proof (typed_lookup _ (S i) a Hty Ha). lia.
  - intros [|i] a b Ha Hb; simpl in *.
    + injection Ha as <-. injection Hb as <-. split_and!; [lia|lia|done].
    + destruct (Hk i a b Ha Hb) as (? & ? & ?). split_and!; [lia|lia|done].
Qed.

(** *** The update that ends a symbol operation *)

Lemma k_max_range_bounds : 63 <= k_max_range /\ 4 * (k_max_range + 1) = 2 ^ prob_bits.
Proof.
  rewrite k_max_range_eq. pose proof pow_low_pos. pose proof pow_prob_split. lia.
Qed.

Lemma update_model_ok n s tbl :
  model_ok n tbl -> 0 <= s < n ->
  exists tbl', update_model s n tbl = Some tbl' /\ model_ok n tbl'.
Proof.
  intros (Hc & Hn & total & Htot & Hlt) Hs.
  pose proof k_max_range_bounds as [Hk1 Hk2]. pose proof prob_lt_range.
  destruct Hc as (Hn0 & Hlen & Hty & H0 & Hinc).
  unfold update_model. rewrite !to_range_small by lia.
  destruct (bump_model_lookup (s + 1) n tbl) as (tbl1 & -> & Hlen1 & Hlk); [lia|done|lia|].
  rewrite bind_Some_l.
  assert (Hval : forall i c, tbl !! i = Some c -> 0 <= c <= total).
  { intros i c Hi. split; [by apply (typed_lookup _ _ _ Hty Hi)|].
    apply (increasing_le tbl i (Z.to_nat n) c total); try done.
    apply lookup_lt_Some in Hi. lia. }
  assert (Hlk' : forall i, tbl1 !! i =
            if decide (Z.to_nat (s + 1) <= i)%nat then (fun c => c + 1) <$> tbl !! i
            else tbl !! i).
  { intros i. rewrite Hlk. destruct (decide _); [|done].
    destruct (tbl !! i) as [c|] eqn:Hi; [|done]. simpl.
    pose proof (Hval i c Hi). rewrite to_prob_small; [done|lia]. }
  assert (Hc1 : cumulative n tbl1).
  { split_and!; [done|congruence| | |].
    - apply Forall_lookup_2. intros i c Hi. rewrite Hlk' in Hi.
      destruct (decide _).
      + apply fmap_Some in Hi as (c0 & Hi & ->). pose proof (Hval i c0 Hi). lia.
      + pose proof (Hval i c Hi). lia.
    - rewrite Hlk'. by rewrite decide_False by lia.
    - intros i a b Ha Hb. rewrite Hlk' in Ha, Hb.
      destruct (decide _), (decide _); try lia.
      + apply fmap_Some in Ha as (a0 & Ha & ->). apply fmap_Some in Hb as (b0 & Hb & ->).
        pose proof (Hinc i a0 b0 Ha Hb). lia.
      + apply fmap_Some in Hb as (b0 & Hb & ->).
        pose proof (Hinc i a b0 Ha Hb). lia.
      + by apply (Hinc i a b). }
  assert (Htot1 : tbl1 !! Z.to_nat n = Some (total + 1)).
  { rewrite Hlk', decide_True by lia. by rewrite Htot. }
  rewrite Htot1, bind_Some_l.
  destruct (Z.leb_spec k_max_range (total + 1)).
  - destruct (scale_model_cumulative n tbl1 Hc1) as (tbl2 & -> & _ & Hc2 & Hb).
    exists tbl2. split; [done|]. split_and!; [done|lia|lia|].
    assert (is_Some (tbl2 !! Z.to_nat n)) as [t2 Ht2].
    { apply lookup_lt_is_Some. destruct Hc2 as (_ & -> & _). lia. }
    exists t2. split; [done|].
    destruct (Hb _ _ _ Htot1 Ht2) as (_ & Hhalf & _). lia.
  - exists tbl1. split; [done|]. split_and!; [done|lia|lia|].
    exists (total + 1). split; [done|lia].
Qed.

(** C3, the part of the statement that holds: the pass of [scale_model] is
    the pass of the specification, it leaves every slice at least one, and
    it takes the total [t] to at most [(t + n) / 2], which is below
    [k_max_range] when [t <= k_max_range] and [n < k_max_range]. *)
Theorem scale_model_rescales (n : Z) (tbl : list Z) :
  cumulative n tbl ->
  exists tbl',
    scale_model n tbl = Some tbl' /\
    tbl' = rescale_pass n tbl /\
    length tbl' = length tbl /\
    tbl' !! O = Some 0 /\
    (forall i a b, tbl' !! i = Some a -> tbl' !! S i = Some b -> 1 <= b - a) /\
    (forall total total',
       tbl !! Z.to_nat n = Some total -> tbl' !! Z.to_nat n = Some total' ->
       2 * total' <= total + n /\
       (total <= k_max_range -> n < k_max_range -> total' < k_max_range)).
Proof.
  intros Hc. destruct (scale_model_cumulative n tbl Hc) as (tbl' & Hs & Hp & Hc' & Hb).
  exists tbl'. split_and!; try done.
  - destruct Hc as (_ & -> & _), Hc' as (_ & -> & _). done.
  - by destruct Hc' as (_ & _ & _ & ? & _).
  - intros i a b Ha Hb'. destruct Hc' as (_ & _ & _ & _ & Hinc).
    pose proof (Hinc i a b Ha Hb'). lia.
  - intros total total' Ht Ht'. destruct Hc as (Hn & _).
    destruct (Hb _ _ _ Ht Ht') as (_ & Hhalf & _). lia.
Qed.

End Tables.

Lemma u32_u64_ok : coder_types_ok u32_u64.
Proof. split; simpl; lia. Qed.

Lemma u8_u32_ok : coder_types_ok u8_u32.
Proof. split; simpl; lia. Qed.

(** C3 on a table of three symbols whose total is at the ceiling. *)
Lemma scale_model_rescales_witness :
  exists tbl',
    @scale_model u32_u64 3 [0; 5; 6; 1073741823] = Some tbl' /\
    tbl' = rescale_pass 3 [0; 5; 6; 1073741823] /\
    length tbl' = 4%nat /\
    tbl' !! O = Some 0 /\
    (forall i a b, tbl' !! i = Some a -> tbl' !! S i = Some b -> 1 <= b - a) /\
    (forall total total',
       [0; 5; 6; 1073741823] !! Z.to_nat 3 = Some total ->
       tbl' !! Z.to_nat 3 = Some total' ->
       2 * total' <= total + 3 /\
       (total <= @k_max_range u32_u64 -> 3 < @k_max_range u32_u64 ->
        total' < @k_max_range u32_u64)).
Proof.
  apply (@scale_model_rescales u32_u64 u32_u64_ok 3 [0; 5; 6; 1073741823]).
  split_and!; [lia|done| |done|].
  - repeat constructor; simpl; lia.
  - intros [|[|[|[|i]]]] a b Ha Hb; simpl in *; simplify_eq; lia.
Defined.

(** C3 as stated fails: a strictly increasing table with [C[0] = 0] whose
    total the pass leaves at or above [k_max_range]. *)
Lemma scale_model_total_counterexample :
  @cumulative u32_u64 1 [0; 4294967295] /\
  @scale_model u32_u64 1 [0; 4294967295] = Some [0; 2147483647] /\
  @k_max_range u32_u64 <= 2147483647.
Proof.
  split_and!.
  - split_and!; [lia|done| |done|].
    + repeat constructor; simpl; lia.
    + intros [|[|i]] a b Ha Hb; simpl in *; simplify_eq; lia.
  - reflexivity.
  - vm_compute. discriminate.
Qed.

(** ** The decoder locates the symbol *)

Section Locate.
Context {T : coder_types} {Tok : coder_types_ok T}.

Lemma scan_down_spec tbl p (k : nat) :
  (k < length tbl)%nat ->
  exists s, ADC.scan_down tbl p k = Some s /\ (s <= k)%nat /\
    (s = O \/ exists c, tbl !! s = Some c /\ c <= p) /\
    (forall j c, (s < j <= k)%nat -> tbl !! j = Some c -> p < c).
Proof.
  induction k as [|k IH]; intros Hk.
  - exists O. split_and!; [done|done|by left|]. intros j c Hj. lia.
  - cbn [ADC.scan_down].
    destruct (lookup_lt_is_Some_2 tbl (S k) Hk) as [c Hc]. rewrite Hc, bind_Some_l.
    destruct (Z.ltb_spec p c).
    + destruct (IH ltac:(lia)) as (s & Hs & Hle & Hlow & Hup).
      exists s. split_and!; [done|lia|done|].
      intros j c' Hj Hc'. destruct (decide (j = S k)) as [->|].
      * congruence.
      * apply (Hup j); [lia|done].
    + exists (S k). split_and!; [done|done|right; eauto|].
      intros j c' Hj. lia.
Qed.

(** The scan of [decode_symbol] on a cumulative table, for a value below the
    total. *)
Lemma locate_spec n tbl total p :
  cumulative n tbl -> 1 <= n -> n + 1 < 2 ^ range_bits ->
  tbl !! Z.to_nat n = Some total -> 0 <= p < total ->
  exists s a b,
    ADC.locate tbl n p = Some s /\ 0 <= s < n /\
    tbl !! Z.to_nat s = Some a /\ tbl !! Z.to_nat (s + 1) = Some b /\
    a <= p < b /\
    (forall s' a' b', 0 <= s' < n ->
       tbl !! Z.to_nat s' = Some a' -> tbl !! Z.to_nat (s' + 1) = Some b' ->
       a' <= p < b' -> s' = s).
Proof.
  intros (Hn0 & Hlen & Hty & H0 & Hinc) Hn Hnr Htot Hp.
  unfold ADC.locate. destruct (Z.eqb_spec n 0); [lia|].
  rewrite to_range_small by lia.
  destruct (scan_down_spec tbl p (Z.to_nat (n - 1)) ltac:(lia))
    as (s & -> & Hle & Hlow & Hup).
  assert (is_Some (tbl !! s)) as [a Ha] by (apply lookup_lt_is_Some; lia).
  assert (is_Some (tbl !! S s)) as [b Hb] by (apply lookup_lt_is_Some; lia).
  assert (Hap : a <= p).
  { destruct Hlow as [->|(c & Hc & Hcp)]; [|by simplify_eq].
    rewrite H0 in Ha. injection Ha as <-. lia. }
  assert (Hpb : p < b).
  { destruct (decide (s = Z.to_nat (n - 1))) as [->|].
    - replace (S (Z.to_nat (n - 1))) with (Z.to_nat n) in Hb by lia.
      simplify_eq. lia.
    - apply (Hup (S s)); [lia|done]. }
  exists (Z.of_nat s), a, b. simpl. rewrite Nat2Z.id.
  replace (Z.to_nat (Z.of_nat s + 1)) with (S s) by lia.
  split_and!; try done; try lia.
  intros s' a' b' Hs' Ha' Hb' Hp'.
  replace (Z.to_nat (s' + 1)) with (S (Z.to_nat s')) in Hb' by lia.
  destruct (Z.lt_trichotomy s' (Z.of_nat s)) as [Hlt|[?|Hgt]]; [|done|].
  - pose proof (increasing_le tbl (S (Z.to_nat s')) s b' a Hinc ltac:(lia) Hb' Ha). lia.
  - pose proof (increasing_le tbl (S s) (Z.to_nat s') b a' Hinc ltac:(lia) Hb Ha'). lia.
Qed.

(** The value [get_current_prob] computes, when the registers hold counter
    width values with [low <= code <= high]. *)
Lemma get_current_prob_spec d total :
  0 <= ADC.m_low d -> ADC.m_low d <= ADC.m_code d <= ADC.m_high d ->
  ADC.m_high d <= k_probability_range_mask ->
  1 <= total < 2 ^ prob_bits ->
  let r := ADC.m_high d - ADC.m_low d + 1 in
  let p := ((ADC.m_code d - ADC.m_low d + 1) * total - 1) / r in
  ADC.get_current_prob total d = Some (p, ADC.set_tmp_range r d) /\
  (total <= r -> 0 <= p < total).
Proof.
  intros Hlo Hcode Hhi Htot. cbv zeta.
  rewrite k_probability_range_mask_eq, ones_eq in Hhi.
  pose proof pow_prob_le_range. pose proof pow_prob_pos. pose proof prob_lt_range.
  pose proof prob_bits_pos.
  assert (2 ^ prob_bits < 2 ^ range_bits).
  { pose proof range_bits_big. apply Z.pow_lt_mono_r; lia. }
  unfold ADC.get_current_prob.
  rewrite (to_range_small (ADC.m_high d - ADC.m_low d)) by lia.
  rewrite (to_range_small (ADC.m_high d - ADC.m_low d + 1)) by lia.
  rewrite (to_range_small (ADC.m_code d - ADC.m_low d)) by lia.
  rewrite (to_range_small (ADC.m_code d - ADC.m_low d + 1)) by lia.
  remember (ADC.m_high d - ADC.m_low d + 1) as r eqn:Hr.
  remember (ADC.m_code d - ADC.m_low d + 1) as x eqn:Hx.
  destruct (Z.eqb_spec r 0); [lia|].
  assert (1 <= x <= r) by lia.
  assert (1 <= x * total < 2 ^ range_bits) by nia.
  rewrite (to_range_small (x * total)) by lia.
  rewrite (to_range_small (x * total - 1)) by lia.
  split; [done|]. intros Hle. split.
  - apply Z.div_pos; lia.
  - apply Z.div_lt_upper_bound; [lia|]. nia.
Qed.

(** [remove_range] leaves the table and the alphabet size alone. *)
Lemma remove_range_loop_frame fuel d d' :
  ADC.remove_range_loop fuel d = Some d' ->
  ADC.m_probability d' = ADC.m_probability d /\ ADC.m_max_syms d' = ADC.m_max_syms d /\
  ADC.m_tmp_range d' = ADC.m_tmp_range d.
Proof.
  revert d. induction fuel as [|fuel IH]; intros d; [done|].
  cbn [ADC.remove_range_loop].
  destruct (renorm_case _ _); intros H.
  - inv_binds. apply IH in H. simpl in H. done.
  - inv_binds. apply IH in H. simpl in H. done.
  - by injection H as <-.
Qed.

Lemma remove_range_frame s d d' :
  ADC.remove_range s d = Some d' ->
  ADC.m_probability d' = ADC.m_probability d /\ ADC.m_max_syms d' = ADC.m_max_syms d.
Proof.
  unfold ADC.remove_range, ADC.narrow_range. intros H. inv_binds.
  apply remove_range_loop_frame in H as (? & ? & ?). simpl in *. split; congruence.
Qed.

Lemma narrow_defined tbl n s hi lo total :
  length tbl = Z.to_nat (n + 1) -> 0 <= s < n -> n + 1 < 2 ^ range_bits ->
  tbl !! Z.to_nat n = Some total -> total <> 0 ->
  is_Some (narrow tbl n s hi lo).
Proof.
  intros Hlen Hs Hn Htot Hne. unfold narrow.
  rewrite (to_range_small (s + 1)) by lia.
  destruct (lookup_lt_is_Some_2 tbl (Z.to_nat s) ltac:(lia)) as [a ->].
  destruct (lookup_lt_is_Some_2 tbl (Z.to_nat (s + 1)) ltac:(lia)) as [b ->].
  rewrite Htot. rewrite !bind_Some_l.
  destruct (Z.eqb_spec total 0); [done|]. eauto.
Qed.

Lemma update_model_defined tbl n s :
  length tbl = Z.to_nat (n + 1) -> 0 <= s < n -> n + 1 < 2 ^ range_bits ->
  is_Some (update_model s n tbl).
Proof.
  intros Hlen Hs Hn. unfold update_model.
  rewrite !to_range_small by lia.
  destruct (bump_model_lookup (s + 1) n tbl) as (tbl1 & -> & Hlen1 & _); [lia|done|lia|].
  rewrite bind_Some_l.
  destruct (lookup_lt_is_Some_2 tbl1 (Z.to_nat n) ltac:(lia)) as [t ->].
  rewrite bind_Some_l. destruct (k_max_range <=? t); [|eauto].
  unfold scale_model. destruct tbl1 as [|c0 rest]; [simpl in *; lia|].
  rewrite decide_True by (simpl in *; lia). eauto.
Qed.

(** [decode_symbol] returns the symbol its scan stops at; it has no other
    way out. *)
Lemma decode_symbol_defined d tbl n total p d1 :
  ADC.m_probability d = Some tbl -> ADC.m_max_syms d = n ->
  length tbl = Z.to_nat (n + 1) -> 1 <= n -> n + 1 < 2 ^ range_bits ->
  is_Some (ADC.m_stream d) ->
  tbl !! Z.to_nat n = Some total -> total <> 0 ->
  ADC.get_current_prob total d = Some (p, d1) ->
  exists s d',
    ADC.locate tbl n p = Some s /\ 0 <= s < n /\
    ADC.decode_symbol d = Some (s, d').
Proof.
  intros Htbl Hmax Hlen Hn Hnr Hst Htot Hne Hp.
  assert (Hd1 : d1 = ADC.set_tmp_range (ADC.m_tmp_range d1) d).
  { unfold ADC.get_current_prob in Hp. destruct (_ =? 0); [done|].
    by injection Hp as _ <-. }
  destruct (scan_down_spec tbl p (Z.to_nat (n - 1)) ltac:(lia))
    as (s & Hs & Hle & _ & _).
  assert (Hloc : ADC.locate tbl n p = Some (Z.of_nat s)).
  { unfold ADC.locate. destruct (Z.eqb_spec n 0); [lia|].
    rewrite to_range_small by lia. by rewrite Hs. }
  destruct (narrow_defined tbl n (Z.of_nat s) (ADC.m_high d1) (ADC.m_low d1) total)
    as [[[r hi] lo] Hnar]; [done|lia|done|done|done|].
  assert (Hnr1 : ADC.narrow_range (Z.of_nat s) d1 =
            Some (ADC.set_range hi lo (ADC.m_code d1) (ADC.set_tmp_range r d1))).
  { unfold ADC.narrow_range. rewrite Hd1. simpl. rewrite Htbl, Hmax, bind_Some_l.
    rewrite Hd1 in Hnar. simpl in Hnar. by rewrite Hnar. }
  destruct (remove_range_exits _ _ _ Hnr1) as (m & d2 & _ & _ & Hrem).
  { rewrite Hd1. done. }
  destruct (remove_range_frame _ _ _ Hrem) as [Hp2 Hm2].
  rewrite Hd1 in Hp2, Hm2. simpl in Hp2, Hm2.
  destruct (update_model_defined tbl n (Z.of_nat s)) as [tbl3 Hup]; [done|lia|done|].
  exists (Z.of_nat s), (ADC.set_probability tbl3 d2). split_and!; [done|lia|lia|].
  unfold ADC.decode_symbol.
  rewrite Htbl, bind_Some_l, Hmax, Htot, bind_Some_l, Hp, bind_Some_l.
  cbv beta iota. rewrite Hloc, bind_Some_l, Hrem, bind_Some_l, Hp2, Htbl, bind_Some_l.
  rewrite Hm2, Hmax, Hup. done.
Qed.

(** C4, the symbol the decoder locates.  In a decoder state with
    [0 <= low <= code <= high <= k_probability_range_mask] and
    [high - low + 1 >= C[N] ], on a table of [N >= 1] symbols that starts
    at 0 and grows strictly, [get_current_prob] computes
    [p = ((code - low + 1) * C[N] - 1) / (high - low + 1)], this [p] lies in
    [[0, C[N])], and the scan of [decode_symbol] returns the one [s] with
    [C[s] <= p < C[s+1] ]. *)
Theorem decode_symbol_locates (d : ADC.scalable_adc_c) (tbl : list Z) (n total : Z) :
  ADC.m_probability d = Some tbl -> ADC.m_max_syms d = n ->
  is_Some (ADC.m_stream d) ->
  1 <= n -> cumulative n tbl ->
  tbl !! Z.to_nat n = Some total ->
  0 <= ADC.m_low d ->
  ADC.m_low d <= ADC.m_code d <= ADC.m_high d ->
  ADC.m_high d <= k_probability_range_mask ->
  total <= ADC.m_high d - ADC.m_low d + 1 ->
  exists p s a b d1 d',
    ADC.get_current_prob total d = Some (p, d1) /\
    p = ((ADC.m_code d - ADC.m_low d + 1) * total - 1)
        / (ADC.m_high d - ADC.m_low d + 1) /\
    0 <= p < total /\
    ADC.locate tbl n p = Some s /\
    ADC.decode_symbol d = Some (s, d') /\
    0 <= s < n /\
    tbl !! Z.to_nat s = Some a /\ tbl !! Z.to_nat (s + 1) = Some b /\
    a <= p < b /\
    (forall s' a' b', 0 <= s' < n ->
       tbl !! Z.to_nat s' = Some a' -> tbl !! Z.to_nat (s' + 1) = Some b' ->
       a' <= p < b' -> s' = s).
Proof.
  intros Htbl Hmax Hst Hn Hc Htot Hlo Hcode Hhi Hr.
  assert (Htotal : n <= total < 2 ^ prob_bits).
  { destruct Hc as (_ & Hlen & Hty & H0 & Hinc).
    pose proof (typed_lookup _ _ _ Hty Htot).
    pose proof (increasing_gap tbl O (Z.to_nat n) 0 total Hinc ltac:(lia) H0 Htot). lia. }
  assert (Hnr : n + 1 < 2 ^ range_bits).
  { pose proof pow_prob_le_range. pose proof pow_prob_pos. nia. }
  destruct (get_current_prob_spec d total Hlo Hcode Hhi ltac:(lia)) as [Hp Hpb].
  specialize (Hpb Hr).
  destruct (locate_spec n tbl total _ Hc Hn Hnr Htot Hpb)
    as (s & a & b & Hloc & Hs & Ha & Hb & Hab & Huniq).
  assert (Hlen : length tbl = Z.to_nat (n + 1)) by (by destruct Hc as (_ & ? & _)).
  destruct (decode_symbol_defined d tbl n total _ _ Htbl Hmax Hlen Hn Hnr Hst Htot
              ltac:(lia) Hp) as (s2 & d' & Hloc2 & _ & Hdec).
  rewrite Hloc in Hloc2. injection Hloc2 as <-.
  eexists _, s, a, b, _, d'. split_and!; try done; lia.
Qed.

End Locate.

(** ** The bit writer *)

Lemma bits_msb_ones n : (n <= 64)%nat -> bits_msb n (2 ^ 64 - 1) = replicate n true.
Proof.
  induction n as [|n IH]; intros Hn; [done|].
  cbn [bits_msb replicate]. rewrite IH by lia. f_equal.
  change (2 ^ 64 - 1) with (Z.ones 64). apply Z.ones_spec_low. lia.
Qed.

Lemma bits_msb_zero n : bits_msb n 0 = replicate n false.
Proof.
  induction n as [|n IH]; [done|].
  cbn [bits_msb replicate]. by rewrite IH, Z.bits_0.
Qed.

Lemma bs_write_mask (bstate n : Z) w :
  0 <= n <= 64 ->
  bs_write (if bstate =? 0 then 0 else 2 ^ 64 - 1) n w
  = w ++ replicate (Z.to_nat n) (negb (bstate =? 0)).
Proof.
  intros Hn. unfold bs_write. destruct (bstate =? 0); simpl negb.
  - by rewrite bits_msb_zero.
  - by rewrite bits_msb_ones by lia.
Qed.

Lemma bs_write_1 v w : bs_write v 1 w = w ++ [Z.testbit v 0].
Proof. done. Qed.

Section Writer.
Context {T : coder_types} {Tok : coder_types_ok T}.

Lemma write_bursts_spec (n : nat) bstate u w :
  0 <= u < 2 ^ range_bits -> Z.of_nat n = u / 64 ->
  write_bursts n (if bstate =? 0 then 0 else 2 ^ 64 - 1) u w
  = (u mod 64, w ++ replicate (64 * n) (negb (bstate =? 0))).
Proof.
  revert u w. induction n as [|n IH]; intros u w Hu Hn.
  - cbn [write_bursts]. rewrite Z.mod_small, app_nil_r; [done|].
    pose proof (Z.div_mod u 64 ltac:(lia)). pose proof (Z.mod_pos_bound u 64 ltac:(lia)). lia.
  - cbn [write_bursts].
    pose proof (Z.div_mod u 64 ltac:(lia)). pose proof (Z.mod_pos_bound u 64 ltac:(lia)).
    destruct (Z.leb_spec 64 u); [|lia].
    rewrite to_range_small by lia.
    rewrite IH.
    + rewrite bs_write_mask by lia. rewrite <-app_assoc, <-replicate_add.
      f_equal; [|do 2 f_equal; lia].
      replace u with ((u - 64) + 1 * 64) at 2 by lia. by rewrite Z.mod_add by lia.
    + lia.
    + replace u with ((u - 64) + 1 * 64) in Hn by lia.
      rewrite Z.div_add in Hn by lia. lia.
Qed.

Lemma write_underflow_spec bstate u w :
  0 <= u < 2 ^ range_bits ->
  write_underflow bstate u w = w ++ replicate (Z.to_nat u) (negb (bstate =? 0)).
Proof.
  intros Hu. unfold write_underflow.
  pose proof (Z.div_mod u 64 ltac:(lia)). pose proof (Z.mod_pos_bound u 64 ltac:(lia)).
  assert (0 <= u / 64) by (apply Z.div_pos; lia).
  rewrite (write_bursts_spec (Z.to_nat (u / 64)) bstate u w) by lia.
  destruct (Z.eqb_spec (u mod 64) 0) as [E|E].
  - do 2 f_equal. lia.
  - rewrite bs_write_mask by lia. rewrite <-app_assoc, <-replicate_add.
    do 2 f_equal. lia.
Qed.

End Writer.

(** ** Estimating a cost against encoding *)
Section Estimate.
Context {T : coder_types} {Tok : coder_types_ok T}.

Lemma to_range_add_l a b : to_range (to_range a + b) = to_range (a + b).
Proof. unfold to_range. apply Zplus_mod_idemp_l. Qed.

Lemma to_range_add_r a b : to_range (a + to_range b) = to_range (a + b).
Proof. unfold to_range. apply Zplus_mod_idemp_r. Qed.

Lemma emitted_bound fuel hi lo u :
  0 <= u -> 0 <= emitted fuel hi lo u <= u + Z.of_nat fuel.
Proof.
  revert hi lo u. induction fuel as [|fuel IH]; intros hi lo u Hu; [simpl; lia|].
  cbn [emitted]. destruct (renorm_case hi lo).
  - pose proof (IH (shift_high hi) (shift_low lo) 0 ltac:(lia)). lia.
  - assert (Hb : 0 <= to_range (u + 1)) by apply to_range_bound.
    assert (to_range (u + 1) <= u + 1).
    { unfold to_range. apply Z.mod_le; [lia|apply pow_range_pos]. }
    pose proof (IH (shift_high (Z.lor hi k_low_bit_val))
                  (shift_low (Z.land lo k_low_bit_mask)) (to_range (u + 1)) Hb).
    lia.
  - lia.
Qed.

(** The loop of [range_code], run for real on a state whose writer holds
    [w], against the simulated run. *)
Lemma range_code_loop_real fuel cost c w :
  0 <= cost < 2 ^ range_bits ->
  0 <= AC.m_underflow_count c < 2 ^ range_bits ->
  match AC.range_code_loop fuel true cost c with
  | None => AC.range_code_loop fuel false cost (AC.set_stream w c) = None
  | Some (k, c') =>
      exists bits,
        AC.range_code_loop fuel false cost (AC.set_stream w c)
          = Some (k, AC.set_stream (w ++ bits) c') /\
        Z.of_nat (length bits)
          = emitted fuel (AC.m_high c) (AC.m_low c) (AC.m_underflow_count c) /\
        k = to_range (cost + Z.of_nat (length bits))
  end.
Proof.
  revert cost c w. induction fuel as [|fuel IH]; intros cost c w Hcost Hu; [done|].
  cbn [AC.range_code_loop emitted]. cbn [AC.set_stream AC.m_high AC.m_low AC.m_stream
    AC.m_underflow_count].
  destruct (renorm_case (AC.m_high c) (AC.m_low c)) eqn:Hcase.
  - rewrite !bind_Some_l. cbn [AC.set_stream AC.m_high AC.m_low AC.m_stream].
    rewrite write_underflow_spec by done. rewrite bs_write_1.
    set (w2 := (w ++ [_]) ++ replicate _ _).
    set (c2 := AC.set_range (shift_high (AC.m_high c)) (shift_low (AC.m_low c)) 0 c).
    specialize (IH (to_range (cost + to_range (AC.m_underflow_count c + 1))) c2 w2).
    assert (Hu2 : 0 <= AC.m_underflow_count c2 < 2 ^ range_bits).
    { simpl. pose proof pow_range_pos. lia. }
    specialize (IH (to_range_bound _) Hu2).
    replace (AC.set_range _ _ 0 (AC.set_stream _ (AC.set_stream w c)))
      with (AC.set_stream w2 c2) by done.
    destruct (AC.range_code_loop fuel true _ c2) as [[k c']|]; [|done].
    destruct IH as (bits & Hreal & Hlen & Hk).
    exists ([Z.testbit (Z.shiftr (AC.m_high c) k_hi_bit) 0]
            ++ replicate (Z.to_nat (AC.m_underflow_count c))
                 (negb (Z.lxor (Z.shiftr (AC.m_high c) k_hi_bit) 1 =? 0))
            ++ bits).
    split_and!.
    + rewrite Hreal. unfold w2. by rewrite <-!app_assoc.
    + rewrite !length_app, length_replicate. simpl length.
      simpl in Hlen. lia.
    + rewrite Hk. rewrite !length_app, length_replicate. simpl length.
      rewrite to_range_add_l.
      replace (cost + to_range (AC.m_underflow_count c + 1) + Z.of_nat (length bits))
        with (cost + Z.of_nat (length bits) + to_range (AC.m_underflow_count c + 1)) by lia.
      rewrite to_range_add_r. f_equal. lia.
  - set (c2 := AC.set_range (shift_high (Z.lor (AC.m_high c) k_low_bit_val))
                 (shift_low (Z.land (AC.m_low c) k_low_bit_mask))
                 (to_range (AC.m_underflow_count c + 1)) c).
    specialize (IH cost c2 w Hcost (to_range_bound _)).
    replace (AC.set_range _ _ _ (AC.set_stream w c)) with (AC.set_stream w c2) by done.
    destruct (AC.range_code_loop fuel true _ c2) as [[k c']|]; [|done].
    destruct IH as (bits & Hreal & Hlen & Hk).
    exists bits. split_and!; done.
  - exists []. rewrite app_nil_r. split_and!; [done|done|].
    simpl. rewrite Z.add_0_r. by rewrite to_range_small.
Qed.

Lemma range_code_loop_cost fuel cost c k c' :
  0 <= cost < 2 ^ range_bits ->
  AC.range_code_loop fuel true cost c = Some (k, c') -> 0 <= k < 2 ^ range_bits.
Proof.
  revert cost c. induction fuel as [|fuel IH]; intros cost c Hc; [done|].
  cbn [AC.range_code_loop]. destruct (renorm_case _ _).
  - rewrite bind_Some_l. apply IH, to_range_bound.
  - by apply IH.
  - intros [= <- <-]. done.
Qed.

Lemma set_stream_same c w : AC.m_stream c = Some w -> AC.set_stream w c = c.
Proof. intros H. destruct c. simpl in *. by subst. Qed.

Lemma update_set_stream s w c :
  AC.update s (AC.set_stream w c) = AC.set_stream w <$> AC.update s c.
Proof.
  unfold AC.update. simpl. destruct (AC.m_probability c) as [tbl|]; [|done].
  rewrite !bind_Some_l. destruct (update_model _ _ _); done.
Qed.

Lemma update_stream s c c' : AC.update s c = Some c' -> AC.m_stream c' = AC.m_stream c.
Proof. unfold AC.update. intros H. inv_binds. done. Qed.

(** [estimate_cost(s)] against [encode_symbol(s)] from the same state: the
    same state but for the writer, which [encode_symbol] extends by
    [emitted] bits, and the cost is that number cut to the range type. *)
Lemma estimate_vs_encode s c w :
  AC.m_stream c = Some w -> 0 <= AC.m_underflow_count c < 2 ^ range_bits ->
  match AC.estimate_cost s c with
  | None => AC.encode_symbol s c = None
  | Some (cost, ce) =>
      exists bits c1,
        AC.encode_symbol s c = Some (AC.set_stream (w ++ bits) ce) /\
        AC.m_stream ce = Some w /\
        AC.narrow_range s c = Some c1 /\
        Z.of_nat (length bits)
          = emitted AC.loop_fuel (AC.m_high c1) (AC.m_low c1) (AC.m_underflow_count c) /\
        cost = to_range (Z.of_nat (length bits))
  end.
Proof.
  intros Hw Hu. unfold AC.estimate_cost, AC.encode_symbol, AC.range_code.
  destruct (AC.narrow_range s c) as [c1|] eqn:Hn; [|done].
  rewrite !bind_Some_l.
  assert (Hw1 : AC.m_stream c1 = Some w) by (by rewrite (narrow_range_stream _ _ _ Hn)).
  assert (Hu1 : AC.m_underflow_count c1 = AC.m_underflow_count c).
  { unfold AC.narrow_range in Hn. inv_binds. done. }
  pose proof (range_code_loop_real AC.loop_fuel 0 c1 w) as Hreal.
  rewrite (set_stream_same _ _ Hw1) in Hreal.
  pose proof pow_range_pos.
  specialize (Hreal ltac:(lia) ltac:(lia)).
  destruct (AC.range_code_loop AC.loop_fuel true 0 c1) as [[k c2]|] eqn:Hsim.
  - destruct Hreal as (bits & -> & Hlen & Hk).
    rewrite !bind_Some_l. cbv beta iota.
    rewrite update_set_stream.
    destruct (AC.update s c2) as [c3|] eqn:Hup; [|done].
    simpl. exists bits, c1. split_and!; try done.
    + rewrite (update_stream _ _ _ Hup).
      apply range_code_loop_sim_frame in Hsim as (-> & _). done.
    + by rewrite Hlen, Hu1.
  - by rewrite Hreal.
Qed.

(** C6, the part of the statement that holds.  From an encoder state with
    a stream attached, [estimate_cost s] is undefined exactly when
    [encode_symbol s] is; otherwise it leaves the state [encode_symbol s]
    leaves but for the stream, which it does not touch, and the cost it
    returns is the number of bits [encode_symbol s] appends to the stream,
    modulo [2 ^ range_bits], and that number itself when
    [m_underflow_count + prob_bits + 1 < 2 ^ range_bits]. *)
Theorem estimate_cost_agrees (s : Z) (c : AC.scalable_ac_c) (w : bit_writer) :
  AC.m_stream c = Some w -> 0 <= AC.m_underflow_count c < 2 ^ range_bits ->
  match AC.estimate_cost s c with
  | None => AC.encode_symbol s c = None
  | Some (cost, ce) =>
      exists bits,
        AC.encode_symbol s c = Some (AC.set_stream (w ++ bits) ce) /\
        AC.m_stream ce = Some w /\
        cost = Z.of_nat (length bits) mod 2 ^ range_bits /\
        (AC.m_underflow_count c + prob_bits + 1 < 2 ^ range_bits ->
         cost = Z.of_nat (length bits))
  end.
Proof.
  intros Hw Hu. pose proof (estimate_vs_encode s c w Hw Hu) as H.
  destruct (AC.estimate_cost s c) as [[cost ce]|]; [|done].
  destruct H as (bits & c1 & Henc & Hst & Hn & Hlen & Hcost).
  exists bits. split_and!; try done.
  intros Hsmall. rewrite Hcost. apply to_range_small.
  pose proof (emitted_bound AC.loop_fuel (AC.m_high c1) (AC.m_low c1)
                (AC.m_underflow_count c) ltac:(lia)).
  pose proof prob_bits_pos. unfold AC.loop_fuel in *. lia.
Qed.

End Estimate.

(** ** The statements that fail, and what the code does instead *)

Section Examples_u32_u64.
#[local] Existing Instance u32_u64.
#[local] Existing Instance u32_u64_ok.

(** C6 as stated fails at an underflow count of all ones, restored from a
    snapshot into an encoder of two symbols: [estimate_cost 0] returns the
    cost 0, wrapped, while [encode_symbol 0] writes [2 ^ 64] bits. *)
Lemma estimate_cost_counterexample :
  let state : AC.scalable_ac_state_t :=
    {| AC.high := 4294967295; AC.low := 0;
       AC.underflow_count := 18446744073709551615; AC.tmp_range := 0;
       AC.max_syms := 2; AC.probability := [0; 1; 2]; AC.flushed := false |} in
  let c0 := (AC.init 2 (Some []) AC.new).2 in
  exists c ce cr w',
    AC.restore_state state false c0 = Some (true, c) /\
    AC.m_stream c = Some [] /\
    AC.estimate_cost 0 c = Some (0, ce) /\
    AC.encode_symbol 0 c = Some cr /\
    AC.m_stream cr = Some w' /\
    Z.of_nat (length w') = 18446744073709551616.
Proof.
  intros state c0.
  set (c := AC.set_range 4294967295 0 18446744073709551615 c0).
  assert (Hr : AC.restore_state state false c0 = Some (true, c))
    by (vm_compute; reflexivity).
  pose proof (estimate_vs_encode 0 c [] eq_refl) as H.
  specialize (H ltac:(by vm_compute)).
  destruct (AC.estimate_cost 0 c) as [[cost ce]|] eqn:He; [|by vm_compute in He].
  destruct H as (bits & c1 & Henc & Hst & Hn & Hlen & Hcost).
  vm_compute in Hn. injection Hn as <-.
  remember (emitted _ _ _ _) as e eqn:E in Hlen. vm_compute in E. subst e.
  rewrite Hlen in Hcost. vm_compute in Hcost. subst cost.
  exists c, ce, (AC.set_stream ([] ++ bits) ce), ([] ++ bits).
  split_and!; done.
Qed.

End Examples_u32_u64.

Section NoError.
Context {T : coder_types} {Tok : coder_types_ok T}.

Lemma scan_down_stop tbl p (k : nat) c :
  tbl !! k = Some c -> c <= p -> ADC.scan_down tbl p k = Some k.
Proof.
  intros Hc Hle. destruct k as [|k]; [done|].
  cbn [ADC.scan_down]. rewrite Hc, bind_Some_l.
  destruct (Z.ltb_spec p c); [lia|done].
Qed.

(** C5, what the code does instead: [decode_symbol] has no error to
    report.  Wherever it is defined it returns a symbol of the alphabet, the
    last one when the value [p] it computed is at or above the last
    cumulative count, as every [p >= C[N]] is on a table that does not
    decrease. *)
Theorem decode_symbol_reports_nothing (d d1 : ADC.scalable_adc_c) (tbl : list Z)
    (n total p : Z) :
  ADC.m_probability d = Some tbl -> ADC.m_max_syms d = n ->
  length tbl = Z.to_nat (n + 1) -> 1 <= n -> n + 1 < 2 ^ range_bits ->
  is_Some (ADC.m_stream d) ->
  tbl !! Z.to_nat n = Some total -> total <> 0 ->
  ADC.get_current_prob total d = Some (p, d1) ->
  exists s d',
    ADC.decode_symbol d = Some (s, d') /\ 0 <= s < n /\
    (forall c, tbl !! Z.to_nat (n - 1) = Some c -> c <= p -> s = n - 1) /\
    (nondecreasing tbl -> total <= p -> s = n - 1).
Proof.
  intros Htbl Hmax Hlen Hn Hnr Hst Htot Hne Hp.
  destruct (decode_symbol_defined d tbl n total p d1 Htbl Hmax Hlen Hn Hnr Hst Htot Hne Hp)
    as (s & d' & Hloc & Hs & Hdec).
  assert (Hlast : forall c, tbl !! Z.to_nat (n - 1) = Some c -> c <= p -> s = n - 1).
  { intros c Hc Hle. unfold ADC.locate in Hloc.
    destruct (Z.eqb_spec n 0); [lia|]. rewrite to_range_small in Hloc by lia.
    rewrite (scan_down_stop tbl p _ c Hc Hle) in Hloc. simpl in Hloc.
    injection Hloc as <-. lia. }
  exists s, d'. split_and!; try done; try lia.
  intros Hmono Hle.
  destruct (lookup_lt_is_Some_2 tbl (Z.to_nat (n - 1)) ltac:(lia)) as [c Hc].
  apply (Hlast c Hc).
  pose proof (Hmono (Z.to_nat (n - 1)) c total Hc) as Hct.
  replace (S (Z.to_nat (n - 1))) with (Z.to_nat n) in Hct by lia.
  specialize (Hct Htot). lia.
Qed.

End NoError.

Section Examples_u32_u64_decoder.
#[local] Existing Instance u32_u64.

(** C5 as stated fails: a decoder restored from a snapshot whose code lies
    above [high] computes [p = 5] on a table of total 3, and [decode_symbol]
    returns the symbol 2. *)
Lemma decode_corrupt_counterexample :
  let state : ADC.scalable_adc_state_t :=
    {| ADC.high := 100; ADC.low := 0; ADC.tmp_range := 0; ADC.max_syms := 3;
       ADC.code := 200; ADC.probability := [0; 1; 2; 3] |} in
  let d0 := (ADC.init 3 (Some (reader_of (fun _ => false))) adc_new).2 in
  exists d,
    ADC.restore_state state false d0 = Some (true, d) /\
    ADC.m_probability d = Some [0; 1; 2; 3] /\
    fst <$> ADC.get_current_prob 3 d = Some 5 /\
    fst <$> ADC.decode_symbol d = Some 2.
Proof.
  intros state d0. eexists. split; [by vm_compute|].
  split_and!; by vm_compute.
Qed.

(** C2 at the inputs where it fails: [expand] on a decoder just
    initialised, and [expand] on an encoder after two symbols. *)
Lemma expand_breaks_monotonicity :
  (let d0 := (ADC.init 1 (Some (reader_of (fun _ => false))) adc_new).2 in
   ADC.m_probability d0 = Some [0; 1] /\
   (ADC.m_probability ∘ snd) <$> ADC.expand 2 d0 = Some (Some [0; 1; 0])) /\
  (let c0 := (AC.init 2 (Some []) AC.new).2 in
   let c2 := c1 ← AC.encode_symbol 0 c0; AC.encode_symbol 0 c1 in
   AC.m_probability <$> c2 = Some (Some [0; 3; 4]) /\
   (AC.m_probability ∘ snd) <$> (c2 ≫= AC.expand 3) = Some (Some [0; 3; 4; 3])) /\
  ~ nondecreasing [0; 1; 0] /\ ~ nondecreasing [0; 3; 4; 3].
Proof.
  split_and!.
  - split; by vm_compute.
  - split; by vm_compute.
  - intros H. specialize (H 1%nat 1 0 eq_refl eq_refl). lia.
  - intros H. specialize (H 2%nat 4 3 eq_refl eq_refl). lia.
Qed.

End Examples_u32_u64_decoder.

(** ** The arithmetic of a renormalisation pass *)

Lemma testbit_add_pow2 x k j : 0 <= j < k -> Z.testbit (x + 2 ^ k) j = Z.testbit x j.
Proof.
  intros Hj. rewrite (testbit_mod_pow2 (x + 2 ^ k) k j), (testbit_mod_pow2 x k j) by done.
  by rewrite add_pow2_mod by lia.
Qed.

(** ** The renormalisation tests and shifts, arithmetically *)
Section RenormArith.
Context {T : coder_types} {Tok : coder_types_ok T}.

Local Notation "'HALF'" := (2 ^ (prob_bits - 1)) (only parsing).
Local Notation "'QUART'" := (2 ^ (prob_bits - 2)) (only parsing).

Lemma half_quarter : HALF = 2 * QUART /\ 2 ^ prob_bits = 2 * HALF /\ 64 <= QUART.
Proof.
  pose proof pow_hi_split. pose proof pow_prob_split. pose proof pow_low_pos. lia.
Qed.

Lemma testbit_hi x : 0 <= x < 2 ^ prob_bits -> Z.testbit x (prob_bits - 1) = (HALF <=? x).
Proof.
  intros Hx. pose proof prob_bits_pos. apply testbit_top; [lia|].
  by replace (prob_bits - 1 + 1) with prob_bits by lia.
Qed.

Lemma testbit_low x :
  0 <= x < 2 ^ prob_bits ->
  Z.testbit x (prob_bits - 2) = if HALF <=? x then QUART <=? x - HALF else QUART <=? x.
Proof.
  intros Hx. pose proof prob_bits_pos. pose proof half_quarter as (HH & HW & _).
  destruct (Z.leb_spec HALF x).
  - replace x with ((x - HALF) + 2 ^ (prob_bits - 1)) at 1 by lia.
    rewrite testbit_add_pow2 by lia. apply testbit_top; [lia|].
    replace (prob_bits - 2 + 1) with (prob_bits - 1) by lia. lia.
  - apply testbit_top; [lia|].
    replace (prob_bits - 2 + 1) with (prob_bits - 1) by lia. lia.
Qed.

Lemma shift_low_arith x :
  0 <= x < 2 ^ prob_bits ->
  shift_low x = if HALF <=? x then 2 * (x - HALF) else 2 * x.
Proof.
  intros Hx. rewrite shift_low_eq. pose proof half_quarter as (HH & HW & _).
  destruct (Z.leb_spec HALF x).
  - symmetry. apply Z.mod_unique with 1; lia.
  - apply Z.mod_small. lia.
Qed.

Lemma shift_high_arith x :
  0 <= x < 2 ^ prob_bits ->
  shift_high x = if HALF <=? x then 2 * (x - HALF) + 1 else 2 * x + 1.
Proof.
  intros Hx. rewrite shift_high_eq. pose proof half_quarter as (HH & HW & _).
  destruct (Z.leb_spec HALF x).
  - symmetry. apply Z.mod_unique with 1; lia.
  - apply Z.mod_small. lia.
Qed.

(** What a pass of a renormalisation loop does with bounds
    [0 <= lo <= hi < 2 ^ prob_bits]. *)
Lemma renorm_arith hi lo :
  0 <= lo -> lo <= hi -> hi < 2 ^ prob_bits ->
  match renorm_case hi lo with
  | TopBitsEqual =>
      (hi < HALF /\ Z.testbit hi (prob_bits - 1) = false /\
       shift_low lo = 2 * lo /\ shift_high hi = 2 * hi + 1) \/
      (HALF <= lo /\ Z.testbit hi (prob_bits - 1) = true /\
       shift_low lo = 2 * (lo - HALF) /\ shift_high hi = 2 * (hi - HALF) + 1)
  | Underflow =>
      QUART <= lo < HALF /\ HALF <= hi < HALF + QUART /\
      shift_low (Z.land lo k_low_bit_mask) = 2 * (lo - QUART) /\
      shift_high (Z.lor hi k_low_bit_val) = 2 * (hi - QUART) + 1
  | Leave => lo < HALF <= hi /\ (lo < QUART \/ HALF + QUART <= hi)
  end.
Proof.
  intros Hlo Hle Hhi. pose proof prob_bits_pos. pose proof half_quarter as (HH & HW & HQ64).
  rewrite renorm_case_bits.
  rewrite !testbit_hi, !testbit_low by lia.
  destruct (Z.leb_spec HALF hi) as [Hh|Hh], (Z.leb_spec HALF lo) as [Hl|Hl];
    cbn [Bool.eqb]; try lia.
  - right. rewrite shift_low_arith, shift_high_arith by lia.
    destruct (Z.leb_spec HALF hi), (Z.leb_spec HALF lo); lia.
  - destruct (Z.leb_spec QUART lo) as [Hq|Hq], (Z.leb_spec QUART (hi - HALF)) as [Hq2|Hq2];
      cbn [andb negb]; try lia.
    rewrite k_low_bit_mask_eq, k_low_bit_val_eq, <-ones_eq, Z.land_ones by lia.
    rewrite lor_pow2_clear; [|lia|].
    2:{ rewrite testbit_low by lia. destruct (Z.leb_spec HALF hi); [|lia].
        apply Z.leb_gt. lia. }
    assert (lo mod QUART = lo - QUART) as ->.
    { symmetry. apply Z.mod_unique with 1; lia. }
    rewrite shift_low_arith, shift_high_arith by lia.
    destruct (Z.leb_spec HALF (lo - QUART)), (Z.leb_spec HALF (hi + QUART)); lia.
  - left. rewrite shift_low_arith, shift_high_arith by lia.
    destruct (Z.leb_spec HALF hi), (Z.leb_spec HALF lo); lia.
Qed.

(** ** The narrowing of the range, arithmetically *)

Lemma narrow_spec tbl n s hi lo a b total :
  0 <= lo -> lo <= hi -> hi < 2 ^ prob_bits ->
  0 <= s -> s + 1 < 2 ^ range_bits ->
  tbl !! Z.to_nat s = Some a -> tbl !! Z.to_nat (s + 1) = Some b ->
  tbl !! Z.to_nat n = Some total ->
  0 <= a -> a < b -> b <= total -> total < 2 ^ prob_bits ->
  total <= hi - lo + 1 ->
  let r := hi - lo + 1 in
  narrow tbl n s hi lo = Some (r, lo + r * b / total - 1, lo + r * a / total) /\
  lo <= lo + r * a / total /\
  lo + r * a / total <= lo + r * b / total - 1 /\
  lo + r * b / total - 1 <= hi.
Proof.
  intros Hlo Hle Hhi Hs Hs1 Ha Hb Htot Ha0 Hab Hbt Htt Hr. cbv zeta.
  pose proof pow_prob_le_range. pose proof pow_prob_pos. pose proof pow_prob_lt_range.
  remember (hi - lo + 1) as r eqn:Er.
  assert (Hdiv_a : 0 <= r * a / total) by (apply Z.div_pos; nia).
  assert (Hdiv_ab : r * a / total + 1 <= r * b / total).
  { apply Z.div_le_lower_bound; [lia|].
    pose proof (Z.mul_div_le (r * a) total ltac:(lia)). nia. }
  assert (Hdiv_b : r * b / total <= r).
  { apply Z.div_le_upper_bound; [lia|]. nia. }
  split_and!; try lia.
  unfold narrow. rewrite (to_range_small (s + 1)) by lia.
  rewrite Ha, Hb, Htot, !bind_Some_l.
  destruct (Z.eqb_spec total 0); [lia|].
  rewrite (to_range_small (hi - lo)) by lia.
  rewrite (to_range_small (hi - lo + 1)) by lia. rewrite <-Er.
  rewrite (to_range_small (r * b)) by nia.
  rewrite (to_range_small (r * a)) by nia.
  rewrite (to_range_small (lo + r * b / total)) by lia.
  rewrite (to_range_small (lo + r * b / total - 1)) by lia.
  rewrite (to_range_small (lo + r * a / total)) by lia.
  done.
Qed.

(** The value the decoder computes for a code inside the slice of [s]
    lies between the cumulative counts of [s]. *)
Lemma code_in_slice r total a b x :
  0 < total -> total <= r -> 0 <= a -> a < b -> b <= total ->
  r * a / total <= x -> x <= r * b / total - 1 ->
  a <= ((x + 1) * total - 1) / r < b.
Proof.
  intros Ht Hr Ha Hab Hb Hlo Hhi.
  pose proof (Z.mul_div_le (r * b) total ltac:(lia)) as Hb1.
  assert (Ha1 : r * a < (r * a / total + 1) * total).
  { pose proof (Z.mul_succ_div_gt (r * a) total ltac:(lia)). lia. }
  split.
  - apply Z.div_le_lower_bound; [lia|]. nia.
  - apply Z.div_lt_upper_bound; [lia|]. nia.
Qed.

End RenormArith.

(** ** Windows of a bit sequence *)

Lemma window_bound s p n : 0 <= window s p n < 2 ^ Z.of_nat n.
Proof.
  induction n as [|n IH]; [simpl; lia|].
  cbn [window]. rewrite Nat2Z.inj_succ, Z.pow_succ_r by lia.
  destruct (s (p + n)%nat); simpl Z.b2z; lia.
Qed.

Lemma window_front s p n :
  window s p (S n) = Z.b2z (s p) * 2 ^ Z.of_nat n + window s (S p) n.
Proof.
  induction n as [|n IH].
  - simpl. rewrite Nat.add_0_r. lia.
  - cbn [window] in *. rewrite IH.
    rewrite Nat2Z.inj_succ, Z.pow_succ_r by lia.
    replace (S p + n)%nat with (p + S n)%nat by lia. lia.
Qed.

Lemma window_ext s p q n : p = q -> window s p n = window s q n.
Proof. by intros ->. Qed.

Lemma extends_app s w1 w2 : extends s (w1 ++ w2) -> extends s w1.
Proof.
  intros H i b Hi. apply H. by apply lookup_app_l_Some.
Qed.

Lemma extends_at s w1 b w2 : extends s (w1 ++ b :: w2) -> s (length w1) = b.
Proof. intros H. apply H. by apply list_lookup_middle. Qed.

Lemma extends_run s w1 n b w2 (j : nat) :
  extends s (w1 ++ replicate n b ++ w2) -> (j < n)%nat -> s (length w1 + j)%nat = b.
Proof.
  intros H Hj. apply H. rewrite lookup_app_r by lia.
  rewrite lookup_app_l by (rewrite length_replicate; lia).
  replace (length w1 + j - length w1)%nat with j by lia.
  by apply lookup_replicate_2.
Qed.

Lemma extends_run_after s w b n nb rest (j : nat) :
  extends s (w ++ b :: replicate n nb ++ rest) -> (1 <= j <= n)%nat ->
  s (length w + j)%nat = nb.
Proof.
  intros H Hj. apply H. rewrite lookup_app_r by lia.
  replace (length w + j - length w)%nat with (S (j - 1)) by lia. simpl.
  rewrite lookup_app_l by (rewrite length_replicate; lia).
  apply lookup_replicate_2. lia.
Qed.

Section EncoderLoop.
Context {T : coder_types} {Tok : coder_types_ok T}.

Local Notation "'HALF'" := (2 ^ (prob_bits - 1)) (only parsing).
Local Notation "'QUART'" := (2 ^ (prob_bits - 2)) (only parsing).

(** The bits a pass with equal top bits writes. *)
Lemma top_bit_written hi u w :
  0 <= hi < 2 ^ prob_bits -> 0 <= u < 2 ^ range_bits ->
  write_underflow (Z.lxor (Z.shiftr hi k_hi_bit) 1) u (bs_write (Z.shiftr hi k_hi_bit) 1 w)
  = w ++ Z.testbit hi (prob_bits - 1)
         :: replicate (Z.to_nat u) (negb (Z.testbit hi (prob_bits - 1))).
Proof.
  intros Hhi Hu. pose proof prob_bits_pos. pose proof half_quarter as (HH & HW & _).
  rewrite write_underflow_spec by done. rewrite bs_write_1, k_hi_bit_eq.
  rewrite Z.shiftr_spec by lia. rewrite Z.add_0_l.
  rewrite <-app_assoc. do 3 f_equal.
  rewrite Z.shiftr_div_pow2 by lia. rewrite testbit_hi by done.
  destruct (Z.leb_spec HALF hi).
  - assert (hi / HALF = 1) as -> by (symmetry; apply Z.div_unique with (hi - HALF); lia).
    done.
  - rewrite Z.div_small by lia. done.
Qed.

(** What the loop of [range_code] leaves: bounds that need no more pass,
    a writer extended, an underflow count that grew by at most one per
    pass, and the other members as they were. *)
Lemma range_code_loop_post fuel cost c w k c' :
  range_ok c -> AC.m_stream c = Some w ->
  0 <= AC.m_underflow_count c ->
  AC.m_underflow_count c + Z.of_nat fuel < 2 ^ range_bits ->
  AC.range_code_loop fuel false cost c = Some (k, c') ->
  range_ok c' /\ renorm_case (AC.m_high c') (AC.m_low c') = Leave /\
  (exists bits, AC.m_stream c' = Some (w ++ bits)) /\
  0 <= AC.m_underflow_count c' <= AC.m_underflow_count c + Z.of_nat fuel /\
  AC.m_probability c' = AC.m_probability c /\ AC.m_max_syms c' = AC.m_max_syms c /\
  AC.m_flushed c' = AC.m_flushed c /\ AC.m_tmp_range c' = AC.m_tmp_range c.
Proof.
  revert cost c w. induction fuel as [|fuel IH]; intros cost c w Hr Hw Hu0 Hu; [done|].
  cbn [AC.range_code_loop]. destruct Hr as (Hlo & Hle & Hhi).
  pose proof (renorm_arith _ _ Hlo Hle Hhi) as Har.
  pose proof half_quarter as (HH & HW & HQ64).
  destruct (renorm_case (AC.m_high c) (AC.m_low c)) eqn:Hcase.
  - rewrite Hw, !bind_Some_l. rewrite top_bit_written by lia.
    cbn [AC.set_stream AC.m_high AC.m_low]. intros Hloop.
    eapply IH in Hloop; [| |reflexivity| |].
    + destruct Hloop as (? & ? & (bits & Hb) & ? & ? & ? & ? & ?).
      cbn [AC.set_range AC.set_stream AC.m_underflow_count AC.m_probability
           AC.m_max_syms AC.m_flushed AC.m_tmp_range] in *.
      split_and!; try done; try lia.
      eexists. rewrite Hb, <-app_assoc. done.
    + unfold range_ok. cbn [AC.set_range AC.set_stream AC.m_high AC.m_low].
      destruct Har as [(? & _ & -> & ->)|(? & _ & -> & ->)]; lia.
    + simpl. lia.
    + simpl. lia.
  - intros Hloop. destruct Har as (? & ? & Hsl & Hsh).
    eapply IH in Hloop; [| |exact Hw| |].
    + destruct Hloop as (? & ? & Hb & ? & ? & ? & ? & ?).
      cbn [AC.set_range AC.m_underflow_count AC.m_probability
           AC.m_max_syms AC.m_flushed AC.m_tmp_range] in *.
      rewrite to_range_small in * by lia.
      split_and!; try done; try lia.
    + unfold range_ok. cbn [AC.set_range AC.m_high AC.m_low].
      rewrite Hsl, Hsh. lia.
    + cbn [AC.set_range AC.m_underflow_count]. rewrite to_range_small by lia. lia.
    + cbn [AC.set_range AC.m_underflow_count]. rewrite to_range_small by lia. lia.
  - intros [= <- <-]. split_and!; try done; try lia.
    exists []. by rewrite app_nil_r.
Qed.

Lemma code_at_next_bit s (e : nat) :
  code_at s e 0
  = 2 * window s e (Z.to_nat (prob_bits - 1))
    + Z.b2z (s (e + Z.to_nat (prob_bits - 1))%nat).
Proof.
  unfold code_at. pose proof prob_bits_pos.
  change (Z.to_nat 0) with O.
  replace (e + 0 + 1)%nat with (S e) by lia.
  pose proof (window_front s e (Z.to_nat (prob_bits - 1))) as Hf.
  rewrite Z2Nat.id in Hf by lia. cbn [window] in Hf. lia.
Qed.

Lemma code_at_split s (e : nat) u :
  0 <= u ->
  code_at s e u
  = Z.b2z (s e) * HALF + Z.b2z (s (e + Z.to_nat u + 1)%nat) * QUART
    + window s (e + Z.to_nat u + 2) (Z.to_nat (prob_bits - 2)) /\
  code_at s e (u + 1)
  = Z.b2z (s e) * HALF
    + 2 * window s (e + Z.to_nat u + 2) (Z.to_nat (prob_bits - 2))
    + Z.b2z (s (e + Z.to_nat u + Z.to_nat prob_bits)%nat).
Proof.
  intros Hu. unfold code_at. pose proof prob_bits_pos.
  replace (Z.to_nat (prob_bits - 1)) with (S (Z.to_nat (prob_bits - 2))) by lia.
  split.
  - rewrite window_front. rewrite Z2Nat.id by lia.
    replace (S (e + Z.to_nat u + 1)) with (e + Z.to_nat u + 2)%nat by lia. lia.
  - cbn [window].
    replace (e + Z.to_nat (u + 1) + 1)%nat with (e + Z.to_nat u + 2)%nat by lia.
    replace (e + Z.to_nat u + 2 + Z.to_nat (prob_bits - 2))%nat
      with (e + Z.to_nat u + Z.to_nat prob_bits)%nat by lia.
    lia.
Qed.

(** Back through the loop of [range_code]: a sequence the encoder can
    produce after the loop is one it could produce before. *)
Lemma range_code_loop_sound sq fuel cost c w k c' :
  range_ok c -> AC.m_stream c = Some w ->
  0 <= AC.m_underflow_count c ->
  AC.m_underflow_count c + Z.of_nat fuel < 2 ^ range_bits ->
  AC.range_code_loop fuel false cost c = Some (k, c') ->
  (forall w', AC.m_stream c' = Some w' -> extends sq w') ->
  sound sq c' -> sound sq c.
Proof.
  revert cost c w. induction fuel as [|fuel IH]; intros cost c w Hr Hw Hu0 Hu; [done|].
  cbn [AC.range_code_loop]. destruct Hr as (Hlo & Hle & Hhi).
  pose proof (renorm_arith _ _ Hlo Hle Hhi) as Har.
  pose proof half_quarter as (HH & HW & HQ64). pose proof prob_bits_pos.
  destruct (renorm_case (AC.m_high c) (AC.m_low c)) eqn:Hcase.
  - rewrite Hw, !bind_Some_l. rewrite top_bit_written by lia.
    cbn [AC.set_stream AC.m_high AC.m_low]. intros Hloop Hext Hs'.
    remember (Z.testbit (AC.m_high c) (prob_bits - 1)) as b eqn:Eb.
    set (w2 := w ++ b :: replicate (Z.to_nat (AC.m_underflow_count c)) (negb b)) in *.
    set (c2 := AC.set_range (shift_high (AC.m_high c)) (shift_low (AC.m_low c)) 0
                 (AC.set_stream w2 c)) in *.
    assert (Hr2 : range_ok c2).
    { unfold range_ok, c2. cbn [AC.set_range AC.m_high AC.m_low].
      destruct Har as [(? & _ & -> & ->)|(? & _ & -> & ->)]; lia. }
    assert (Hw2 : AC.m_stream c2 = Some w2) by done.
    assert (Hu2 : AC.m_underflow_count c2 = 0) by done.
    assert (Hh2 : AC.m_high c2 = shift_high (AC.m_high c)) by done.
    assert (Hl2 : AC.m_low c2 = shift_low (AC.m_low c)) by done.
    clearbody c2.
    pose proof Hloop as Hpost.
    eapply range_code_loop_post in Hpost; [|exact Hr2|exact Hw2|lia|lia].
    destruct Hpost as (_ & _ & (bits & Hb) & _).
    pose proof (Hext _ Hb) as Hext2.
    eapply IH in Hloop; [|exact Hr2|exact Hw2|lia|lia|done|done].
    destruct Hloop as (w2' & Hw2' & _ & Hcode).
    rewrite Hw2 in Hw2'. injection Hw2' as <-. rewrite Hu2, Hh2, Hl2 in Hcode.
    exists w. split; [done|].
    assert (Hb0 : sq (length w) = b).
    { unfold w2 in Hext2. rewrite <-app_assoc in Hext2. by apply extends_at in Hext2. }
    split.
    + intros j Hj. rewrite Hb0. unfold w2 in Hext2.
      rewrite <-app_assoc in Hext2. simpl in Hext2.
      by apply (extends_run_after _ _ _ _ _ _ j) in Hext2.
    + rewrite code_at_next_bit in Hcode.
      assert (Hlen2 : length w2 = (length w + Z.to_nat (AC.m_underflow_count c) + 1)%nat).
      { unfold w2. rewrite length_app. simpl. rewrite length_replicate. lia. }
      unfold code_at. rewrite Hb0, <-Hlen2.
      set (x := window sq (length w2) (Z.to_nat (prob_bits - 1))) in *.
      clear Eb.
      destruct (sq (length w2 + Z.to_nat (prob_bits - 1))%nat); simpl Z.b2z in Hcode;
        destruct Har as [(? & -> & Hsl & Hsh)|(? & -> & Hsl & Hsh)];
        rewrite Hsl, Hsh in Hcode; simpl Z.b2z; lia.
  - intros Hloop Hext Hs'. destruct Har as (? & ? & Hsl & Hsh).
    eapply IH in Hloop; [| |exact Hw| | |done|done].
    + destruct Hloop as (w' & Hw' & Hrun & Hcode).
      cbn [AC.set_range AC.m_stream AC.m_underflow_count AC.m_high AC.m_low]
        in Hw', Hrun, Hcode.
      rewrite Hw in Hw'. injection Hw' as <-.
      rewrite to_range_small in Hrun, Hcode by lia.
      exists w. split; [done|]. split.
      * intros j Hj. apply Hrun. lia.
      * destruct (code_at_split sq (length w) (AC.m_underflow_count c) Hu0) as [E1 E2].
        rewrite E2, Hsl, Hsh in Hcode. rewrite E1.
        assert (Hnb : sq (length w + Z.to_nat (AC.m_underflow_count c) + 1)%nat
                      = negb (sq (length w))).
        { rewrite <-(Hrun (Z.to_nat (AC.m_underflow_count c) + 1)%nat) by lia.
          f_equal. lia. }
        rewrite Hnb.
        pose proof (window_bound sq (length w + Z.to_nat (AC.m_underflow_count c) + 2)
                      (Z.to_nat (prob_bits - 2))) as Hwb.
        rewrite Z2Nat.id in Hwb by lia.
        destruct (sq (length w)), (sq (length w + Z.to_nat (AC.m_underflow_count c)
                                       + Z.to_nat prob_bits)%nat);
          simpl Z.b2z in *; lia.
    + unfold range_ok. cbn [AC.set_range AC.m_high AC.m_low]. rewrite Hsl, Hsh. lia.
    + cbn [AC.set_range AC.m_underflow_count]. rewrite to_range_small by lia. lia.
    + cbn [AC.set_range AC.m_underflow_count]. rewrite to_range_small by lia. lia.
  - intros [= <- <-] _ Hs. done.
Qed.

End EncoderLoop.

(** ** The encoder, symbol by symbol *)

Section EncoderSteps.
Context {T : coder_types} {Tok : coder_types_ok T}.

Local Notation "'HALF'" := (2 ^ (prob_bits - 1)) (only parsing).
Local Notation "'QUART'" := (2 ^ (prob_bits - 2)) (only parsing).

(** *** [flush] *)

Lemma flush_writes c w :
  AC.m_stream c = Some w -> AC.m_flushed c = false ->
  0 <= AC.m_underflow_count c -> AC.m_underflow_count c + 1 < 2 ^ range_bits ->
  let b := Z.testbit (AC.m_low c) (prob_bits - 2) in
  AC.m_stream (AC.flush false c).2
  = Some (w ++ b :: replicate (Z.to_nat (AC.m_underflow_count c + 1)) (negb b)).
Proof.
  intros Hw Hf Hu0 Hu. cbv zeta. unfold AC.flush. rewrite Hw, Hf. simpl negb.
  cbn [orb snd AC.m_stream]. pose proof prob_bits_pos.
  rewrite to_range_small by lia.
  rewrite write_underflow_spec by lia. rewrite bs_write_1, k_low_bit_eq.
  assert (E1 : Z.testbit (Z.land (Z.shiftr (AC.m_low c) (prob_bits - 2)) 1) 0
               = Z.testbit (AC.m_low c) (prob_bits - 2)).
  { rewrite Z.land_spec, Z.shiftr_spec, Z.add_0_l by lia. apply andb_true_r. }
  assert (E2 : negb (Z.land (Z.lxor (Z.shiftr (AC.m_low c) (prob_bits - 2)) 1) 1 =? 0)
               = negb (Z.testbit (AC.m_low c) (prob_bits - 2))).
  { rewrite (land_pow2_eq0 _ 0), negb_involutive by lia.
    rewrite Z.lxor_spec, Z.shiftr_spec, Z.add_0_l by lia. apply xorb_true_r. }
  rewrite E1, E2, <-app_assoc. done.
Qed.

(** The sequence that starts with what [flush] writes is one the encoder
    could produce. *)
Lemma flush_sound sq c w w' :
  enc_ok c -> AC.m_stream c = Some w ->
  AC.m_underflow_count c + 1 < 2 ^ range_bits ->
  AC.m_stream (AC.flush false c).2 = Some w' -> extends sq w' ->
  sound sq c.
Proof.
  intros ((Hlo & Hle & Hhi) & Hcase & Hu0 & Hf & _ & _) Hw Hu Hfl Hext.
  pose proof (renorm_arith _ _ Hlo Hle Hhi) as Har. rewrite Hcase in Har.
  pose proof half_quarter as (HH & HW & HQ64). pose proof prob_bits_pos.
  rewrite (flush_writes c w Hw Hf Hu0 Hu) in Hfl. injection Hfl as <-.
  rewrite testbit_low in Hext by lia.
  destruct (Z.leb_spec HALF (AC.m_low c)); [lia|].
  exists w. split; [done|].
  pose proof (extends_at _ _ _ _ Hext) as Hb0.
  assert (Hrun : forall j : nat, (1 <= j <= Z.to_nat (AC.m_underflow_count c) + 1)%nat ->
            sq (length w + j)%nat = negb (sq (length w))).
  { intros j Hj. rewrite Hb0.
    eapply (extends_run_after sq w _ _ _ [] j); [by rewrite app_nil_r|lia]. }
  split; [intros j Hj; apply Hrun; lia|].
  destruct (code_at_split sq (length w) (AC.m_underflow_count c) Hu0) as [E1 _].
  rewrite E1.
  assert (Hnb : sq (length w + Z.to_nat (AC.m_underflow_count c) + 1)%nat
                = negb (sq (length w))).
  { rewrite <-(Hrun (Z.to_nat (AC.m_underflow_count c) + 1)%nat) by lia.
    f_equal. lia. }
  rewrite Hnb, Hb0.
  pose proof (window_bound sq (length w + Z.to_nat (AC.m_underflow_count c) + 2)
                (Z.to_nat (prob_bits - 2))) as Hwb.
  rewrite Z2Nat.id in Hwb by lia.
  destruct (Z.leb_spec QUART (AC.m_low c)); simpl Z.b2z; lia.
Qed.

(** *** One symbol *)

Lemma enc_ok_wide c :
  enc_ok c -> QUART + 2 <= AC.m_high c - AC.m_low c + 1.
Proof.
  intros ((Hlo & Hle & Hhi) & Hcase & _).
  pose proof (renorm_arith _ _ Hlo Hle Hhi) as Har. rewrite Hcase in Har.
  pose proof half_quarter as (HH & HW & HQ64). lia.
Qed.

Lemma narrow_range_ok s c :
  enc_ok c -> 0 <= s < AC.m_max_syms c ->
  exists tbl a b total cm,
    AC.m_probability c = Some tbl /\
    tbl !! Z.to_nat s = Some a /\ tbl !! Z.to_nat (s + 1) = Some b /\
    tbl !! Z.to_nat (AC.m_max_syms c) = Some total /\
    0 <= a /\ a < b /\ b <= total /\ total < 2 ^ prob_bits /\
    total <= AC.m_high c - AC.m_low c + 1 /\
    AC.narrow_range s c = Some cm /\
    AC.m_low cm
      = AC.m_low c + (AC.m_high c - AC.m_low c + 1) * a / total /\
    AC.m_high cm
      = AC.m_low c + (AC.m_high c - AC.m_low c + 1) * b / total - 1 /\
    range_ok cm /\ AC.m_low c <= AC.m_low cm /\ AC.m_high cm <= AC.m_high c /\
    AC.m_stream cm = AC.m_stream c /\
    AC.m_underflow_count cm = AC.m_underflow_count c /\
    AC.m_probability cm = AC.m_probability c /\
    AC.m_max_syms cm = AC.m_max_syms c /\
    AC.m_flushed cm = AC.m_flushed c.
Proof.
  intros Hok Hs. pose proof (enc_ok_wide c Hok) as Hwide.
  destruct Hok as ((Hlo & Hle & Hhi) & Hcase & Hu0 & Hf & Hst & tbl & Htbl & Hm).
  destruct Hm as ((Hn0 & Hlen & Hty & H0 & Hinc) & Hn & total & Htot & Hlt).
  pose proof k_max_range_bounds as [Hk1 Hk2]. rewrite k_max_range_eq in *.
  pose proof pow_prob_lt_range. pose proof pow_prob_pos.
  destruct (lookup_lt_is_Some_2 tbl (Z.to_nat s) ltac:(lia)) as [a Ha].
  destruct (lookup_lt_is_Some_2 tbl (Z.to_nat (s + 1)) ltac:(lia)) as [b Hb].
  pose proof (typed_lookup _ _ _ Hty Ha) as Ha0.
  assert (Hab : a < b).
  { apply (Hinc (Z.to_nat s) a b Ha). by replace (S (Z.to_nat s)) with (Z.to_nat (s + 1)) by lia. }
  assert (Hbt : b <= total).
  { apply (increasing_le tbl (Z.to_nat (s + 1)) (Z.to_nat (AC.m_max_syms c))); try done. lia. }
  destruct (narrow_spec tbl (AC.m_max_syms c) s (AC.m_high c) (AC.m_low c) a b total)
    as (Hnar & Hn1 & Hn2 & Hn3); try done; try lia.
  set (r := AC.m_high c - AC.m_low c + 1) in *.
  exists tbl, a, b, total,
    (AC.set_range (AC.m_low c + r * b / total - 1) (AC.m_low c + r * a / total)
       (AC.m_underflow_count c) (AC.set_tmp_range r c)).
  split_and!; try done; try (simpl; lia).
  - unfold AC.narrow_range. rewrite Htbl, bind_Some_l, Hnar, bind_Some_l. done.
  - unfold range_ok. simpl. lia.
Qed.

Lemma sound_fields sq c c' :
  AC.m_stream c' = AC.m_stream c -> AC.m_low c' = AC.m_low c ->
  AC.m_high c' = AC.m_high c -> AC.m_underflow_count c' = AC.m_underflow_count c ->
  sound sq c -> sound sq c'.
Proof. unfold sound. intros -> -> -> ->. done. Qed.

Lemma encode_symbol_step s c w :
  enc_ok c -> AC.m_stream c = Some w -> 0 <= s < AC.m_max_syms c ->
  AC.m_underflow_count c + prob_bits + 1 < 2 ^ range_bits ->
  exists cm k c' c1 tbl tbl',
    AC.narrow_range s c = Some cm /\
    AC.range_code_loop AC.loop_fuel false 0 cm = Some (k, c') /\
    AC.encode_symbol s c = Some c1 /\
    AC.m_probability c = Some tbl /\
    update_model s (AC.m_max_syms c) tbl = Some tbl' /\
    c1 = AC.set_probability tbl' c' /\
    enc_ok c1 /\
    (exists bits, AC.m_stream c' = Some (w ++ bits)) /\
    AC.m_underflow_count c' <= AC.m_underflow_count c + prob_bits + 1 /\
    AC.m_max_syms c' = AC.m_max_syms c.
Proof.
  intros Hok Hw Hs Hu. pose proof prob_bits_pos.
  destruct (narrow_range_ok s c Hok Hs)
    as (tbl & a & b & total & cm & Htbl & Ha & Hb & Htot & Ha0 & Hab & Hbt & Htt & Hr
        & Hnar & Hlm & Hhm & Hrm & Hl1 & Hh1 & Hsm & Hum & Hpm & Hmm & Hfm).
  destruct Hok as (_ & _ & Hu0 & Hf & _ & tbl0 & Htbl0 & Hm).
  rewrite Htbl in Htbl0. injection Htbl0 as <-.
  destruct (range_code_exits s false c cm Hnar ltac:(right; rewrite Hw; eauto))
    as (m & [k c'] & Hm1 & Hex & Hrc).
  assert (Hloop : AC.range_code_loop AC.loop_fuel false 0 cm = Some (k, c')).
  { apply (exits_after_fuel _ _ _ _ Hex). unfold AC.loop_fuel. lia. }
  pose proof Hloop as Hpost.
  eapply range_code_loop_post in Hpost;
    [|exact Hrm|by rewrite Hsm|lia|unfold AC.loop_fuel; lia].
  destruct Hpost as (Hr' & Hcase' & Hbits & Hu' & Hp' & Hm' & Hf' & _).
  destruct (update_model_ok _ s tbl Hm Hs) as (tbl' & Hup & Hm2).
  exists cm, k, c', (AC.set_probability tbl' c'), tbl, tbl'.
  split_and!; try done.
  - unfold AC.encode_symbol. rewrite Hrc, bind_Some_l. cbv beta iota.
    unfold AC.update. rewrite Hp', Hpm, Htbl, bind_Some_l, Hm', Hmm, Hup. done.
  - unfold enc_ok. cbn [AC.set_probability AC.m_high AC.m_low AC.m_underflow_count
      AC.m_flushed AC.m_stream AC.m_probability AC.m_max_syms].
    split_and!; try done; try lia.
    + congruence.
    + destruct Hbits as [bits ->]. eauto.
    + exists tbl'. split; [done|]. by rewrite Hm', Hmm.
  - unfold AC.loop_fuel in Hu'. lia.
  - congruence.
Qed.

(** *** A run of symbols, then [flush] *)

Lemma encode_symbols_sound sq syms c w :
  enc_ok c -> AC.m_stream c = Some w ->
  Forall (fun s => 0 <= s < AC.m_max_syms c) syms ->
  AC.m_underflow_count c + Z.of_nat (length syms) * (prob_bits + 1) + 1 < 2 ^ range_bits ->
  exists c_end w_fin bits,
    encode_symbols syms c = Some c_end /\
    AC.m_stream (AC.flush false c_end).2 = Some w_fin /\
    w_fin = w ++ bits /\
    (extends sq w_fin -> sound sq c).
Proof.
  revert c w. induction syms as [|s syms IH]; intros c w Hok Hw Hval Hu.
  - pose proof Hok as (_ & _ & Hu0 & Hf & _).
    simpl in Hu.
    pose proof (flush_writes c w Hw Hf Hu0 ltac:(lia)) as Hfl. cbv zeta in Hfl.
    eexists c, _, _. split_and!; [done|exact Hfl|done|].
    intros Hext. eapply flush_sound; [done|done|lia|exact Hfl|done].
  - pose proof (Forall_inv Hval) as Hs. apply Forall_inv_tail in Hval.
    simpl in Hs. pose proof prob_bits_pos.
    rewrite length_cons, Nat2Z.inj_succ in Hu.
    pose proof Hok as (_ & _ & Hu0 & _).
    destruct (encode_symbol_step s c w Hok Hw Hs ltac:(nia))
      as (cm & k & c' & c1 & tbl & tbl' & Hnar & Hloop & Henc & Htbl & Hup & -> & Hok1
          & (bits1 & Hw') & Hu' & Hm').
    destruct (IH (AC.set_probability tbl' c') (w ++ bits1) Hok1)
      as (c_end & w_fin & bits2 & Hencs & Hfl & -> & Hsound).
    { done. }
    { simpl. by rewrite Hm'. }
    { simpl. nia. }
    exists c_end, ((w ++ bits1) ++ bits2), (bits1 ++ bits2).
    split_and!; [|done|by rewrite app_assoc|].
    + cbn [encode_symbols]. by rewrite Henc, bind_Some_l.
    + intros Hext. specialize (Hsound Hext).
      assert (Hs' : sound sq c') by (by eapply sound_fields; [..|exact Hsound]).
      destruct (narrow_range_ok s c Hok Hs)
        as (? & ? & ? & ? & cm0 & _ & _ & _ & _ & _ & _ & _ & _ & _ & Hnar0 & _ & _
            & Hrm & Hl1 & Hh1 & Hsm & Hum & _).
      rewrite Hnar in Hnar0. injection Hnar0 as <-.
      assert (Hsm' : sound sq cm).
      { eapply range_code_loop_sound; [exact Hrm|by rewrite Hsm| | |exact Hloop| |done].
        - lia.
        - unfold AC.loop_fuel. nia.
        - intros w'' Hw''. rewrite Hw' in Hw''. injection Hw'' as <-.
          by apply extends_app in Hext. }
      destruct Hsm' as (w0 & Hw0 & Hrun & Hcode).
      rewrite Hsm, Hw in Hw0. injection Hw0 as <-. rewrite Hum in Hrun, Hcode.
      exists w. split_and!; [done|done|lia|lia].
Qed.

End EncoderSteps.

(** ** The decoder follows the encoder *)

Lemma b2z_range (b : bool) : 0 <= Z.b2z b <= 1.
Proof. destruct b; simpl; lia. Qed.

Section DecoderFollows.
Context {T : coder_types} {Tok : coder_types_ok T}.

Local Notation "'HALF'" := (2 ^ (prob_bits - 1)) (only parsing).
Local Notation "'QUART'" := (2 ^ (prob_bits - 2)) (only parsing).

(** The shift of the code register with the bit read. *)
Lemma shift_code_eq cd (b : bool) :
  Z.land (Z.lor (to_range (Z.shiftl cd 1)) (Z.b2z b)) k_probability_range_mask
  = (2 * cd + Z.b2z b) mod 2 ^ prob_bits.
Proof.
  destruct b; simpl Z.b2z.
  - fold (shift_high cd). apply shift_high_eq.
  - rewrite Z.lor_0_r, Z.add_0_r. fold (shift_low cd). apply shift_low_eq.
Qed.

Lemma follows_code_range sq c d :
  follows sq c d -> 0 <= ADC.m_code d < 2 ^ prob_bits.
Proof.
  intros (w & _ & _ & -> & _). unfold code_at.
  pose proof prob_bits_pos. pose proof half_quarter as (HH & HW & _).
  pose proof (window_bound sq (length w + Z.to_nat (AC.m_underflow_count c) + 1)
                (Z.to_nat (prob_bits - 1))) as Hwb.
  rewrite Z2Nat.id in Hwb by lia.
  destruct (sq (length w)); simpl Z.b2z; lia.
Qed.

(** The loop of [remove_range] follows the loop of [range_code]. *)
Lemma remove_range_loop_follows sq fuel cost c d w k c' :
  range_ok c -> AC.m_stream c = Some w ->
  0 <= AC.m_underflow_count c ->
  AC.m_underflow_count c + Z.of_nat fuel < 2 ^ range_bits ->
  follows sq c d ->
  AC.range_code_loop fuel false cost c = Some (k, c') ->
  (forall w', AC.m_stream c' = Some w' -> extends sq w') ->
  sound sq c' ->
  exists d', ADC.remove_range_loop fuel d = Some d' /\ follows sq c' d'.
Proof.
  revert cost c d w. induction fuel as [|fuel IH]; intros cost c d w Hr Hw Hu0 Hu Hfol;
    [done|].
  cbn [AC.range_code_loop ADC.remove_range_loop].
  pose proof Hr as (Hlo & Hle & Hhi).
  pose proof (renorm_arith _ _ Hlo Hle Hhi) as Har.
  pose proof half_quarter as (HH & HW & HQ64). pose proof prob_bits_pos.
  pose proof (follows_code_range _ _ _ Hfol) as Hcr.
  destruct Hfol as (w0 & Hw0 & Hrd & Hcode & Hdh & Hdl & Hdp & Hdm).
  rewrite Hw in Hw0. injection Hw0 as <-.
  rewrite Hdh, Hdl.
  destruct (renorm_case (AC.m_high c) (AC.m_low c)) eqn:Hcase.
  - rewrite Hw, !bind_Some_l. rewrite top_bit_written by lia.
    cbn [AC.set_stream AC.m_high AC.m_low]. intros Hloop Hext Hs'.
    rewrite Hrd, bind_Some_l. cbn [bs_read1 rd_bits rd_pos].
    remember (Z.testbit (AC.m_high c) (prob_bits - 1)) as b eqn:Eb.
    set (w2 := w ++ b :: replicate (Z.to_nat (AC.m_underflow_count c)) (negb b)) in *.
    eapply IH; [| | | | |exact Hloop|done|done].
    + unfold range_ok. cbn [AC.set_range AC.m_high AC.m_low].
      destruct Har as [(? & _ & -> & ->)|(? & _ & -> & ->)]; lia.
    + reflexivity.
    + simpl. lia.
    + simpl. lia.
    + exists w2. cbn [AC.set_range AC.set_stream AC.m_stream AC.m_underflow_count
        AC.m_high AC.m_low AC.m_probability AC.m_max_syms
        ADC.set_range ADC.set_stream ADC.m_stream ADC.m_code ADC.m_high ADC.m_low
        ADC.m_probability ADC.m_max_syms].
      assert (Hlen2 : length w2 = (length w + Z.to_nat (AC.m_underflow_count c) + 1)%nat).
      { unfold w2. rewrite length_app. simpl. rewrite length_replicate. lia. }
      split_and!; try done.
      * do 2 f_equal. rewrite Hlen2. change (Z.to_nat 0) with O. lia.
      * rewrite shift_code_eq, code_at_next_bit, Hcode. unfold code_at.
        rewrite <-Hlen2.
        replace (length w + Z.to_nat (AC.m_underflow_count c) + Z.to_nat prob_bits)%nat
          with (length w2 + Z.to_nat (prob_bits - 1))%nat by lia.
        pose proof (window_bound sq (length w2) (Z.to_nat (prob_bits - 1))) as Hwb.
        rewrite Z2Nat.id in Hwb by lia.
        set (x := window sq (length w2) (Z.to_nat (prob_bits - 1))) in *.
        set (beta := Z.b2z (sq (length w2 + Z.to_nat (prob_bits - 1))%nat)).
        assert (0 <= beta <= 1) by apply b2z_range.
        symmetry. apply Z.mod_unique with (Z.b2z (sq (length w))); [lia|].
        destruct (sq (length w)); simpl Z.b2z; lia.
  - intros Hloop Hext Hs'. destruct Har as (? & ? & Hsl & Hsh).
    rewrite Hrd, bind_Some_l. cbn [bs_read1 rd_bits rd_pos].
    set (c2 := AC.set_range (shift_high (Z.lor (AC.m_high c) k_low_bit_val))
                 (shift_low (Z.land (AC.m_low c) k_low_bit_mask))
                 (to_range (AC.m_underflow_count c + 1)) c) in *.
    assert (Hr2 : range_ok c2).
    { unfold range_ok, c2. cbn [AC.set_range AC.m_high AC.m_low]. rewrite Hsl, Hsh. lia. }
    assert (Hu2 : AC.m_underflow_count c2 = AC.m_underflow_count c + 1).
    { unfold c2. cbn [AC.set_range AC.m_underflow_count]. apply to_range_small. lia. }
    assert (Hw2 : AC.m_stream c2 = Some w) by done.
    assert (Hsound2 : sound sq c2).
    { eapply range_code_loop_sound; [exact Hr2|exact Hw2| | |exact Hloop|done|done]; lia. }
    eapply IH; [exact Hr2|exact Hw2|lia|lia| |exact Hloop|done|done].
    destruct Hsound2 as (w' & Hw' & Hrun & _).
    rewrite Hw2 in Hw'. injection Hw' as <-. rewrite Hu2 in Hrun.
    exists w. rewrite Hu2.
    unfold c2. cbn [AC.set_range AC.set_stream AC.m_stream AC.m_underflow_count
        AC.m_high AC.m_low AC.m_probability AC.m_max_syms
        ADC.set_range ADC.set_stream ADC.m_stream ADC.m_code ADC.m_high ADC.m_low
        ADC.m_probability ADC.m_max_syms].
    split_and!; try done.
    + do 2 f_equal. lia.
    + destruct (code_at_split sq (length w) (AC.m_underflow_count c) Hu0) as [E1 E2].
      rewrite shift_code_eq, E2, k_low_bit_val_eq, lxor_pow2 by lia.
      rewrite testbit_low by lia. rewrite Hcode, E1.
      assert (Hnb : sq (length w + Z.to_nat (AC.m_underflow_count c) + 1)%nat
                    = negb (sq (length w))).
      { rewrite <-(Hrun (Z.to_nat (AC.m_underflow_count c) + 1)%nat) by lia.
        f_equal. lia. }
      rewrite Hnb.
      pose proof (window_bound sq (length w + Z.to_nat (AC.m_underflow_count c) + 2)
                    (Z.to_nat (prob_bits - 2))) as Hwb.
      rewrite Z2Nat.id in Hwb by lia.
      set (y := window sq (length w + Z.to_nat (AC.m_underflow_count c) + 2)
                  (Z.to_nat (prob_bits - 2))) in *.
      set (beta := Z.b2z (sq (length w + Z.to_nat (AC.m_underflow_count c)
                              + Z.to_nat prob_bits)%nat)).
      assert (0 <= beta <= 1) by apply b2z_range.
      destruct (sq (length w)); simpl Z.b2z; simpl negb.
      * destruct (Z.leb_spec HALF (1 * HALF + 0 * QUART + y)); [|lia].
        destruct (Z.leb_spec QUART (1 * HALF + 0 * QUART + y - HALF)); [lia|].
        symmetry. apply Z.mod_unique with 1; lia.
      * destruct (Z.leb_spec HALF (0 * HALF + 1 * QUART + y)); [lia|].
        destruct (Z.leb_spec QUART (0 * HALF + 1 * QUART + y)); [|lia].
        symmetry. apply Z.mod_unique with 0; lia.
  - intros [= <- <-] _ _. exists d. split; [done|].
    exists w. split_and!; done.
Qed.

End DecoderFollows.

(** ** A run of symbols *)

Section RoundTrip.
Context {T : coder_types} {Tok : coder_types_ok T}.

(** [decode_symbol] returns the symbol [encode_symbol] was given, and the
    decoder goes on following the encoder. *)
Lemma decode_symbol_follows sq s c d w c1 :
  enc_ok c -> AC.m_stream c = Some w -> 0 <= s < AC.m_max_syms c ->
  AC.m_underflow_count c + prob_bits + 1 < 2 ^ range_bits ->
  follows sq c d ->
  AC.encode_symbol s c = Some c1 ->
  (forall w1, AC.m_stream c1 = Some w1 -> extends sq w1) ->
  sound sq c1 ->
  exists d1, ADC.decode_symbol d = Some (s, d1) /\ follows sq c1 d1.
Proof.
  intros Hok Hw Hs Hu Hfol Henc Hext Hsound. pose proof prob_bits_pos.
  destruct (encode_symbol_step s c w Hok Hw Hs Hu)
    as (cm & k & c' & c1' & tbl & tbl' & Hnar & Hloop & Henc' & Htbl & Hup & -> & Hok1
        & (bits1 & Hw') & Hu' & Hm').
  rewrite Henc in Henc'. injection Henc' as ->.
  destruct (narrow_range_ok s c Hok Hs)
    as (tbl0 & a & b & total & cm0 & Htbl0 & Ha & Hb & Htot & Ha0 & Hab & Hbt & Htt & Hr
        & Hnar0 & Hlm & Hhm & Hrm & Hl1 & Hh1 & Hsm & Hum & Hpm & Hmm & Hfm).
  rewrite Hnar in Hnar0. injection Hnar0 as <-.
  rewrite Htbl in Htbl0. injection Htbl0 as <-.
  pose proof Hok as ((Hlo & Hle & Hhi) & _ & Hu0 & _ & _ & tblx & Htblx & Hmodel).
  rewrite Htbl in Htblx. injection Htblx as <-.
  pose proof Hmodel as (Hcum & Hn & _).
  assert (Hs' : sound sq c') by (by eapply sound_fields; [..|exact Hsound]).
  assert (Hsm' : sound sq cm).
  { eapply range_code_loop_sound; [exact Hrm|by rewrite Hsm| | |exact Hloop| |done].
    - lia.
    - unfold AC.loop_fuel. lia.
    - intros w'' Hw''. apply Hext. simpl. done. }
  destruct Hsm' as (w0 & Hw0 & _ & Hcode).
  rewrite Hsm, Hw in Hw0. injection Hw0 as <-. rewrite Hum in Hcode.
  pose proof Hfol as (w0 & Hw0 & Hrd & Hdc & Hdh & Hdl & Hdp & Hdm).
  rewrite Hw in Hw0. injection Hw0 as <-.
  (* the value the decoder computes *)
  destruct (get_current_prob_spec d total) as [Hp Hpb].
  { lia. }
  { rewrite Hdc, Hdl, Hdh. lia. }
  { rewrite Hdh, k_probability_range_mask_eq, ones_eq. lia. }
  { lia. }
  rewrite Hdh, Hdl, Hdc in Hp, Hpb. specialize (Hpb Hr).
  set (r := AC.m_high c - AC.m_low c + 1) in *.
  set (x := code_at sq (length w) (AC.m_underflow_count c)) in *.
  set (p := ((x - AC.m_low c + 1) * total - 1) / r) in *.
  assert (Hslice : a <= p < b).
  { apply (code_in_slice r total a b (x - AC.m_low c)); lia. }
  assert (Hnr : AC.m_max_syms c + 1 < 2 ^ range_bits).
  { pose proof k_max_range_bounds as [_ Hk2]. pose proof pow_prob_lt_range. lia. }
  destruct (locate_spec _ tbl total p Hcum ltac:(lia) Hnr Htot Hpb)
    as (s0 & a0 & b0 & Hloc & Hs0 & _ & _ & _ & Huniq).
  assert (s = s0) as <- by (by apply (Huniq s a b)).
  (* the range is narrowed as the encoder narrowed it *)
  set (d1 := ADC.set_tmp_range r d) in *.
  pose proof Hnar as Hnar2.
  unfold AC.narrow_range in Hnar2. rewrite Htbl, bind_Some_l in Hnar2.
  destruct (narrow tbl (AC.m_max_syms c) s (AC.m_high c) (AC.m_low c))
    as [[[r0 hi0] lo0]|] eqn:Hnarrow; [|done].
  rewrite bind_Some_l in Hnar2. injection Hnar2 as Hcm.
  set (dm := ADC.set_range hi0 lo0 (ADC.m_code d1) (ADC.set_tmp_range r0 d1)).
  assert (Hdn : ADC.narrow_range s d1 = Some dm).
  { unfold ADC.narrow_range, dm, d1.
    cbn [ADC.set_tmp_range ADC.m_probability ADC.m_max_syms ADC.m_high ADC.m_low
         ADC.m_code].
    rewrite Hdp, Htbl, bind_Some_l, Hdm, Hdh, Hdl, Hnarrow. done. }
  assert (Hfm' : follows sq cm dm).
  { exists w. rewrite Hsm, Hum, Hpm, Hmm. unfold dm, d1.
    cbn [ADC.set_range ADC.set_tmp_range ADC.m_stream ADC.m_code ADC.m_high ADC.m_low
         ADC.m_probability ADC.m_max_syms].
    rewrite <-Hcm. cbn [AC.set_range AC.m_high AC.m_low].
    split_and!; done. }
  assert (Hext' : forall w'', AC.m_stream c' = Some w'' -> extends sq w'').
  { intros w'' Hw''. apply Hext. simpl. done. }
  destruct (remove_range_loop_follows sq AC.loop_fuel 0 cm dm w k c')
    as (d' & Hrem & Hfol');
    [exact Hrm|by rewrite Hsm|lia|unfold AC.loop_fuel; lia|exact Hfm'|exact Hloop
    |exact Hext'|exact Hs'|].
  destruct (remove_range_loop_frame _ _ _ Hrem) as (Hp2 & Hm2 & _).
  pose proof Hfol' as (w2 & Hw2 & Hrd2 & Hdc2 & Hdh2 & Hdl2 & Hdp2 & Hdm2).
  exists (ADC.set_probability tbl' d'). split.
  - unfold ADC.decode_symbol.
    rewrite Hdp, Htbl, bind_Some_l, Hdm, Htot, bind_Some_l, Hp, bind_Some_l.
    cbv beta iota. fold d1. rewrite Hloc, bind_Some_l.
    unfold ADC.remove_range. rewrite Hdn, bind_Some_l.
    change ADC.loop_fuel with AC.loop_fuel. rewrite Hrem, bind_Some_l.
    rewrite Hp2. unfold dm at 1. cbn [ADC.set_range ADC.set_tmp_range ADC.m_probability].
    unfold d1 at 1. cbn [ADC.set_tmp_range ADC.m_probability].
    rewrite Hdp, Htbl, bind_Some_l.
    rewrite Hm2. unfold dm at 1. cbn [ADC.set_range ADC.set_tmp_range ADC.m_max_syms].
    unfold d1 at 1. cbn [ADC.set_tmp_range ADC.m_max_syms].
    rewrite Hdm, Hup. done.
  - exists w2. cbn [AC.set_probability AC.m_stream AC.m_underflow_count AC.m_high
      AC.m_low AC.m_probability AC.m_max_syms ADC.set_probability ADC.m_stream
      ADC.m_code ADC.m_high ADC.m_low ADC.m_probability ADC.m_max_syms].
    split_and!; done.
Qed.

(** A run of [decode_symbol] calls returns the symbols of the run of
    [encode_symbol] calls that, with [flush], wrote the start of the
    sequence read. *)
Lemma decode_symbols_follow sq syms c d w c_end w_fin :
  enc_ok c -> AC.m_stream c = Some w ->
  Forall (fun s => 0 <= s < AC.m_max_syms c) syms ->
  AC.m_underflow_count c + Z.of_nat (length syms) * (prob_bits + 1) + 1 < 2 ^ range_bits ->
  follows sq c d ->
  encode_symbols syms c = Some c_end ->
  AC.m_stream (AC.flush false c_end).2 = Some w_fin ->
  extends sq w_fin ->
  exists d', decode_symbols (length syms) d = Some (syms, d').
Proof.
  revert c d w. induction syms as [|s syms IH]; intros c d w Hok Hw Hval Hu Hfol Henc Hfl Hext.
  - exists d. done.
  - pose proof (Forall_inv Hval) as Hs. apply Forall_inv_tail in Hval.
    simpl in Hs. pose proof prob_bits_pos.
    rewrite length_cons, Nat2Z.inj_succ in Hu.
    pose proof Hok as (_ & _ & Hu0 & _).
    destruct (encode_symbol_step s c w Hok Hw Hs ltac:(nia))
      as (cm & k & c' & c1 & tbl & tbl' & Hnar & Hloop & Henc1 & Htbl & Hup & Hc1 & Hok1
          & (bits1 & Hw') & Hu' & Hm').
    cbn [encode_symbols] in Henc. rewrite Henc1, bind_Some_l in Henc.
    assert (Hw1 : AC.m_stream c1 = Some (w ++ bits1)) by (by rewrite Hc1).
    assert (Hm1 : AC.m_max_syms c1 = AC.m_max_syms c) by (by rewrite Hc1).
    assert (Hu1 : AC.m_underflow_count c1 = AC.m_underflow_count c') by (by rewrite Hc1).
    destruct (encode_symbols_sound sq syms c1 (w ++ bits1) Hok1 Hw1)
      as (c_end' & w_fin' & bits2 & Hencs & Hfl' & Hwf & Hsound).
    { by rewrite Hm1. }
    { rewrite Hu1. nia. }
    rewrite Henc in Hencs. injection Hencs as <-.
    rewrite Hfl in Hfl'. injection Hfl' as <-.
    destruct (decode_symbol_follows sq s c d w c1 Hok Hw Hs ltac:(nia) Hfol Henc1)
      as (d1 & Hdec & Hfol1).
    { intros w1 Hw1'. rewrite Hw1 in Hw1'. injection Hw1' as <-.
      rewrite Hwf in Hext. by apply extends_app in Hext. }
    { by apply Hsound. }
    destruct (IH c1 d1 (w ++ bits1) Hok1 Hw1) as (d' & Hdecs); try done.
    { by rewrite Hm1. }
    { rewrite Hu1. nia. }
    exists d'. cbn [decode_symbols length]. rewrite Hdec, bind_Some_l.
    cbv beta iota. rewrite Hdecs. done.
Qed.

End RoundTrip.

(** ** The driver *)

Lemma byte_val_range b : 0 <= byte_val b < 256.
Proof. unfold byte_val. pose proof (Byte.to_N_bounded b). lia. Qed.

Section Driver.
Context {T : coder_types} {Tok : coder_types_ok T}.

Lemma enc_init_ok n :
  1 <= n < k_max_range ->
  let c0 := (AC.init n (Some []) AC.new).2 in
  enc_ok c0 /\ AC.m_stream c0 = Some [] /\ AC.m_underflow_count c0 = 0 /\
  AC.m_max_syms c0 = n.
Proof.
  intros Hn. cbv zeta. unfold AC.init, AC.flush. cbn [AC.new AC.m_stream snd].
  destruct (Z.eqb_spec n 0); [lia|]. cbn [snd].
  pose proof k_max_range_bounds as [Hk1 Hk2].
  pose proof half_quarter as (HH & HW & HQ64). pose proof pow_prob_pos.
  rewrite all_ones_eq.
  split_and!; try done.
  unfold enc_ok, range_ok. cbn [AC.m_high AC.m_low AC.m_underflow_count AC.m_flushed
    AC.m_stream AC.m_probability AC.m_max_syms].
  assert (Hr : 0 <= 0 /\ 0 <= 2 ^ prob_bits - 1 /\ 2 ^ prob_bits - 1 < 2 ^ prob_bits) by lia.
  split_and!; try done; try lia.
  - destruct Hr as (H1 & H2 & H3). pose proof (renorm_arith _ _ H1 H2 H3) as Har.
    destruct (renorm_case _ _); [lia|lia|done].
  - exists (uniform_model n). split; [done|]. split_and!; [|lia|lia|].
    + apply uniform_model_cumulative; lia.
    + exists n. split; [|lia].
      rewrite uniform_model_lookup by lia. f_equal. lia.
Qed.

Lemma load_code_spec sq (n : nat) cd (pos : nat) :
  0 <= cd -> cd * 2 ^ Z.of_nat n + 2 ^ Z.of_nat n <= 2 ^ range_bits ->
  ADC.load_code n cd {| rd_bits := sq; rd_pos := pos |}
  = (cd * 2 ^ Z.of_nat n + window sq pos n, {| rd_bits := sq; rd_pos := pos + n |}).
Proof.
  revert cd pos. induction n as [|n IH]; intros cd pos Hcd Hb.
  - simpl. rewrite Nat.add_0_r. f_equal. lia.
  - cbn [ADC.load_code bs_read1 rd_bits rd_pos].
    rewrite Nat2Z.inj_succ, Z.pow_succ_r in Hb by lia.
    assert (0 < 2 ^ Z.of_nat n) by (apply Z.pow_pos_nonneg; lia).
    assert (Hlor : Z.lor (to_range (Z.shiftl cd 1)) (Z.b2z (sq pos)) = 2 * cd + Z.b2z (sq pos)).
    { rewrite Z.shiftl_mul_pow2 by lia. change (2 ^ 1) with 2.
      rewrite to_range_small by nia.
      destruct (sq pos); simpl Z.b2z; [|rewrite Z.lor_0_r; lia].
      change 1 with (2 ^ 0) at 1. rewrite lor_pow2_clear; [lia|lia|].
      replace (cd * 2) with (2 * cd) by lia. apply Z.testbit_even_0. }
    rewrite Hlor, IH.
    + rewrite window_front, Nat2Z.inj_succ, Z.pow_succ_r by lia.
      f_equal; [lia|]. f_equal. lia.
    + pose proof (b2z_range (sq pos)). lia.
    + pose proof (b2z_range (sq pos)). nia.
Qed.

Lemma dec_init_follows sq n d0 :
  1 <= n < k_max_range ->
  follows sq (AC.init n (Some []) AC.new).2
    (ADC.init n (Some (reader_of sq)) d0).2.
Proof.
  intros Hn. pose proof prob_bits_pos.
  unfold AC.init, AC.flush, ADC.init. cbn [AC.new AC.m_stream snd reader_of].
  destruct (Z.eqb_spec n 0); [lia|]. cbn [snd].
  rewrite k_max_bits_eq.
  rewrite (load_code_spec sq (Z.to_nat prob_bits) 0 0); [|lia|].
  2:{ rewrite Z2Nat.id by lia. pose proof prob_lt_range. lia. }
  cbn [snd].
  exists []. cbn [AC.m_stream AC.m_underflow_count AC.m_high AC.m_low AC.m_probability
    AC.m_max_syms ADC.m_stream ADC.m_code ADC.m_high ADC.m_low ADC.m_probability
    ADC.m_max_syms length].
  split_and!; try done.
  unfold code_at. change (Z.to_nat 0) with O. cbn [Nat.add].
  replace (Z.to_nat prob_bits) with (S (Z.to_nat (prob_bits - 1))) by lia.
  rewrite window_front, Z2Nat.id by lia. lia.
Qed.

Lemma encode_symbols_app l1 l2 c :
  encode_symbols (l1 ++ l2) c = c1 ← encode_symbols l1 c; encode_symbols l2 c1.
Proof.
  revert c. induction l1 as [|s l1 IH]; intros c; [done|].
  cbn [app encode_symbols]. destruct (AC.encode_symbol s c); [|done].
  rewrite !bind_Some_l. apply IH.
Qed.

Lemma decode_symbols_S n d :
  decode_symbols (S n) d
  = '(s, d1) ← ADC.decode_symbol d;
    '(l, d2) ← decode_symbols n d1; Some (s :: l, d2).
Proof. reflexivity. Qed.

Lemma decode_loop_S fuel d :
  decode_loop (S fuel) d
  = '(symbol, d1) ← ADC.decode_symbol d;
    if symbol =? 256 then Some []
    else out ← decode_loop fuel d1; Some (symbol :: out).
Proof. reflexivity. Qed.

(** The loop of the driver stops at the first 256. *)
Lemma decode_loop_stops (l : list Z) d d' (fuel : nat) :
  Forall (fun s => s <> 256) l ->
  decode_symbols (S (length l)) d = Some (l ++ [256], d') ->
  (length l < fuel)%nat ->
  decode_loop fuel d = Some l.
Proof.
  revert d fuel. induction l as [|s l IH]; intros d fuel Hne Hdec Hfuel;
    (destruct fuel as [|fuel]; [simpl in Hfuel; lia|]);
    rewrite decode_symbols_S in Hdec; rewrite decode_loop_S;
    destruct (ADC.decode_symbol d) as [[s0 d1]|]; try done;
    rewrite bind_Some_l in Hdec; rewrite bind_Some_l; cbv beta iota in *;
    destruct (decode_symbols _ d1) as [[l0 d2]|] eqn:Hrest; try done;
    rewrite bind_Some_l in Hdec; cbv beta iota in Hdec;
    simplify_eq/=.
  - done.
  - pose proof (Forall_inv Hne) as Hs. apply Forall_inv_tail in Hne.
    destruct (Z.eqb_spec s 256); [done|].
    rewrite (IH d1 fuel Hne Hrest); [done|lia].
Qed.

(** C1, the adaptive round trip.  For every list of bytes [B], the encoder
    of the driver (257 symbols, uniform model) that encodes the bytes of
    [B], then the symbol 256, and flushes, does so without undefined
    behaviour and leaves a bit stream [w]; a decoder initialised with 257
    symbols on any bit sequence that starts with [w] decodes exactly the
    symbols of [B] followed by 256, and the loop of the driver returns [B].
    The counters are taken to have 11 bits or more, as an alphabet of 257
    symbols needs, and [B] to be shorter than
    [2 ^ (range_bits - prob_bits)] bytes, which keeps the underflow counter
    within its type; for [<uint32_t, uint64_t>] that is the 32-bit file size
    of the driver. *)
Theorem adaptive_round_trip (B : list byte) :
  11 <= prob_bits ->
  Z.of_nat (length B) < 2 ^ (range_bits - prob_bits) ->
  exists w,
    encode B = Some w /\
    forall (sq : nat -> bool) (d0 : ADC.scalable_adc_c),
      extends sq w ->
      (exists d',
         decode_symbols (S (length B)) (ADC.init (256 + 1) (Some (reader_of sq)) d0).2
         = Some ((byte_val <$> B) ++ [256], d')) /\
      (forall fuel, (length B < fuel)%nat ->
         decode fuel d0 sq = Some (byte_val <$> B)).
Proof.
  intros Hpb Hlen. pose proof prob_bits_pos. pose proof range_bits_big.
  assert (Hk : 1 <= 256 + 1 < k_max_range).
  { rewrite k_max_range_eq. change (256 + 1) with 257.
    assert (2 ^ 9 <= 2 ^ (prob_bits - 2)) by (apply Z.pow_le_mono_r; lia).
    change (2 ^ 9) with 512 in *. lia. }
  destruct (enc_init_ok (256 + 1) Hk) as (Hok & Hw & Hu & Hm).
  set (c0 := (AC.init (256 + 1) (Some []) AC.new).2) in *.
  set (syms := (byte_val <$> B) ++ [256]).
  assert (Hval : Forall (fun s => 0 <= s < AC.m_max_syms c0) syms).
  { rewrite Hm. apply Forall_app. split.
    - apply Forall_fmap, Forall_forall. intros b _. simpl.
      pose proof (byte_val_range b). lia.
    - repeat constructor; lia. }
  assert (Hlsyms : length syms = S (length B)).
  { unfold syms. rewrite length_app, length_fmap. simpl. lia. }
  assert (Hbudget : AC.m_underflow_count c0
                    + Z.of_nat (length syms) * (prob_bits + 1) + 1 < 2 ^ range_bits).
  { rewrite Hu, Hlsyms, Nat2Z.inj_succ.
    assert (Hsplit : 2 ^ range_bits = 2 ^ (range_bits - prob_bits) * 2 ^ prob_bits).
    { rewrite <-Z.pow_add_r by lia. f_equal. lia. }
    assert (Hlin : 2 * prob_bits <= 2 ^ prob_bits).
    { replace prob_bits with (1 + (prob_bits - 1)) at 2 by lia.
      rewrite Z.pow_add_r by lia. change (2 ^ 1) with 2.
      pose proof (Z.pow_gt_lin_r 2 (prob_bits - 1) ltac:(lia)). lia. }
    assert (0 < 2 ^ (range_bits - prob_bits)) by (apply Z.pow_pos_nonneg; lia).
    nia. }
  destruct (encode_symbols_sound (fun _ => false) syms c0 [] Hok Hw Hval Hbudget)
    as (c_end & w_fin & bits & Hencs & Hfl & _ & _).
  exists w_fin. split.
  - unfold encode. fold c0. unfold syms in Hencs.
    rewrite encode_symbols_app in Hencs.
    destruct (encode_symbols (byte_val <$> B) c0) as [c1|]; [|done].
    rewrite bind_Some_l in Hencs. rewrite bind_Some_l. cbn [encode_symbols] in Hencs.
    destruct (AC.encode_symbol 256 c1) as [c2|]; [|done].
    rewrite bind_Some_l in Hencs. rewrite bind_Some_l. injection Hencs as ->. done.
  - intros sq d0 Hext.
    pose proof (dec_init_follows sq (256 + 1) d0 Hk) as Hfol. fold c0 in Hfol.
    destruct (decode_symbols_follow sq syms c0 _ [] c_end w_fin Hok Hw Hval Hbudget
                Hfol Hencs Hfl Hext) as (d' & Hdec).
    rewrite Hlsyms in Hdec.
    split; [by exists d'|].
    intros fuel Hfuel. unfold decode.
    apply (decode_loop_stops _ _ d').
    + apply Forall_fmap, Forall_forall. intros b _. simpl.
      pose proof (byte_val_range b). lia.
    + by rewrite length_fmap.
    + by rewrite length_fmap.
Qed.

End Driver.

(** ** The statements at [<uint32_t, uint64_t>] *)

Lemma extends_padded w : extends (padded w) w.
Proof. intros i b H. unfold padded. by rewrite H. Qed.

Section Instances_u32_u64.
#[local] Existing Instance u32_u64.
#[local] Existing Instance u32_u64_ok.

(** C1 on the file of the two bytes [AB]. *)
Lemma adaptive_round_trip_witness :
  exists w, encode [x41; x42] = Some w /\
    decode 3 adc_new (padded w) = Some [65; 66].
Proof.
  destruct (adaptive_round_trip [x41; x42]) as (w & Henc & Hdec).
  - simpl. lia.
  - simpl. lia.
  - exists w. split; [exact Henc|].
    destruct (Hdec (padded w) adc_new (extends_padded w)) as [_ Hloop].
    apply (Hloop 3%nat). simpl. lia.
Defined.

(** C4 on a decoder just initialised: the code is 0 and so are [p] and
    the symbol. *)
Lemma decode_symbol_locates_witness :
  exists d', ADC.decode_symbol dec3 = Some (0, d').
Proof.
  destruct (decode_symbol_locates dec3 [0; 1; 2; 3] 3 3)
    as (p & s & a & b & d1 & d' & Hp & Hpv & _ & _ & Hdec & Hs & Ha & Hb & Hab & _).
  - reflexivity.
  - reflexivity.
  - vm_compute. eauto.
  - lia.
  - split_and!; [lia|done| |done|].
    + repeat constructor; simpl; lia.
    + intros [|[|[|[|i]]]] x y Hx Hy; simpl in *; simplify_eq; lia.
  - reflexivity.
  - vm_compute. discriminate.
  - vm_compute. split; discriminate.
  - vm_compute. discriminate.
  - vm_compute. discriminate.
  - exists d'. rewrite Hdec. do 2 f_equal.
    vm_compute in Hpv. subst p.
    assert (Hs3 : s = 0 \/ s = 1 \/ s = 2) by lia.
    clear Hdec Hp.
    destruct Hs3 as [->|[->| ->]]; [done|..];
      vm_compute in Ha; injection Ha as <-; lia.
Defined.

(** C5 on a decoder whose code lies above [high]: the last symbol is
    returned. *)
Lemma decode_symbol_reports_nothing_witness :
  let state : ADC.scalable_adc_state_t :=
    {| ADC.high := 100; ADC.low := 0; ADC.tmp_range := 0; ADC.max_syms := 3;
       ADC.code := 200; ADC.probability := [0; 1; 2; 3] |} in
  exists d d', ADC.restore_state state false dec3 = Some (true, d) /\
    ADC.decode_symbol d = Some (2, d').
Proof.
  intros state.
  set (d := ADC.set_range 100 0 200 dec3).
  assert (Hr : ADC.restore_state state false dec3 = Some (true, d))
    by (vm_compute; reflexivity).
  assert (Hp : exists d1, ADC.get_current_prob 3 d = Some (5, d1))
    by (vm_compute; eauto).
  destruct Hp as [d1 Hp].
  destruct (decode_symbol_reports_nothing d d1 [0; 1; 2; 3] 3 3 5)
    as (s & d' & Hdec & _ & Hlast & _).
  - reflexivity.
  - reflexivity.
  - reflexivity.
  - lia.
  - simpl. lia.
  - vm_compute. eauto.
  - reflexivity.
  - lia.
  - exact Hp.
  - exists d, d'. split; [exact Hr|]. rewrite Hdec.
    rewrite (Hlast 2 eq_refl); [done|lia].
Defined.

(** C6 on an encoder just initialised. *)
Lemma estimate_cost_agrees_witness :
  exists cost ce bits,
    AC.estimate_cost 0 enc3 = Some (cost, ce) /\
    AC.encode_symbol 0 enc3 = Some (AC.set_stream bits ce) /\
    cost = Z.of_nat (length bits).
Proof.
  pose proof (estimate_cost_agrees 0 enc3 [] eq_refl) as H.
  destruct (AC.estimate_cost 0 enc3) as [[cost ce]|] eqn:He;
    [|vm_compute in He; discriminate].
  destruct H as (bits & Henc & _ & _ & Hcost).
  - vm_compute. split; [discriminate|reflexivity].
  - exists cost, ce, bits. split_and!; [done|exact Henc|].
    apply Hcost. vm_compute. done.
Defined.

(** C7 on a bracket that estimates costs and expands the alphabet. *)
Lemma snapshot_neutrality_witness :
  bracket [CallCost 0; CallCostBuf [1; 2; 0] 100; CallExpand 5; CallCost 4] enc3
  = Some enc3.
Proof.
  destruct (run_calls [CallCost 0; CallCostBuf [1; 2; 0] 100; CallExpand 5; CallCost 4]
              enc3) as [c1|] eqn:Hrun; [|vm_compute in Hrun; discriminate].
  apply (snapshot_neutrality
           [CallCost 0; CallCostBuf [1; 2; 0] 100; CallExpand 5; CallCost 4] enc3 c1);
    [|vm_compute; reflexivity|exact Hrun].
  split; [vm_compute; discriminate|]. exists [0; 1; 2; 3].
  split; vm_compute; reflexivity.
Defined.

(** C8 on the first symbol of an encoder just initialised. *)
Lemma renormalisation_progress_witness :
  exists n r,
    Z.of_nat n <= 32 /\
    AC.range_code 0 false enc3 = Some r /\
    forall c1, AC.narrow_range 0 enc3 = Some c1 ->
      exits_after (fun fuel => AC.range_code_loop fuel false 0 c1) n r.
Proof.
  destruct (@renormalisation_progress u32_u64 u32_u64_ok) as [Henc _].
  destruct (AC.narrow_range 0 enc3) as [c1|] eqn:Hn;
    [|vm_compute in Hn; discriminate].
  destruct (Henc 0 false enc3 c1 Hn) as (n & r & Hle & Hex & Hrc).
  - right. vm_compute. eauto.
  - exists n, r. split_and!; [exact Hle|exact Hrc|].
    intros c1' Hc1. by simplify_eq.
Defined.

(** C9 on an encoder just initialised: the first [flush] writes two bits,
    the following ones nothing. *)
Lemma flush_idempotent_witness :
  let c1 := (AC.flush false enc3).2 in
  AC.m_stream c1 = Some [false; true] /\
  AC.flush false c1 = (false, c1) /\
  (AC.flush false (AC.flush false c1).2).2 = c1.
Proof.
  intros c1. split; [reflexivity|].
  destruct (flush_idempotent false enc3 [] 2 eq_refl) as [H1 H2].
  split; [exact H1|exact H2].
Defined.

End Instances_u32_u64.

(** * Further properties of the code *)

(** ** The decoder on an arbitrary stream *)

(** The converse of [code_in_slice]: a code whose value [p] falls in the
    slice [[a, b)] lies within the bounds narrowed to that slice. *)
Lemma slice_of_code r total a b x :
  0 < total -> 0 < r -> 0 <= x -> 0 <= a ->
  a <= ((x + 1) * total - 1) / r < b ->
  r * a / total <= x <= r * b / total - 1.
Proof.
  intros Ht Hr Hx Ha [Hap Hpb].
  set (m := (x + 1) * total - 1) in *.
  assert (Hdiv : r * (m / r) <= m < r * (m / r) + r).
  { pose proof (Z.mul_div_le m r Hr). pose proof (Z.mul_succ_div_gt m r Hr). lia. }
  split.
  - assert (r * a / total < x + 1); [|lia].
    apply Z.div_lt_upper_bound; [done|]. nia.
  - assert (x + 1 <= r * b / total); [|lia].
    apply Z.div_le_lower_bound; [done|]. nia.
Qed.

Section DecoderAlone.
Context {T : coder_types} {Tok : coder_types_ok T}.

Local Notation "'HALF'" := (2 ^ (prob_bits - 1)) (only parsing).
Local Notation "'QUART'" := (2 ^ (prob_bits - 2)) (only parsing).

(** Bounds that need no pass are more than a quarter of the scale apart. *)
Lemma leave_wide hi lo :
  0 <= lo -> lo <= hi -> hi < 2 ^ prob_bits -> renorm_case hi lo = Leave ->
  QUART + 2 <= hi - lo + 1.
Proof.
  intros Hlo Hle Hhi Hcase.
  pose proof (renorm_arith _ _ Hlo Hle Hhi) as Har. rewrite Hcase in Har.
  pose proof half_quarter as (HH & HW & HQ64). lia.
Qed.

(** The loop of [remove_range] on any bits: the code register stays
    within the bounds, and the reader moves on by one bit per pass, fewer
    passes than the fuel. *)
Lemma remove_range_loop_keeps fuel d r d' :
  0 <= ADC.m_low d -> ADC.m_low d <= ADC.m_code d <= ADC.m_high d ->
  ADC.m_high d < 2 ^ prob_bits ->
  ADC.m_stream d = Some r ->
  ADC.remove_range_loop fuel d = Some d' ->
  (0 <= ADC.m_low d' /\ ADC.m_low d' <= ADC.m_code d' <= ADC.m_high d' /\
   ADC.m_high d' < 2 ^ prob_bits) /\
  renorm_case (ADC.m_high d') (ADC.m_low d') = Leave /\
  exists k : nat, (k < fuel)%nat /\ ADC.m_stream d' = Some (advance k r).
Proof.
  revert d r. induction fuel as [|fuel IH]; intros d r Hlo Hcode Hhi Hrd; [done|].
  cbn [ADC.remove_range_loop].
  assert (Hle : ADC.m_low d <= ADC.m_high d) by lia.
  pose proof (renorm_arith _ _ Hlo Hle Hhi) as Har.
  pose proof half_quarter as (HH & HW & HQ64). pose proof prob_bits_pos.
  destruct (renorm_case (ADC.m_high d) (ADC.m_low d)) eqn:Hcase.
  - rewrite Hrd, bind_Some_l. cbn [bs_read1 fst snd]. intros Hloop.
    set (beta := rd_bits r (rd_pos r)) in *.
    pose proof (b2z_range beta) as Hbeta.
    eapply IH in Hloop; [| | | |reflexivity];
      cbn [ADC.set_stream ADC.set_range ADC.m_low ADC.m_high ADC.m_code ADC.m_stream]
        in *.
    + destruct Hloop as ((? & [? ?] & ?) & Hl & k & Hk & Hst). split_and!; try done.
      exists (S k). split; [lia|]. rewrite Hst. unfold advance. simpl.
      do 2 f_equal. lia.
    + destruct Har as [(? & _ & -> & _)|(? & _ & -> & _)]; lia.
    + rewrite shift_code_eq.
      destruct Har as [(? & _ & -> & ->)|(? & _ & -> & ->)].
      * rewrite Z.mod_small by lia. lia.
      * replace ((2 * ADC.m_code d + Z.b2z beta) mod 2 ^ prob_bits)
          with (2 * (ADC.m_code d - HALF) + Z.b2z beta); [lia|].
        apply Z.mod_unique with 1; lia.
    + destruct Har as [(? & _ & _ & ->)|(? & _ & _ & ->)]; lia.
  - rewrite Hrd, bind_Some_l. cbn [bs_read1 fst snd]. intros Hloop.
    set (beta := rd_bits r (rd_pos r)) in *.
    pose proof (b2z_range beta) as Hbeta.
    destruct Har as (Hl1 & Hh1 & Hsl & Hsh).
    assert (Hx : (2 * Z.lxor (ADC.m_code d) k_low_bit_val + Z.b2z beta) mod 2 ^ prob_bits
                 = 2 * (ADC.m_code d - QUART) + Z.b2z beta).
    { rewrite k_low_bit_val_eq, lxor_pow2 by lia. rewrite testbit_low by lia.
      destruct (Z.leb_spec HALF (ADC.m_code d)).
      - destruct (Z.leb_spec QUART (ADC.m_code d - HALF)); [lia|].
        symmetry. apply Z.mod_unique with 1; lia.
      - destruct (Z.leb_spec QUART (ADC.m_code d)); [|lia].
        symmetry. apply Z.mod_unique with 0; lia. }
    eapply IH in Hloop; [| | | |reflexivity];
      cbn [ADC.set_stream ADC.set_range ADC.m_low ADC.m_high ADC.m_code ADC.m_stream]
        in *.
    + destruct Hloop as ((? & [? ?] & ?) & Hl & k & Hk & Hst). split_and!; try done.
      exists (S k). split; [lia|]. rewrite Hst. unfold advance. simpl.
      do 2 f_equal. lia.
    + rewrite Hsl. lia.
    + rewrite shift_code_eq, Hx, Hsl, Hsh. lia.
    + rewrite Hsh. lia.
  - intros [= <-]. split_and!; try done; try lia.
    exists O. split; [lia|]. rewrite Hrd. unfold advance. destruct r; simpl.
    do 2 f_equal. lia.
Qed.

(** [init] leaves a decoder that satisfies [dec_ok], whatever the stream
    holds. *)
Lemma dec_init_ok n r d0 :
  1 <= n < k_max_range -> dec_ok (ADC.init n (Some r) d0).2.
Proof.
  intros Hn. unfold ADC.init. destruct (Z.eqb_spec n 0); [lia|].
  pose proof prob_bits_pos. pose proof k_max_range_bounds as [Hk1 Hk2].
  pose proof half_quarter as (HH & HW & HQ64). pose proof pow_prob_pos.
  rewrite k_max_bits_eq. destruct r as [sq pos].
  rewrite (load_code_spec sq (Z.to_nat prob_bits) 0 pos); [|lia|].
  2:{ rewrite Z2Nat.id by lia. pose proof prob_lt_range. lia. }
  cbn [snd]. rewrite all_ones_eq.
  pose proof (window_bound sq pos (Z.to_nat prob_bits)) as Hwb.
  rewrite Z2Nat.id in Hwb by lia.
  unfold dec_ok. cbn [ADC.m_low ADC.m_high ADC.m_code ADC.m_stream ADC.m_probability
    ADC.m_max_syms].
  split_and!; try lia.
  - assert (Hr : 0 <= 0 /\ 0 <= 2 ^ prob_bits - 1 /\ 2 ^ prob_bits - 1 < 2 ^ prob_bits)
      by lia.
    destruct Hr as (H1 & H2 & H3). pose proof (renorm_arith _ _ H1 H2 H3) as Har.
    destruct (renorm_case _ _); [lia|lia|done].
  - eauto.
  - exists (uniform_model n). split; [done|]. split_and!; [|lia|lia|].
    + apply uniform_model_cumulative; lia.
    + exists n. split; [|lia].
      rewrite uniform_model_lookup by lia. f_equal. lia.
Qed.

(** The state [init] of the decoder leaves: [prob_bits] bits read into
    the code register, first bit on top. *)
Lemma adc_init_state n r d0 :
  n <> 0 ->
  ADC.init n (Some r) d0
  = (true,
     {| ADC.m_stream := Some (advance (Z.to_nat prob_bits) r);
        ADC.m_high := 2 ^ prob_bits - 1; ADC.m_low := 0; ADC.m_tmp_range := 0;
        ADC.m_max_syms := n;
        ADC.m_code := window (rd_bits r) (rd_pos r) (Z.to_nat prob_bits);
        ADC.m_probability := Some (uniform_model n) |}).
Proof.
  intros Hn. pose proof prob_bits_pos.
  unfold ADC.init. destruct (Z.eqb_spec n 0); [done|].
  rewrite k_max_bits_eq. destruct r as [sq pos].
  rewrite (load_code_spec sq (Z.to_nat prob_bits) 0 pos); [|lia|].
  2:{ rewrite Z2Nat.id by lia. pose proof prob_lt_range. lia. }
  by rewrite all_ones_eq.
Qed.

(** One [decode_symbol] from a decoder that satisfies [dec_ok]: it is
    defined, returns a symbol of the alphabet, reads at most [prob_bits]
    bits, and leaves a decoder that satisfies [dec_ok]. *)
Lemma decode_symbol_keeps d r :
  dec_ok d -> ADC.m_stream d = Some r ->
  exists s d' (k : nat),
    ADC.decode_symbol d = Some (s, d') /\ 0 <= s < ADC.m_max_syms d /\
    dec_ok d' /\ ADC.m_max_syms d' = ADC.m_max_syms d /\
    Z.of_nat k <= prob_bits /\ ADC.m_stream d' = Some (advance k r).
Proof.
  intros (Hlo & Hcode & Hhi & Hcase & _ & tbl & Htbl & Hmodel) Hrd.
  pose proof prob_bits_pos. pose proof k_max_range_bounds as [Hk1 Hk2].
  pose proof half_quarter as (HH & HW & HQ64). pose proof pow_prob_lt_range.
  pose proof Hmodel as (Hcum & Hn & total & Htot & Htk).
  set (n := ADC.m_max_syms d) in *.
  assert (Hle : ADC.m_low d <= ADC.m_high d) by lia.
  pose proof (leave_wide _ _ Hlo Hle Hhi Hcase) as Hwide.
  assert (Htotal : n <= total).
  { destruct Hcum as (_ & _ & _ & Hz & Hinc).
    pose proof (increasing_gap tbl O (Z.to_nat n) 0 total Hinc ltac:(lia) Hz Htot). lia. }
  destruct (get_current_prob_spec d total Hlo Hcode) as [Hp Hpb].
  { rewrite k_probability_range_mask_eq, ones_eq. lia. }
  { lia. }
  specialize (Hpb ltac:(lia)).
  set (r0 := ADC.m_high d - ADC.m_low d + 1) in *.
  set (p := ((ADC.m_code d - ADC.m_low d + 1) * total - 1) / r0) in *.
  destruct (locate_spec n tbl total p Hcum ltac:(lia) ltac:(lia) Htot Hpb)
    as (s & a & b & Hloc & Hs & Ha & Hb & Hab & _).
  assert (Ha0 : 0 <= a).
  { destruct Hcum as (_ & _ & Hty & _). pose proof (typed_lookup _ _ _ Hty Ha). lia. }
  assert (Hbt : b <= total).
  { destruct Hcum as (_ & _ & _ & _ & Hinc).
    apply (increasing_le tbl (Z.to_nat (s + 1)) (Z.to_nat n)); [done|lia|done|done]. }
  destruct (narrow_spec tbl n s (ADC.m_high d) (ADC.m_low d) a b total)
    as (Hnar & Hl1 & Hlh & Hh1); try done; try lia.
  fold r0 in Hnar, Hl1, Hlh, Hh1.
  destruct (slice_of_code r0 total a b (ADC.m_code d - ADC.m_low d)) as [Hc1 Hc2];
    try lia.
  set (d1 := ADC.set_tmp_range r0 d) in *.
  set (dm := ADC.set_range (ADC.m_low d + r0 * b / total - 1)
               (ADC.m_low d + r0 * a / total) (ADC.m_code d) (ADC.set_tmp_range r0 d1)).
  assert (Hdn : ADC.narrow_range s d1 = Some dm).
  { unfold ADC.narrow_range, dm, d1.
    cbn [ADC.set_tmp_range ADC.m_probability ADC.m_max_syms ADC.m_high ADC.m_low
         ADC.m_code].
    rewrite Htbl, bind_Some_l. fold n. rewrite Hnar. done. }
  destruct (remove_range_exits s d1 dm Hdn) as (m & d2 & Hm & Hex & Hrem).
  { unfold d1. simpl. rewrite Hrd. eauto. }
  assert (Hloop : ADC.remove_range_loop ADC.loop_fuel dm = Some d2).
  { apply (exits_after_fuel _ _ _ _ Hex). unfold ADC.loop_fuel. lia. }
  destruct (remove_range_loop_keeps ADC.loop_fuel dm r d2) as (Hb2 & Hcase2 & k & Hk & Hst2);
    try done;
    try (unfold dm, d1; cbn [ADC.set_range ADC.set_tmp_range ADC.m_low ADC.m_high
           ADC.m_code ADC.m_stream]; lia).
  destruct (remove_range_loop_frame _ _ _ Hloop) as (Hp2 & Hm2 & _).
  unfold dm at 1 in Hp2. unfold dm at 1 in Hm2. unfold d1 in Hp2, Hm2.
  cbn [ADC.set_range ADC.set_tmp_range ADC.m_probability ADC.m_max_syms] in Hp2, Hm2.
  destruct (update_model_ok n s tbl Hmodel Hs) as (tbl' & Hup & Hmodel').
  exists s, (ADC.set_probability tbl' d2), k. split_and!.
  - unfold ADC.decode_symbol. rewrite Htbl, bind_Some_l. fold n.
    rewrite Htot, bind_Some_l, Hp, bind_Some_l. cbv beta iota. fold d1.
    rewrite Hloc, bind_Some_l, Hrem, bind_Some_l, Hp2, Htbl, bind_Some_l.
    rewrite Hm2. fold n. rewrite Hup. done.
  - lia.
  - lia.
  - unfold dec_ok. cbn [ADC.set_probability ADC.m_low ADC.m_high ADC.m_code ADC.m_stream
      ADC.m_probability ADC.m_max_syms].
    destruct Hb2 as (? & ? & ?). split_and!; try done; try lia.
    exists tbl'. split; [done|]. by rewrite Hm2.
  - done.
  - unfold ADC.loop_fuel in Hk. lia.
  - done.
Qed.

(** A run of [decode_symbol] calls from a decoder that satisfies [dec_ok]. *)
Lemma decode_symbols_keep (k : nat) d r :
  dec_ok d -> ADC.m_stream d = Some r ->
  exists l d' (j : nat),
    decode_symbols k d = Some (l, d') /\ length l = k /\
    Forall (fun s => 0 <= s < ADC.m_max_syms d) l /\
    dec_ok d' /\ ADC.m_max_syms d' = ADC.m_max_syms d /\
    Z.of_nat j <= Z.of_nat k * prob_bits /\ ADC.m_stream d' = Some (advance j r).
Proof.
  revert d r. induction k as [|k IH]; intros d r Hok Hrd.
  - exists [], d, O. split_and!; try done.
    rewrite Hrd. unfold advance. destruct r; simpl. do 2 f_equal. lia.
  - destruct (decode_symbol_keeps d r Hok Hrd)
      as (s & d1 & j1 & Hdec & Hs & Hok1 & Hm1 & Hj1 & Hrd1).
    destruct (IH d1 (advance j1 r) Hok1 Hrd1)
      as (l & d' & j & Hdecs & Hlen & Hall & Hok' & Hm' & Hj & Hrd').
    exists (s :: l), d', (j1 + j)%nat. split_and!.
    + rewrite decode_symbols_S, Hdec, bind_Some_l. cbv beta iota.
      rewrite Hdecs. done.
    + simpl. by rewrite Hlen.
    + constructor; [done|]. by rewrite <-Hm1.
    + done.
    + congruence.
    + lia.
    + rewrite Hrd'. unfold advance. simpl. do 2 f_equal. lia.
Qed.

(** X2, the decoder on any input.  A decoder initialised with [n] symbols,
    [1 <= n < k_max_range], on any reader [r], decodes any number [k] of
    symbols without undefined behaviour, whatever bits the stream holds:
    every table read is inside the table and no division is by zero.  The
    symbols returned are below [n]; the code register stays within the
    bounds; the reader has moved forward only, by [prob_bits] bits in
    [init] and at most [prob_bits] bits per symbol. *)
Theorem decoder_defined_on_any_stream (n : Z) (r : bit_reader)
    (d0 : ADC.scalable_adc_c) (k : nat) :
  1 <= n < k_max_range ->
  exists l d' (j : nat),
    decode_symbols k (ADC.init n (Some r) d0).2 = Some (l, d') /\
    length l = k /\ Forall (fun s => 0 <= s < n) l /\
    ADC.m_low d' <= ADC.m_code d' <= ADC.m_high d' /\
    ADC.m_max_syms d' = n /\
    Z.of_nat j <= (Z.of_nat k + 1) * prob_bits /\
    ADC.m_stream d' = Some (advance j r).
Proof.
  intros Hn. pose proof prob_bits_pos.
  pose proof (dec_init_ok n r d0 Hn) as Hok.
  assert (Hrd : ADC.m_stream (ADC.init n (Some r) d0).2
                = Some (advance (Z.to_nat prob_bits) r)
                /\ ADC.m_max_syms (ADC.init n (Some r) d0).2 = n).
  { unfold ADC.init. destruct (Z.eqb_spec n 0); [lia|].
    rewrite k_max_bits_eq. destruct r as [sq pos].
    rewrite (load_code_spec sq (Z.to_nat prob_bits) 0 pos); [done|lia|].
    rewrite Z2Nat.id by lia. pose proof prob_lt_range. lia. }
  destruct Hrd as [Hrd Hmax].
  destruct (decode_symbols_keep k _ _ Hok Hrd)
    as (l & d' & j & Hdecs & Hlen & Hall & Hok' & Hm' & Hj & Hrd').
  exists l, d', (Z.to_nat prob_bits + j)%nat.
  rewrite Hmax in Hall, Hm'.
  destruct Hok' as (_ & Hcode & _).
  split_and!; try done; try lia.
  rewrite Hrd'. unfold advance. simpl. do 2 f_equal. lia.
Qed.

End DecoderAlone.

(** ** Runs of symbols on any alphabet *)

Section Runs.
Context {T : coder_types} {Tok : coder_types_ok T}.

Local Notation "'HALF'" := (2 ^ (prob_bits - 1)) (only parsing).
Local Notation "'QUART'" := (2 ^ (prob_bits - 2)) (only parsing).

(** Every pass of the loop of [range_code] adds one to the number of bits
    written plus the number of bits pending. *)
Lemma range_code_loop_count fuel cost c w k c' :
  range_ok c -> AC.m_stream c = Some w ->
  0 <= AC.m_underflow_count c ->
  AC.m_underflow_count c + Z.of_nat fuel < 2 ^ range_bits ->
  AC.range_code_loop fuel false cost c = Some (k, c') ->
  exists bits, AC.m_stream c' = Some (w ++ bits) /\
    Z.of_nat (length bits) + AC.m_underflow_count c'
    < AC.m_underflow_count c + Z.of_nat fuel.
Proof.
  revert cost c w. induction fuel as [|fuel IH]; intros cost c w Hr Hw Hu0 Hu; [done|].
  cbn [AC.range_code_loop]. destruct Hr as (Hlo & Hle & Hhi).
  pose proof (renorm_arith _ _ Hlo Hle Hhi) as Har.
  pose proof half_quarter as (HH & HW & HQ64).
  destruct (renorm_case (AC.m_high c) (AC.m_low c)) eqn:Hcase.
  - rewrite Hw, !bind_Some_l. rewrite top_bit_written by lia.
    cbn [AC.set_stream AC.m_high AC.m_low]. intros Hloop.
    eapply IH in Hloop; [| |reflexivity| |].
    + destruct Hloop as (bits & Hb & Hcount).
      cbn [AC.set_range AC.set_stream AC.m_underflow_count] in *.
      eexists. rewrite Hb, <-app_assoc. split; [done|].
      rewrite length_app. simpl. rewrite length_replicate. lia.
    + unfold range_ok. cbn [AC.set_range AC.set_stream AC.m_high AC.m_low].
      destruct Har as [(? & _ & -> & ->)|(? & _ & -> & ->)]; lia.
    + simpl. lia.
    + simpl. lia.
  - intros Hloop. destruct Har as (? & ? & Hsl & Hsh).
    eapply IH in Hloop; [| |exact Hw| |].
    + destruct Hloop as (bits & Hb & Hcount).
      cbn [AC.set_range AC.m_underflow_count] in *.
      rewrite to_range_small in * by lia.
      exists bits. split; [done|lia].
    + unfold range_ok. cbn [AC.set_range AC.m_high AC.m_low].
      rewrite Hsl, Hsh. lia.
    + cbn [AC.set_range AC.m_underflow_count]. rewrite to_range_small by lia. lia.
    + cbn [AC.set_range AC.m_underflow_count]. rewrite to_range_small by lia. lia.
  - intros [= <- <-]. exists []. rewrite app_nil_r. split; [done|]. simpl. lia.
Qed.

(** One symbol: the encoder stays as [enc_ok] says, its writer is
    extended, and the bits written plus the bits pending grow by at most
    [prob_bits]. *)
Lemma encode_symbol_count s c w :
  enc_ok c -> AC.m_stream c = Some w -> 0 <= s < AC.m_max_syms c ->
  AC.m_underflow_count c + prob_bits + 1 < 2 ^ range_bits ->
  exists c1 bits,
    AC.encode_symbol s c = Some c1 /\ enc_ok c1 /\
    AC.m_stream c1 = Some (w ++ bits) /\
    AC.m_max_syms c1 = AC.m_max_syms c /\
    Z.of_nat (length bits) + AC.m_underflow_count c1
    <= AC.m_underflow_count c + prob_bits.
Proof.
  intros Hok Hw Hs Hu. pose proof prob_bits_pos.
  destruct (encode_symbol_step s c w Hok Hw Hs Hu)
    as (cm & k & c' & c1 & tbl & tbl' & Hnar & Hloop & Henc & Htbl & Hup & Hc1 & Hok1
        & _ & _ & Hm').
  destruct (narrow_range_ok s c Hok Hs)
    as (tbl0 & a & b & total & cm0 & _ & _ & _ & _ & _ & _ & _ & _ & _
        & Hnar0 & _ & _ & Hrm & _ & _ & Hsm & Hum & _).
  rewrite Hnar in Hnar0. injection Hnar0 as <-.
  pose proof Hok as (_ & _ & Hu0 & _).
  destruct (range_code_loop_count AC.loop_fuel 0 cm w k c') as (bits & Hb & Hcount);
    [exact Hrm|by rewrite Hsm|lia|unfold AC.loop_fuel; lia|exact Hloop|].
  exists c1, bits. rewrite Hc1.
  cbn [AC.set_probability AC.m_stream AC.m_max_syms AC.m_underflow_count].
  rewrite <-Hc1. split_and!; try done.
  unfold AC.loop_fuel in Hcount. lia.
Qed.

(** A run of symbols. *)
Lemma encode_symbols_run syms c w :
  enc_ok c -> AC.m_stream c = Some w ->
  Forall (fun s => 0 <= s < AC.m_max_syms c) syms ->
  AC.m_underflow_count c + Z.of_nat (length syms) * (prob_bits + 1) + 1 < 2 ^ range_bits ->
  exists c_end bits,
    encode_symbols syms c = Some c_end /\ enc_ok c_end /\
    AC.m_stream c_end = Some (w ++ bits) /\
    AC.m_max_syms c_end = AC.m_max_syms c /\
    Z.of_nat (length bits) + AC.m_underflow_count c_end
    <= AC.m_underflow_count c + Z.of_nat (length syms) * prob_bits.
Proof.
  revert c w. induction syms as [|s syms IH]; intros c w Hok Hw Hval Hu.
  - exists c, []. rewrite app_nil_r. split_and!; try done. simpl. lia.
  - pose proof (Forall_inv Hval) as Hs. apply Forall_inv_tail in Hval.
    simpl in Hs. pose proof prob_bits_pos.
    rewrite length_cons, Nat2Z.inj_succ in *.
    pose proof Hok as (_ & _ & Hu0 & _).
    destruct (encode_symbol_count s c w Hok Hw Hs ltac:(nia))
      as (c1 & bits1 & Henc1 & Hok1 & Hw1 & Hm1 & Hc1).
    pose proof Hok1 as (_ & _ & Hu1 & _).
    destruct (IH c1 (w ++ bits1) Hok1 Hw1) as (c_end & bits & Hencs & Hoke & Hwe & Hme & Hce).
    { by rewrite Hm1. }
    { nia. }
    exists c_end, (bits1 ++ bits). cbn [encode_symbols].
    rewrite Henc1, bind_Some_l, app_assoc, length_app.
    split_and!; try done; [congruence|lia].
Qed.

(** The decoder follows the encoder through a run, state and all. *)
Lemma decode_symbols_follow_state sq syms c d w c_end w_fin :
  enc_ok c -> AC.m_stream c = Some w ->
  Forall (fun s => 0 <= s < AC.m_max_syms c) syms ->
  AC.m_underflow_count c + Z.of_nat (length syms) * (prob_bits + 1) + 1 < 2 ^ range_bits ->
  follows sq c d ->
  encode_symbols syms c = Some c_end ->
  AC.m_stream (AC.flush false c_end).2 = Some w_fin ->
  extends sq w_fin ->
  exists d', decode_symbols (length syms) d = Some (syms, d') /\ follows sq c_end d'.
Proof.
  revert c d w. induction syms as [|s syms IH]; intros c d w Hok Hw Hval Hu Hfol Henc Hfl Hext.
  - exists d. injection Henc as <-. done.
  - pose proof (Forall_inv Hval) as Hs. apply Forall_inv_tail in Hval.
    simpl in Hs. pose proof prob_bits_pos.
    rewrite length_cons, Nat2Z.inj_succ in Hu.
    pose proof Hok as (_ & _ & Hu0 & _).
    destruct (encode_symbol_step s c w Hok Hw Hs ltac:(nia))
      as (cm & k & c' & c1 & tbl & tbl' & Hnar & Hloop & Henc1 & Htbl & Hup & Hc1 & Hok1
          & (bits1 & Hw') & Hu' & Hm').
    cbn [encode_symbols] in Henc. rewrite Henc1, bind_Some_l in Henc.
    assert (Hw1 : AC.m_stream c1 = Some (w ++ bits1)) by (by rewrite Hc1).
    assert (Hm1 : AC.m_max_syms c1 = AC.m_max_syms c) by (by rewrite Hc1).
    assert (Hu1 : AC.m_underflow_count c1 = AC.m_underflow_count c') by (by rewrite Hc1).
    destruct (encode_symbols_sound sq syms c1 (w ++ bits1) Hok1 Hw1)
      as (c_end' & w_fin' & bits2 & Hencs & Hfl' & Hwf & Hsound).
    { by rewrite Hm1. }
    { rewrite Hu1. nia. }
    rewrite Henc in Hencs. injection Hencs as <-.
    rewrite Hfl in Hfl'. injection Hfl' as <-.
    destruct (decode_symbol_follows sq s c d w c1 Hok Hw Hs ltac:(nia) Hfol Henc1)
      as (d1 & Hdec & Hfol1).
    { intros w1 Hw1'. rewrite Hw1 in Hw1'. injection Hw1' as <-.
      rewrite Hwf in Hext. by apply extends_app in Hext. }
    { by apply Hsound. }
    destruct (IH c1 d1 (w ++ bits1) Hok1 Hw1) as (d' & Hdecs & Hfole); try done.
    { by rewrite Hm1. }
    { rewrite Hu1. nia. }
    exists d'. split; [|done]. cbn [decode_symbols length]. rewrite Hdec, bind_Some_l.
    cbv beta iota. rewrite Hdecs. done.
Qed.

(** ** [init] of the two classes, on streams in use *)

(** [init] forgets what the object held: the state it leaves depends on its
    arguments only. *)
Lemma enc_init_state n w0 c :
  n <> 0 ->
  AC.init n (Some w0) c
  = (true,
     {| AC.m_stream := Some w0; AC.m_high := 2 ^ prob_bits - 1; AC.m_low := 0;
        AC.m_underflow_count := 0; AC.m_tmp_range := 0; AC.m_max_syms := n;
        AC.m_probability := Some (uniform_model n); AC.m_flushed := false |}).
Proof.
  intros Hn. unfold AC.init. destruct (Z.eqb_spec n 0); [done|].
  by rewrite all_ones_eq.
Qed.

Lemma enc_init_ok_at n w0 c :
  1 <= n < k_max_range ->
  let c0 := (AC.init n (Some w0) c).2 in
  enc_ok c0 /\ AC.m_stream c0 = Some w0 /\ AC.m_underflow_count c0 = 0 /\
  AC.m_max_syms c0 = n.
Proof.
  intros Hn. cbv zeta. rewrite enc_init_state by lia. cbn [snd].
  pose proof k_max_range_bounds as [Hk1 Hk2].
  pose proof half_quarter as (HH & HW & HQ64). pose proof pow_prob_pos.
  split_and!; try done.
  unfold enc_ok, range_ok. cbn [AC.m_high AC.m_low AC.m_underflow_count AC.m_flushed
    AC.m_stream AC.m_probability AC.m_max_syms].
  assert (Hr : 0 <= 0 /\ 0 <= 2 ^ prob_bits - 1 /\ 2 ^ prob_bits - 1 < 2 ^ prob_bits) by lia.
  split_and!; try done; try lia.
  - destruct Hr as (H1 & H2 & H3). pose proof (renorm_arith _ _ H1 H2 H3) as Har.
    destruct (renorm_case _ _); [lia|lia|done].
  - exists (uniform_model n). split; [done|]. split_and!; [|lia|lia|].
    + apply uniform_model_cumulative; lia.
    + exists n. split; [|lia].
      rewrite uniform_model_lookup by lia. f_equal. lia.
Qed.

(** The decoder initialised on a reader placed where the encoder's writer
    stood follows the encoder. *)
Lemma dec_init_follows_at sq n w0 c d0 :
  1 <= n < k_max_range ->
  follows sq (AC.init n (Some w0) c).2
    (ADC.init n (Some {| rd_bits := sq; rd_pos := length w0 |}) d0).2.
Proof.
  intros Hn. pose proof prob_bits_pos.
  rewrite enc_init_state by lia. unfold ADC.init.
  destruct (Z.eqb_spec n 0); [lia|]. cbn [snd].
  rewrite k_max_bits_eq.
  rewrite (load_code_spec sq (Z.to_nat prob_bits) 0 (length w0)); [|lia|].
  2:{ rewrite Z2Nat.id by lia. pose proof prob_lt_range. lia. }
  cbn [snd]. rewrite all_ones_eq.
  exists w0. cbn [AC.m_stream AC.m_underflow_count AC.m_high AC.m_low AC.m_probability
    AC.m_max_syms ADC.m_stream ADC.m_code ADC.m_high ADC.m_low ADC.m_probability
    ADC.m_max_syms].
  split_and!; try done.
  - do 2 f_equal. change (Z.to_nat 0) with O. lia.
  - unfold code_at. change (Z.to_nat 0) with O.
    replace (Z.to_nat prob_bits) with (S (Z.to_nat (prob_bits - 1))) by lia.
    rewrite window_front, Z2Nat.id by lia.
    rewrite Z.mul_0_l, Z.add_0_l. f_equal.
    apply window_ext. lia.
Qed.

(** The whole of a session: [init], a run of symbols, [flush], and a decoder
    that reads what was written. *)
Lemma session n syms w0 c :
  1 <= n < k_max_range ->
  Forall (fun s => 0 <= s < n) syms ->
  Z.of_nat (length syms) * (prob_bits + 1) + 1 < 2 ^ range_bits ->
  exists c_end bits u (b : bool),
    encode_symbols syms (AC.init n (Some w0) c).2 = Some c_end /\
    enc_ok c_end /\ AC.m_max_syms c_end = n /\
    AC.m_stream c_end = Some (w0 ++ bits) /\
    AC.m_underflow_count c_end = u /\ 0 <= u /\
    Z.of_nat (length bits) + u <= Z.of_nat (length syms) * prob_bits /\
    AC.m_stream (AC.flush false c_end).2
    = Some ((w0 ++ bits) ++ b :: replicate (Z.to_nat (u + 1)) (negb b)) /\
    forall sq d0,
      extends sq ((w0 ++ bits) ++ b :: replicate (Z.to_nat (u + 1)) (negb b)) ->
      exists d',
        decode_symbols (length syms)
          (ADC.init n (Some {| rd_bits := sq; rd_pos := length w0 |}) d0).2
        = Some (syms, d') /\
        follows sq c_end d'.
Proof.
  intros Hn Hval Hbudget. pose proof prob_bits_pos.
  destruct (enc_init_ok_at n w0 c Hn) as (Hok & Hw & Hu & Hm).
  set (c0 := (AC.init n (Some w0) c).2) in *.
  assert (Hval0 : Forall (fun s => 0 <= s < AC.m_max_syms c0) syms) by (by rewrite Hm).
  assert (Hb0 : AC.m_underflow_count c0
                + Z.of_nat (length syms) * (prob_bits + 1) + 1 < 2 ^ range_bits)
    by (rewrite Hu; lia).
  destruct (encode_symbols_run syms c0 w0 Hok Hw Hval0 Hb0)
    as (c_end & bits & Hencs & Hoke & Hwe & Hme & Hcount).
  pose proof Hoke as (_ & _ & Hue & Hfe & _).
  rewrite Hu in Hcount.
  assert (Hfit : AC.m_underflow_count c_end + 1 < 2 ^ range_bits) by lia.
  pose proof (flush_writes c_end (w0 ++ bits) Hwe Hfe Hue Hfit) as Hfl.
  cbv zeta in Hfl.
  exists c_end, bits, (AC.m_underflow_count c_end),
    (Z.testbit (AC.m_low c_end) (prob_bits - 2)).
  split_and!; try done; try lia; try congruence.
  intros sq d0 Hext.
  eapply (decode_symbols_follow_state sq syms c0 _ w0 c_end);
    [exact Hok|exact Hw|exact Hval0|exact Hb0| |exact Hencs|exact Hfl|exact Hext].
  apply dec_init_follows_at. done.
Qed.

End Runs.

(** ** Sessions: [init], a run of symbols, [flush] *)

Section Sessions.
Context {T : coder_types} {Tok : coder_types_ok T}.

Local Notation "'HALF'" := (2 ^ (prob_bits - 1)) (only parsing).
Local Notation "'QUART'" := (2 ^ (prob_bits - 2)) (only parsing).

(** X1, round trip on any alphabet.  For an alphabet of [n] symbols,
    [1 <= n < k_max_range], and any list of symbols below [n] (short enough
    for the underflow counter), the encoder initialised on a writer that
    holds [w0], fed the symbols and flushed, is defined and leaves
    [w0 ++ bits]; a decoder initialised with [n] on a reader placed behind
    [w0], on any sequence that starts with [w0 ++ bits], returns the
    symbols, in order. *)
Theorem coder_round_trip (n : Z) (syms : list Z) (w0 : bit_writer) :
  1 <= n < k_max_range ->
  Forall (fun s => 0 <= s < n) syms ->
  Z.of_nat (length syms) * (prob_bits + 1) + 1 < 2 ^ range_bits ->
  exists bits,
    encode_run n w0 syms = Some (w0 ++ bits) /\
    forall (sq : nat -> bool) (d0 : ADC.scalable_adc_c),
      extends sq (w0 ++ bits) ->
      fst <$> decode_run n {| rd_bits := sq; rd_pos := length w0 |} (length syms) d0
      = Some syms.
Proof.
  intros Hn Hval Hb.
  destruct (session n syms w0 AC.new Hn Hval Hb)
    as (c_end & bits & u & b & Hencs & _ & _ & _ & _ & _ & _ & Hfl & Hdec).
  exists (bits ++ b :: replicate (Z.to_nat (u + 1)) (negb b)).
  rewrite app_assoc. split.
  - unfold encode_run. rewrite Hencs, bind_Some_l. exact Hfl.
  - intros sq d0 Hext. destruct (Hdec sq d0 Hext) as (d' & Hd & _).
    unfold decode_run. rewrite Hd. done.
Qed.

(** X4, the size of the output.  Under the conditions of the round trip, the
    encoder writes at least 2 and at most [prob_bits] bits per symbol plus
    2: each renormalisation pass accounts for one bit, written at once or
    pending, and [flush] writes the pending bits and two more. *)
Theorem encoded_size_bound (n : Z) (syms : list Z) (w0 w : bit_writer) :
  1 <= n < k_max_range ->
  Forall (fun s => 0 <= s < n) syms ->
  Z.of_nat (length syms) * (prob_bits + 1) + 1 < 2 ^ range_bits ->
  encode_run n w0 syms = Some w ->
  Z.of_nat (length w0) + 2 <= Z.of_nat (length w)
  <= Z.of_nat (length w0) + Z.of_nat (length syms) * prob_bits + 2.
Proof.
  intros Hn Hval Hb Hrun.
  destruct (session n syms w0 AC.new Hn Hval Hb)
    as (c_end & bits & u & b & Hencs & _ & _ & _ & _ & Hu & Hcount & Hfl & _).
  unfold encode_run in Hrun. rewrite Hencs, bind_Some_l, Hfl in Hrun.
  injection Hrun as <-.
  rewrite !length_app. simpl. rewrite length_replicate. lia.
Qed.

(** X3, how far the decoder reads.  Under the conditions of the round trip,
    when the decoder has returned the last symbol its reader stands
    [prob_bits - 2] bits behind the end of what the encoder wrote: the
    stream has to supply that many bits more than were written. *)
Theorem decoder_reads_past_end (n : Z) (syms : list Z) (w0 w : bit_writer)
    (sq : nat -> bool) (d0 : ADC.scalable_adc_c) :
  1 <= n < k_max_range ->
  Forall (fun s => 0 <= s < n) syms ->
  Z.of_nat (length syms) * (prob_bits + 1) + 1 < 2 ^ range_bits ->
  encode_run n w0 syms = Some w ->
  extends sq w ->
  exists d',
    decode_run n {| rd_bits := sq; rd_pos := length w0 |} (length syms) d0
    = Some (syms, d') /\
    ADC.m_stream d'
    = Some {| rd_bits := sq; rd_pos := length w + Z.to_nat (prob_bits - 2) |}.
Proof.
  intros Hn Hval Hb Hrun Hext. pose proof prob_bits_pos.
  destruct (session n syms w0 AC.new Hn Hval Hb)
    as (c_end & bits & u & b & Hencs & _ & _ & Hwe & Hue & Hu & Hcount & Hfl & Hdec).
  unfold encode_run in Hrun. rewrite Hencs, bind_Some_l, Hfl in Hrun.
  injection Hrun as <-.
  destruct (Hdec sq d0 Hext) as (d' & Hd & Hfol).
  exists d'. split; [exact Hd|].
  destruct Hfol as (w' & Hw' & Hrd & _).
  rewrite Hwe in Hw'. injection Hw' as <-.
  rewrite Hrd, Hue. do 2 f_equal.
  rewrite !length_app. simpl. rewrite length_replicate. lia.
Qed.

(** X5, what the encoder keeps.  After [init] with [n] symbols and any run of
    symbols below [n], the bounds straddle the middle of the scale and are
    more than a quarter of it apart, and the table is a cumulative table
    for [n] symbols (it starts at 0 and grows strictly) whose total is
    below [k_max_range]; the alphabet size and the flag are as [init] left
    them. *)
Theorem encoder_keeps_invariant (n : Z) (syms : list Z) (w0 : bit_writer)
    (c : AC.scalable_ac_c) :
  1 <= n < k_max_range ->
  Forall (fun s => 0 <= s < n) syms ->
  Z.of_nat (length syms) * (prob_bits + 1) + 1 < 2 ^ range_bits ->
  exists c_end tbl total,
    encode_symbols syms (AC.init n (Some w0) c).2 = Some c_end /\
    0 <= AC.m_low c_end < HALF /\ HALF <= AC.m_high c_end < 2 ^ prob_bits /\
    QUART + 2 <= AC.m_high c_end - AC.m_low c_end + 1 /\
    AC.m_probability c_end = Some tbl /\ cumulative n tbl /\
    tbl !! Z.to_nat n = Some total /\ n <= total < k_max_range /\
    AC.m_max_syms c_end = n /\ AC.m_flushed c_end = false.
Proof.
  intros Hn Hval Hb.
  destruct (session n syms w0 c Hn Hval Hb)
    as (c_end & bits & u & b & Hencs & Hok & Hm & _).
  pose proof (enc_ok_wide c_end Hok) as Hwide.
  pose proof Hok as ((Hlo & Hle & Hhi) & Hcase & _ & Hf & _ & tbl & Htbl & Hmodel).
  rewrite Hm in Hmodel. pose proof Hmodel as (Hcum & _ & total & Htot & Htk).
  pose proof (renorm_arith _ _ Hlo Hle Hhi) as Har. rewrite Hcase in Har.
  exists c_end, tbl, total. split_and!; try done; try lia.
  destruct Hcum as (_ & _ & _ & Hz & Hinc).
  pose proof (increasing_gap tbl O (Z.to_nat n) 0 total Hinc ltac:(lia) Hz Htot). lia.
Qed.

(** X14, the decoder mirrors the encoder.  Under the conditions of the round
    trip, when the decoder has returned the symbols its bounds, its
    alphabet size and its table are those of the encoder after the last
    symbol: the two adaptive models went through the same updates. *)
Theorem decoder_mirrors_encoder (n : Z) (syms : list Z) (w0 w : bit_writer)
    (sq : nat -> bool) (d0 : ADC.scalable_adc_c) :
  1 <= n < k_max_range ->
  Forall (fun s => 0 <= s < n) syms ->
  Z.of_nat (length syms) * (prob_bits + 1) + 1 < 2 ^ range_bits ->
  encode_run n w0 syms = Some w ->
  extends sq w ->
  exists c_end d',
    encode_symbols syms (AC.init n (Some w0) AC.new).2 = Some c_end /\
    decode_run n {| rd_bits := sq; rd_pos := length w0 |} (length syms) d0
    = Some (syms, d') /\
    ADC.m_high d' = AC.m_high c_end /\ ADC.m_low d' = AC.m_low c_end /\
    ADC.m_max_syms d' = AC.m_max_syms c_end /\
    ADC.m_probability d' = AC.m_probability c_end.
Proof.
  intros Hn Hval Hb Hrun Hext.
  destruct (session n syms w0 AC.new Hn Hval Hb)
    as (c_end & bits & u & b & Hencs & _ & _ & _ & _ & _ & _ & Hfl & Hdec).
  unfold encode_run in Hrun. rewrite Hencs, bind_Some_l, Hfl in Hrun.
  injection Hrun as <-.
  destruct (Hdec sq d0 Hext) as (d' & Hd & Hfol).
  exists c_end, d'.
  destruct Hfol as (w' & _ & _ & _ & Hh & Hl & Hp & Hm).
  split_and!; done.
Qed.

(** X15, the encoder writes as it goes.  What the writer holds after a run of
    symbols is kept when more symbols are encoded: the bits of a longer run
    extend the bits of each of its beginnings. *)
Theorem encoder_writes_online (n : Z) (l1 l2 : list Z) (w0 : bit_writer)
    (c : AC.scalable_ac_c) :
  1 <= n < k_max_range ->
  Forall (fun s => 0 <= s < n) (l1 ++ l2) ->
  Z.of_nat (length (l1 ++ l2)) * (prob_bits + 1) + 1 < 2 ^ range_bits ->
  exists c1 c2 bits1 bits2,
    encode_symbols l1 (AC.init n (Some w0) c).2 = Some c1 /\
    AC.m_stream c1 = Some (w0 ++ bits1) /\
    encode_symbols (l1 ++ l2) (AC.init n (Some w0) c).2 = Some c2 /\
    AC.m_stream c2 = Some (w0 ++ bits1 ++ bits2).
Proof.
  intros Hn Hval Hb. pose proof prob_bits_pos.
  apply Forall_app in Hval as [Hv1 Hv2].
  rewrite length_app, Nat2Z.inj_add in Hb.
  assert (Hp1 : 0 <= Z.of_nat (length l1) * prob_bits) by nia.
  assert (Hp2 : 0 <= Z.of_nat (length l2) * prob_bits) by nia.
  destruct (session n l1 w0 c Hn Hv1 ltac:(lia))
    as (c1 & bits1 & u & b & Hencs & Hok1 & Hm1 & Hw1 & Hu1 & Hu0 & Hcount & _).
  destruct (encode_symbols_run l2 c1 (w0 ++ bits1) Hok1 Hw1)
    as (c2 & bits2 & Hencs2 & _ & Hw2 & _).
  { by rewrite Hm1. }
  { lia. }
  exists c1, c2, bits1, bits2. split_and!; try done.
  - rewrite encode_symbols_app, Hencs, bind_Some_l. done.
  - by rewrite Hw2, app_assoc.
Qed.

End Sessions.

(** ** What [flush] writes *)

Section Flush.
Context {T : coder_types} {Tok : coder_types_ok T}.

(** A [flush] that writes: the bit of [low] below the top one, then the
    pending bits and one more, all its complement. *)
Lemma flush_state force c w :
  AC.m_stream c = Some w -> AC.m_flushed c = false \/ force = true ->
  0 <= AC.m_underflow_count c -> AC.m_underflow_count c + 1 < 2 ^ range_bits ->
  AC.flush force c
  = (false,
     {| AC.m_stream :=
          Some (w ++ Z.testbit (AC.m_low c) (prob_bits - 2)
                  :: replicate (Z.to_nat (AC.m_underflow_count c + 1))
                       (negb (Z.testbit (AC.m_low c) (prob_bits - 2))));
        AC.m_high := AC.m_high c; AC.m_low := AC.m_low c;
        AC.m_underflow_count := 0; AC.m_tmp_range := AC.m_tmp_range c;
        AC.m_max_syms := AC.m_max_syms c; AC.m_probability := AC.m_probability c;
        AC.m_flushed := true |}).
Proof.
  intros Hw Hf Hu0 Hu. unfold AC.flush. rewrite Hw.
  assert (negb (AC.m_flushed c) || force = true) as ->.
  { destruct Hf as [-> | ->]; [done|apply orb_true_r]. }
  pose proof prob_bits_pos.
  rewrite to_range_small by lia.
  rewrite write_underflow_spec by lia. rewrite bs_write_1, k_low_bit_eq.
  assert (E1 : Z.testbit (Z.land (Z.shiftr (AC.m_low c) (prob_bits - 2)) 1) 0
               = Z.testbit (AC.m_low c) (prob_bits - 2)).
  { rewrite Z.land_spec, Z.shiftr_spec, Z.add_0_l by lia. apply andb_true_r. }
  assert (E2 : negb (Z.land (Z.lxor (Z.shiftr (AC.m_low c) (prob_bits - 2)) 1) 1 =? 0)
               = negb (Z.testbit (AC.m_low c) (prob_bits - 2))).
  { rewrite (land_pow2_eq0 _ 0), negb_involutive by lia.
    rewrite Z.lxor_spec, Z.shiftr_spec, Z.add_0_l by lia. apply xorb_true_r. }
  rewrite E1, E2, <-app_assoc. done.
Qed.

(** X6, what [flush] writes.  On an encoder with a stream attached that is not
    flushed yet, or with [force] set, [flush] appends the bit [b] of [low]
    below the top one, followed by [m_underflow_count + 1] copies of its
    complement, written in bursts of 64; it resets the underflow count,
    sets the flag and leaves the other members.  A further [flush(true)]
    writes again: it appends the two bits [b], [not b]. *)
Theorem flush_appends (force : bool) (c : AC.scalable_ac_c) (w : bit_writer) :
  AC.m_stream c = Some w -> AC.m_flushed c = false \/ force = true ->
  0 <= AC.m_underflow_count c -> AC.m_underflow_count c + 1 < 2 ^ range_bits ->
  let b := Z.testbit (AC.m_low c) (prob_bits - 2) in
  let w1 := w ++ b :: replicate (Z.to_nat (AC.m_underflow_count c + 1)) (negb b) in
  let c1 := (AC.flush force c).2 in
  c1 = {| AC.m_stream := Some w1;
          AC.m_high := AC.m_high c; AC.m_low := AC.m_low c;
          AC.m_underflow_count := 0; AC.m_tmp_range := AC.m_tmp_range c;
          AC.m_max_syms := AC.m_max_syms c; AC.m_probability := AC.m_probability c;
          AC.m_flushed := true |} /\
  AC.m_stream (AC.flush true c1).2 = Some (w1 ++ [b; negb b]).
Proof.
  intros Hw Hf Hu0 Hu. cbv zeta.
  rewrite (flush_state force c w Hw Hf Hu0 Hu). cbn [snd]. split; [done|].
  pose proof pow_range_pos. pose proof range_bits_big. pose proof prob_bits_pos.
  assert (1 < 2 ^ range_bits).
  { change 1 with (2 ^ 0). apply Z.pow_lt_mono_r; lia. }
  erewrite flush_state; [|reflexivity|by right|simpl; lia|simpl; lia].
  done.
Qed.

End Flush.

(** ** The cost of a buffer *)

Section CostOfBuffer.
Context {T : coder_types} {Tok : coder_types_ok T}.

Lemma range_code_loop_sim_set_stream fuel cost w c :
  AC.range_code_loop fuel true cost (AC.set_stream w c)
  = (fun '(k, c') => (k, AC.set_stream w c')) <$> AC.range_code_loop fuel true cost c.
Proof.
  revert cost c. induction fuel as [|fuel IH]; intros cost c; [done|].
  cbn [AC.range_code_loop]. cbn [AC.set_stream AC.m_high AC.m_low AC.m_underflow_count].
  destruct (renorm_case (AC.m_high c) (AC.m_low c)).
  - rewrite !bind_Some_l. cbn [AC.set_stream AC.m_high AC.m_low].
    rewrite <-IH. done.
  - rewrite <-IH. done.
  - done.
Qed.

Lemma estimate_cost_set_stream s w c :
  AC.estimate_cost s (AC.set_stream w c)
  = (fun '(k, c') => (k, AC.set_stream w c')) <$> AC.estimate_cost s c.
Proof.
  unfold AC.estimate_cost, AC.range_code, AC.narrow_range.
  cbn [AC.set_stream AC.m_probability AC.m_max_syms AC.m_high AC.m_low
       AC.m_underflow_count].
  destruct (AC.m_probability c) as [tbl|]; [|done]. rewrite !bind_Some_l.
  destruct (narrow tbl _ _ _ _) as [[[r hi] lo]|]; [|done]. rewrite !bind_Some_l.
  change (AC.set_range hi lo (AC.m_underflow_count c)
            (AC.set_tmp_range r (AC.set_stream w c)))
    with (AC.set_stream w
            (AC.set_range hi lo (AC.m_underflow_count c) (AC.set_tmp_range r c))).
  rewrite range_code_loop_sim_set_stream.
  destruct (AC.range_code_loop _ _ _ _) as [[k c1]|]; [|done].
  cbn [fmap option_fmap option_map]. rewrite !bind_Some_l.
  rewrite update_set_stream. destruct (AC.update s c1); done.
Qed.

Lemma estimate_cost_buf_set_stream buf lim cost w c :
  AC.estimate_cost_buf buf lim cost (AC.set_stream w c)
  = (fun '(k, c') => (k, AC.set_stream w c')) <$> AC.estimate_cost_buf buf lim cost c.
Proof.
  revert cost c. induction buf as [|x buf IH]; intros cost c; [done|].
  cbn [AC.estimate_cost_buf]. rewrite estimate_cost_set_stream.
  destruct (AC.estimate_cost x c) as [[k c1]|]; [|done].
  cbn [fmap option_fmap option_map]. rewrite !bind_Some_l.
  destruct (lim <? _); [done|]. apply IH.
Qed.

Lemma set_stream_twice w w' c : AC.set_stream w (AC.set_stream w' c) = AC.set_stream w c.
Proof. done. Qed.

(** [estimate_cost] over a buffer against the encoding of the buffer, the
    cost so far being [cost0]. *)
Lemma estimate_cost_buf_vs_encode buf lim cost0 c w :
  enc_ok c -> AC.m_stream c = Some w ->
  Forall (fun s => 0 <= s < AC.m_max_syms c) buf ->
  AC.m_underflow_count c + Z.of_nat (length buf) * (prob_bits + 1) + 1 < 2 ^ range_bits ->
  0 <= cost0 ->
  cost0 + AC.m_underflow_count c + Z.of_nat (length buf) * prob_bits < 2 ^ range_bits ->
  exists c_end bits,
    encode_symbols buf c = Some c_end /\ AC.m_stream c_end = Some (w ++ bits) /\
    (cost0 + Z.of_nat (length bits) <= lim ->
     AC.estimate_cost_buf buf lim cost0 c
     = Some (cost0 + Z.of_nat (length bits), AC.set_stream w c_end)) /\
    (lim < cost0 + Z.of_nat (length bits) ->
     exists k c', AC.estimate_cost_buf buf lim cost0 c = Some (k, c') /\
       lim < k <= cost0 + Z.of_nat (length bits)).
Proof.
  revert cost0 c w. induction buf as [|s buf IH]; intros cost0 c w Hok Hw Hval Hu Hc0 Hc.
  - exists c, []. rewrite app_nil_r. cbn [encode_symbols AC.estimate_cost_buf length].
    rewrite Z.add_0_r. split_and!; try done.
    + intros _. by rewrite set_stream_same.
    + intros Hlim. exists cost0, c. split; [done|lia].
  - pose proof (Forall_inv Hval) as Hs. apply Forall_inv_tail in Hval.
    simpl in Hs. pose proof prob_bits_pos. pose proof pow_range_pos.
    rewrite length_cons, Nat2Z.inj_succ in Hu, Hc.
    pose proof Hok as (_ & _ & Hu0 & _).
    assert (Hprod : 0 <= Z.of_nat (length buf) * prob_bits) by nia.
    assert (Hstep : AC.m_underflow_count c + prob_bits + 1 < 2 ^ range_bits) by lia.
    destruct (encode_symbol_count s c w Hok Hw Hs Hstep)
      as (c1 & bits1 & Henc1 & Hok1 & Hw1 & Hm1 & Hc1).
    pose proof Hok1 as (_ & _ & Hu1 & _).
    assert (Hur : 0 <= AC.m_underflow_count c < 2 ^ range_bits) by lia.
    pose proof (estimate_vs_encode s c w Hw Hur) as Hev.
    destruct (AC.estimate_cost s c) as [[cost ce]|] eqn:Hest; [|congruence].
    destruct Hev as (bits1' & cm & Henc1' & Hwe & _ & _ & Hcost).
    rewrite Henc1 in Henc1'. injection Henc1' as Hc1e.
    assert (bits1' = bits1) as ->.
    { rewrite Hc1e in Hw1. simpl in Hw1. injection Hw1 as Hw1.
      by apply app_inv_head in Hw1. }
    assert (Hce : ce = AC.set_stream w c1).
    { rewrite Hc1e, set_stream_twice. symmetry. by apply set_stream_same. }
    rewrite to_range_small in Hcost by lia. subst cost.
    destruct (IH (cost0 + Z.of_nat (length bits1)) c1 (w ++ bits1) Hok1 Hw1)
      as (c_end & bits & Hencs & Hwend & Hle & Hgt); try lia.
    { by rewrite Hm1. }
    exists c_end, (bits1 ++ bits). cbn [encode_symbols AC.estimate_cost_buf].
    rewrite Henc1, Hest, !bind_Some_l. cbv beta iota.
    rewrite app_assoc, length_app, Nat2Z.inj_add.
    rewrite to_range_small by lia.
    rewrite Hce, estimate_cost_buf_set_stream.
    split_and!; try done.
    + intros Hlim. destruct (Z.ltb_spec lim (cost0 + Z.of_nat (length bits1))); [lia|].
      rewrite Hle by lia. cbn [fmap option_fmap option_map].
      rewrite set_stream_twice. do 2 f_equal. lia.
    + intros Hlim. destruct (Z.ltb_spec lim (cost0 + Z.of_nat (length bits1))).
      * eexists _, _. split; [done|lia].
      * destruct Hgt as (k & c' & -> & Hk); [lia|].
        cbn [fmap option_fmap option_map]. eexists _, _. split; [done|lia].
Qed.

(** X7, the cost of a buffer.  From an encoder between two symbols,
    [estimate_cost(buf, count, lim)] returns the number of bits that
    encoding the symbols of the buffer would append to the stream, and
    leaves the state that encoding leaves but for the stream, when that
    number does not exceed [lim]; when it does, the call stops early with a
    cost above [lim] and at most that number. *)
Theorem estimate_cost_buf_agrees (buf : list Z) (lim : Z) (c : AC.scalable_ac_c)
    (w : bit_writer) :
  enc_ok c -> AC.m_stream c = Some w ->
  Forall (fun s => 0 <= s < AC.m_max_syms c) buf ->
  AC.m_underflow_count c + Z.of_nat (length buf) * (prob_bits + 1) + 1 < 2 ^ range_bits ->
  exists c_end bits,
    encode_symbols buf c = Some c_end /\ AC.m_stream c_end = Some (w ++ bits) /\
    (Z.of_nat (length bits) <= lim ->
     AC.estimate_cost_buf buf lim 0 c
     = Some (Z.of_nat (length bits), AC.set_stream w c_end)) /\
    (lim < Z.of_nat (length bits) ->
     exists k c', AC.estimate_cost_buf buf lim 0 c = Some (k, c') /\
       lim < k <= Z.of_nat (length bits)).
Proof.
  intros Hok Hw Hval Hu. pose proof prob_bits_pos.
  pose proof Hok as (_ & _ & Hu0 & _).
  destruct (estimate_cost_buf_vs_encode buf lim 0 c w Hok Hw Hval Hu ltac:(lia))
    as (c_end & bits & H1 & H2 & H3 & H4); [nia|].
  exists c_end, bits. rewrite !Z.add_0_l in *. done.
Qed.

(** X8, no bounds check on the symbol.  On an encoder between two symbols,
    [encode_symbol(s)] is defined exactly for the symbols below
    [m_max_syms]: for any other value of the range type the reads of
    [m_probability[s]] or [m_probability[s + 1]] fall outside the table. *)
Theorem encode_symbol_defined_iff (s : Z) (c : AC.scalable_ac_c) (w : bit_writer) :
  enc_ok c -> AC.m_stream c = Some w -> 0 <= s < 2 ^ range_bits ->
  AC.m_underflow_count c + prob_bits + 1 < 2 ^ range_bits ->
  is_Some (AC.encode_symbol s c) <-> s < AC.m_max_syms c.
Proof.
  intros Hok Hw Hs Hu. split.
  - intros [c1 Henc]. destruct (Z.lt_ge_cases s (AC.m_max_syms c)) as [|Hge]; [done|].
    exfalso.
    destruct Hok as (_ & _ & _ & _ & _ & tbl & Htbl & (Hcum & Hn & _)).
    destruct Hcum as (_ & Hlen & _).
    pose proof k_max_range_bounds as [_ Hk2]. pose proof pow_prob_lt_range.
    pose proof pow_prob_pos.
    unfold AC.encode_symbol, AC.range_code, AC.narrow_range, narrow in Henc.
    rewrite Htbl, !bind_Some_l in Henc.
    destruct (tbl !! Z.to_nat s) as [a|] eqn:Ha; [|done].
    rewrite bind_Some_l in Henc.
    apply lookup_lt_Some in Ha.
    assert (s = AC.m_max_syms c) as -> by lia.
    rewrite (to_range_small (AC.m_max_syms c + 1)) in Henc by lia.
    rewrite (lookup_ge_None_2 tbl (Z.to_nat (AC.m_max_syms c + 1))) in Henc by lia.
    done.
  - intros Hlt.
    destruct (encode_symbol_step s c w Hok Hw ltac:(lia) Hu)
      as (? & ? & ? & c1 & ? & ? & _ & _ & Henc & _). eauto.
Qed.

End CostOfBuffer.

(** ** The model: counts and growth *)

Section ModelGrowth.
Context {T : coder_types} {Tok : coder_types_ok T}.

(** X9, the adaptive update counts.  On a model whose total stays below
    [k_max_range] after the increment, the update that follows symbol [s]
    adds one to the slice of [s] and to the total, and leaves the slice of
    every other symbol as it was. *)
Theorem update_counts_symbol (n s : Z) (tbl : list Z) (total : Z) :
  model_ok n tbl -> 0 <= s < n ->
  tbl !! Z.to_nat n = Some total -> total + 1 < k_max_range ->
  exists tbl',
    update_model s n tbl = Some tbl' /\ length tbl' = length tbl /\
    tbl' !! Z.to_nat n = Some (total + 1) /\
    forall i : nat, (i < Z.to_nat n)%nat ->
      slice_width tbl' i
      = slice_width tbl i + (if decide (i = Z.to_nat s) then 1 else 0).
Proof.
  intros (Hc & Hn & _) Hs Htot Hlt.
  pose proof k_max_range_bounds as [Hk1 Hk2]. pose proof prob_lt_range.
  destruct Hc as (Hn0 & Hlen & Hty & Hz & Hinc).
  unfold update_model. rewrite !to_range_small by lia.
  destruct (bump_model_lookup (s + 1) n tbl) as (tbl1 & -> & Hlen1 & Hlk); [lia|done|lia|].
  rewrite bind_Some_l.
  assert (Hval : forall i c, tbl !! i = Some c -> 0 <= c <= total).
  { intros i c Hi. split; [by apply (typed_lookup _ _ _ Hty Hi)|].
    apply (increasing_le tbl i (Z.to_nat n) c total); try done.
    apply lookup_lt_Some in Hi. lia. }
  assert (Hlk1 : forall i c, tbl !! i = Some c ->
            tbl1 !! i = Some (if decide (Z.to_nat (s + 1) <= i)%nat then c + 1 else c)).
  { intros i c Hi. rewrite Hlk, Hi. destruct (decide _); [|done].
    simpl. f_equal. apply to_prob_small. pose proof (Hval i c Hi). lia. }
  rewrite (Hlk1 _ _ Htot), decide_True by lia. rewrite bind_Some_l.
  destruct (Z.leb_spec k_max_range (total + 1)); [lia|].
  exists tbl1. split_and!; try done.
  - rewrite (Hlk1 _ _ Htot), decide_True by lia. done.
  - intros i Hi. unfold slice_width.
    destruct (lookup_lt_is_Some_2 tbl i ltac:(lia)) as [a Ha].
    destruct (lookup_lt_is_Some_2 tbl (S i) ltac:(lia)) as [b Hb].
    rewrite (list_lookup_total_correct _ _ _ Ha), (list_lookup_total_correct _ _ _ Hb).
    rewrite (list_lookup_total_correct _ _ _ (Hlk1 _ _ Ha)).
    rewrite (list_lookup_total_correct _ _ _ (Hlk1 _ _ Hb)).
    repeat destruct (decide _); lia.
Qed.

(** What [expand] of the encoder leaves when it grows the alphabet. *)
Lemma ac_expand_state m c tbl :
  AC.m_probability c = Some tbl -> length tbl = Z.to_nat (AC.m_max_syms c + 1) ->
  0 <= AC.m_max_syms c < m -> m + 1 < 2 ^ range_bits ->
  AC.expand m c
  = Some (true,
          {| AC.m_stream := AC.m_stream c; AC.m_high := AC.m_high c;
             AC.m_low := AC.m_low c;
             AC.m_underflow_count := AC.m_underflow_count c;
             AC.m_tmp_range := AC.m_tmp_range c; AC.m_max_syms := m;
             AC.m_probability :=
               Some (tbl ++ (to_prob <$> seqZ (AC.m_max_syms c + 1) (m - AC.m_max_syms c)));
             AC.m_flushed := AC.m_flushed c |}).
Proof.
  intros Htbl Hlen Hm Hfit. unfold AC.expand. rewrite Htbl.
  destruct (Z.leb_spec m (AC.m_max_syms c)); [lia|].
  unfold copy_table. rewrite decide_True.
  2:{ rewrite length_new_table by lia. lia. }
  rewrite bind_Some_l. rewrite take_app_le by (rewrite length_take; lia).
  rewrite take_take, Nat.min_id, take_ge by lia. done.
Qed.

(** The same for the decoder, whose new cells count from zero. *)
Lemma adc_expand_state m d tbl :
  ADC.m_probability d = Some tbl -> length tbl = Z.to_nat (ADC.m_max_syms d + 1) ->
  0 <= ADC.m_max_syms d < m -> m + 1 < 2 ^ range_bits ->
  ADC.expand m d
  = Some (true,
          {| ADC.m_stream := ADC.m_stream d; ADC.m_high := ADC.m_high d;
             ADC.m_low := ADC.m_low d; ADC.m_tmp_range := ADC.m_tmp_range d;
             ADC.m_max_syms := m; ADC.m_code := ADC.m_code d;
             ADC.m_probability :=
               Some (tbl ++ (to_prob <$> seqZ 0 (m - ADC.m_max_syms d))) |}).
Proof.
  intros Htbl Hlen Hm Hfit. unfold ADC.expand. rewrite Htbl.
  destruct (Z.leb_spec m (ADC.m_max_syms d)); [lia|].
  unfold copy_table. rewrite decide_True.
  2:{ rewrite length_new_table by lia. lia. }
  rewrite bind_Some_l. rewrite take_app_le by (rewrite length_take; lia).
  rewrite take_take, Nat.min_id, take_ge by lia. done.
Qed.

(** X10, what [expand] keeps.  When the new alphabet size [m] is not larger
    than the current one, [expand] of either class returns [false] and
    changes nothing.  Otherwise it returns [true], the size is [m], the
    bounds, the registers and the stream are untouched, the cells
    [0 .. m_max_syms] of the table keep their counts, and each new cell [i]
    holds [i] in the encoder and [i - m_max_syms - 1] in the decoder. *)
Theorem expand_keeps_old_cells (m : Z) (c : AC.scalable_ac_c) (d : ADC.scalable_adc_c)
    (tc td : list Z) :
  AC.m_probability c = Some tc -> length tc = Z.to_nat (AC.m_max_syms c + 1) ->
  ADC.m_probability d = Some td -> length td = Z.to_nat (ADC.m_max_syms d + 1) ->
  0 <= AC.m_max_syms c -> 0 <= ADC.m_max_syms d -> m + 1 < 2 ^ range_bits ->
  (m <= AC.m_max_syms c -> AC.expand m c = Some (false, c)) /\
  (m <= ADC.m_max_syms d -> ADC.expand m d = Some (false, d)) /\
  (AC.m_max_syms c < m ->
   exists tc',
     AC.expand m c
     = Some (true,
             {| AC.m_stream := AC.m_stream c; AC.m_high := AC.m_high c;
                AC.m_low := AC.m_low c;
                AC.m_underflow_count := AC.m_underflow_count c;
                AC.m_tmp_range := AC.m_tmp_range c; AC.m_max_syms := m;
                AC.m_probability := Some tc';
                AC.m_flushed := AC.m_flushed c |}) /\
     length tc' = Z.to_nat (m + 1) /\
     forall i : nat,
       tc' !! i = if decide (Z.of_nat i <= AC.m_max_syms c) then tc !! i
                  else if decide (Z.of_nat i <= m) then Some (to_prob (Z.of_nat i))
                  else None) /\
  (ADC.m_max_syms d < m ->
   exists td',
     ADC.expand m d
     = Some (true,
             {| ADC.m_stream := ADC.m_stream d; ADC.m_high := ADC.m_high d;
                ADC.m_low := ADC.m_low d; ADC.m_tmp_range := ADC.m_tmp_range d;
                ADC.m_max_syms := m; ADC.m_code := ADC.m_code d;
                ADC.m_probability := Some td' |}) /\
     length td' = Z.to_nat (m + 1) /\
     forall i : nat,
       td' !! i = if decide (Z.of_nat i <= ADC.m_max_syms d) then td !! i
                  else if decide (Z.of_nat i <= m)
                       then Some (to_prob (Z.of_nat i - ADC.m_max_syms d - 1))
                       else None).
Proof.
  intros Htc Hlc Htd Hld Hnc Hnd Hfit. split_and!.
  - intros Hle. unfold AC.expand. rewrite Htc.
    by destruct (Z.leb_spec m (AC.m_max_syms c)); [|lia].
  - intros Hle. unfold ADC.expand. rewrite Htd.
    by destruct (Z.leb_spec m (ADC.m_max_syms d)); [|lia].
  - intros Hlt. eexists. split; [|split].
    + rewrite (ac_expand_state m c tc) by (done || lia). done.
    + rewrite length_app, length_fmap, length_seqZ. lia.
    + intros i. destruct (decide (Z.of_nat i <= AC.m_max_syms c)).
      * rewrite lookup_app_l by lia. done.
      * rewrite lookup_app_r by lia. rewrite list_lookup_fmap.
        destruct (decide (Z.of_nat i <= m)).
        -- rewrite lookup_seqZ_lt by lia. simpl. do 2 f_equal. lia.
        -- rewrite lookup_seqZ_ge by lia. done.
  - intros Hlt. eexists. split; [|split].
    + rewrite (adc_expand_state m d td) by (done || lia). done.
    + rewrite length_app, length_fmap, length_seqZ. lia.
    + intros i. destruct (decide (Z.of_nat i <= ADC.m_max_syms d)).
      * rewrite lookup_app_l by lia. done.
      * rewrite lookup_app_r by lia. rewrite list_lookup_fmap.
        destruct (decide (Z.of_nat i <= m)).
        -- rewrite lookup_seqZ_lt by lia. simpl. do 2 f_equal. lia.
        -- rewrite lookup_seqZ_ge by lia. done.
Qed.

(** X11, [expand] right after [init], in the encoder.  An encoder initialised
    with [n] symbols and expanded to [m > n] at once is the encoder
    initialised with [m] symbols: the new cells continue the uniform
    table. *)
Theorem expand_after_init (n m : Z) (w0 : bit_writer) (c : AC.scalable_ac_c) :
  0 < n < m -> m + 1 < 2 ^ range_bits ->
  AC.expand m (AC.init n (Some w0) c).2 = Some (true, (AC.init m (Some w0) c).2).
Proof.
  intros Hn Hfit. rewrite !enc_init_state by lia. cbn [snd].
  rewrite (ac_expand_state m _ (uniform_model n));
    [|done|apply length_uniform_model|simpl; lia|done].
  cbn [AC.m_stream AC.m_high AC.m_low AC.m_underflow_count AC.m_tmp_range
       AC.m_max_syms AC.m_flushed].
  do 3 f_equal. unfold uniform_model. rewrite <-fmap_app. f_equal.
  replace (m + 1) with ((n + 1) + (m - n)) by lia.
  rewrite (seqZ_app 0 (n + 1) (m - n)) by lia. rewrite Z.add_0_l. done.
Qed.

End ModelGrowth.

(** ** Snapshots and the streams *)

Section Snapshots.
Context {T : coder_types}.

Lemma range_code_loop_frame fuel simulate cost c r c' :
  AC.range_code_loop fuel simulate cost c = Some (r, c') ->
  AC.m_flushed c' = AC.m_flushed c /\
  AC.m_max_syms c' = AC.m_max_syms c /\ AC.m_probability c' = AC.m_probability c.
Proof.
  revert cost c. induction fuel as [|fuel IH]; intros cost c; [done|].
  cbn [AC.range_code_loop]. destruct (renorm_case _ _).
  - destruct simulate.
    + rewrite bind_Some_l. intros Hx. apply IH in Hx. done.
    + destruct (AC.m_stream c) as [w|]; [|done]. rewrite !bind_Some_l.
      intros Hx. apply IH in Hx. done.
  - intros Hx. apply IH in Hx. done.
  - by intros [= _ <-].
Qed.

Lemma encode_symbol_frame s c c' :
  AC.encode_symbol s c = Some c' ->
  AC.m_max_syms c' = AC.m_max_syms c /\
  (table_ok (AC.m_max_syms c) (AC.m_probability c) ->
   table_ok (AC.m_max_syms c') (AC.m_probability c')).
Proof.
  unfold AC.encode_symbol, AC.range_code, AC.narrow_range, AC.update. intros H.
  inv_binds.
  match goal with E : AC.range_code_loop _ _ _ _ = Some _ |- _ =>
    apply range_code_loop_frame in E as (Hf & Hn & Hp); simpl in * end.
  split; [done|].
  intros (? & t & Ht & Hlen). rewrite Hn.
  split; [done|]. eexists. split; [done|].
  match goal with E : update_model _ _ _ = Some _ |- _ =>
    apply length_update_model in E end.
  congruence.
Qed.

Lemma encode_symbols_frame syms c c' :
  encode_symbols syms c = Some c' ->
  table_ok (AC.m_max_syms c) (AC.m_probability c) ->
  table_ok (AC.m_max_syms c') (AC.m_probability c').
Proof.
  revert c. induction syms as [|s syms IH]; intros c; cbn [encode_symbols].
  - by intros [= <-].
  - destruct (AC.encode_symbol s c) as [c1|] eqn:E; [|done]. rewrite bind_Some_l.
    intros H Hok. apply (IH c1 H). by apply (encode_symbol_frame _ _ _ E).
Qed.

Lemma decode_symbol_frame d s d' :
  ADC.decode_symbol d = Some (s, d') ->
  table_ok (ADC.m_max_syms d) (ADC.m_probability d) ->
  table_ok (ADC.m_max_syms d') (ADC.m_probability d').
Proof.
  unfold ADC.decode_symbol, ADC.get_current_prob. intros H.
  inv_binds.
  match goal with E : ADC.remove_range _ _ = Some _ |- _ =>
    apply remove_range_frame in E as (Hp & Hn); simpl in * end.
  intros (? & t & Ht & Hlen). simpl. rewrite Hn.
  split; [done|]. eexists. split; [done|].
  match goal with E : update_model _ _ _ = Some _ |- _ =>
    apply length_update_model in E end.
  congruence.
Qed.

Lemma decode_symbols_frame k d l d' :
  decode_symbols k d = Some (l, d') ->
  table_ok (ADC.m_max_syms d) (ADC.m_probability d) ->
  table_ok (ADC.m_max_syms d') (ADC.m_probability d').
Proof.
  revert d l. induction k as [|k IH]; intros d l; cbn [decode_symbols].
  - by intros [= _ <-].
  - destruct (ADC.decode_symbol d) as [[s d1]|] eqn:E; [|done]. rewrite bind_Some_l.
    cbv beta iota.
    destruct (decode_symbols k d1) as [[l1 d2]|] eqn:E1; [|done]. rewrite bind_Some_l.
    intros [= _ <-] Hok. apply (IH d1 l1 E1). by apply (decode_symbol_frame _ _ _ E).
Qed.

(** [restore_state] of the decoder, of what its [save_state] returned. *)
Lemma adc_restore_save d d1 cleanup :
  table_ok (ADC.m_max_syms d) (ADC.m_probability d) ->
  ADC.m_max_syms d + 1 < 2 ^ range_bits ->
  table_ok (ADC.m_max_syms d1) (ADC.m_probability d1) ->
  exists state,
    ADC.save_state d = Some state /\
    ADC.restore_state state cleanup d1 =
      Some (true,
            {| ADC.m_stream := ADC.m_stream d1; ADC.m_high := ADC.m_high d;
               ADC.m_low := ADC.m_low d; ADC.m_tmp_range := ADC.m_tmp_range d;
               ADC.m_max_syms := ADC.m_max_syms d; ADC.m_code := ADC.m_code d;
               ADC.m_probability := ADC.m_probability d |}).
Proof.
  intros (Hn & t & Ht & Hlen) Hfit (Hn1 & t1 & Ht1 & Hlen1).
  assert (Hnew : length (new_table (ADC.m_max_syms d)) = Z.to_nat (ADC.m_max_syms d + 1)).
  { unfold new_table, to_range. rewrite length_replicate.
    by rewrite Z.mod_small by lia. }
  unfold ADC.save_state. rewrite Ht, bind_Some_l.
  rewrite copy_table_full by congruence. rewrite bind_Some_l.
  eexists. split; [done|].
  unfold ADC.restore_state. simpl.
  destruct (decide _) as [Heq|Hne].
  - rewrite Ht1. simpl. rewrite copy_table_full by congruence. done.
  - simpl. rewrite copy_table_full by done. done.
Qed.

(** X12, a snapshot does not hold the stream.  When symbols are encoded, or
    decoded, between [save_state] and [restore_state], the bounds, the
    registers, the alphabet size and the table come back as they were
    saved, and the stream does not: the writer keeps the bits written in
    between, the reader stays where the decoding left it. *)
Theorem restore_leaves_stream (syms : list Z) (k : nat)
    (c c1 : AC.scalable_ac_c) (d d1 : ADC.scalable_adc_c) (l : list Z) :
  table_ok (AC.m_max_syms c) (AC.m_probability c) ->
  AC.m_max_syms c + 1 < 2 ^ range_bits ->
  encode_symbols syms c = Some c1 ->
  table_ok (ADC.m_max_syms d) (ADC.m_probability d) ->
  ADC.m_max_syms d + 1 < 2 ^ range_bits ->
  decode_symbols k d = Some (l, d1) ->
  (exists state,
     AC.save_state c = Some state /\
     AC.restore_state state true c1
     = Some (true,
             {| AC.m_stream := AC.m_stream c1; AC.m_high := AC.m_high c;
                AC.m_low := AC.m_low c;
                AC.m_underflow_count := AC.m_underflow_count c;
                AC.m_tmp_range := AC.m_tmp_range c;
                AC.m_max_syms := AC.m_max_syms c;
                AC.m_probability := AC.m_probability c;
                AC.m_flushed := AC.m_flushed c |})) /\
  (exists state,
     ADC.save_state d = Some state /\
     ADC.restore_state state true d1
     = Some (true,
             {| ADC.m_stream := ADC.m_stream d1; ADC.m_high := ADC.m_high d;
                ADC.m_low := ADC.m_low d; ADC.m_tmp_range := ADC.m_tmp_range d;
                ADC.m_max_syms := ADC.m_max_syms d; ADC.m_code := ADC.m_code d;
                ADC.m_probability := ADC.m_probability d |})).
Proof.
  intros Hokc Hfitc Henc Hokd Hfitd Hdec. split.
  - destruct (save_state_defined c Hokc Hfitc) as [state Hsave].
    exists state. split; [done|].
    apply restore_save; [done| |done].
    by apply (encode_symbols_frame _ _ _ Henc).
  - apply adc_restore_save; [done|done|].
    by apply (decode_symbols_frame _ _ _ _ Hdec).
Qed.

End Snapshots.

(** ** [init] of the decoder *)

Section DecoderInit.
Context {T : coder_types} {Tok : coder_types_ok T}.


End DecoderInit.

(** ** The driver of [example_adaptive.cpp] on any file *)

Section DriverAnyFile.
Context {T : coder_types} {Tok : coder_types_ok T}.

(** The loop of [decode] from a decoder of 257 symbols that satisfies
    [dec_ok]: with [fuel] symbols at its disposal it has either met the
    symbol 256 and returns the bytes before it, or decoded [fuel] symbols
    that are all bytes. *)
Lemma decode_loop_any fuel d r :
  dec_ok d -> ADC.m_stream d = Some r -> ADC.m_max_syms d = 256 + 1 ->
  match decode_loop fuel d with
  | Some out =>
      Forall (fun b => 0 <= b < 256) out /\ (length out < fuel)%nat /\
      exists d', decode_symbols (S (length out)) d = Some (out ++ [256], d')
  | None =>
      exists l d', decode_symbols fuel d = Some (l, d') /\
        Forall (fun b => 0 <= b < 256) l
  end.
Proof.
  revert d r. induction fuel as [|fuel IH]; intros d r Hok Hrd Hm.
  - cbn [decode_loop]. exists [], d. done.
  - rewrite decode_loop_S.
    destruct (decode_symbol_keeps d r Hok Hrd)
      as (s & d1 & j & Hdec & Hs & Hok1 & Hm1 & _ & Hrd1).
    rewrite Hdec, bind_Some_l. cbv beta iota.
    destruct (Z.eqb_spec s 256) as [->|Hne].
    + split_and!; [constructor|simpl; lia|].
      exists d1. cbn [length app]. rewrite decode_symbols_S, Hdec, bind_Some_l.
      done.
    + specialize (IH d1 (advance j r) Hok1 Hrd1 ltac:(congruence)).
      destruct (decode_loop fuel d1) as [out|].
      * destruct IH as (Hall & Hlen & d' & Hdecs). rewrite bind_Some_l.
        split_and!; [constructor; [lia|done]|simpl; lia|].
        exists d'. cbn [length app]. rewrite decode_symbols_S, Hdec, bind_Some_l.
        cbv beta iota. rewrite Hdecs. done.
      * destruct IH as (l & d' & Hdecs & Hall). rewrite bind_None_l.
        exists (s :: l), d'. split; [|constructor; [lia|done]].
        rewrite decode_symbols_S, Hdec, bind_Some_l. cbv beta iota.
        rewrite Hdecs. done.
Qed.

(** X16, the decoding driver on any file.  Whatever bits the input holds,
    [decode] of [example_adaptive.cpp] runs without undefined behaviour and
    writes bytes only: if within [fuel] symbols it meets the symbol 256 it
    stops, having written the symbols before it, all below 256; otherwise
    the [fuel] symbols it has decoded are all below 256 and the loop goes
    on. *)
Theorem decode_driver_on_any_file (sq : nat -> bool) (d0 : ADC.scalable_adc_c)
    (fuel : nat) :
  11 <= prob_bits ->
  match decode fuel d0 sq with
  | Some out =>
      Forall (fun b => 0 <= b < 256) out /\ (length out < fuel)%nat /\
      exists d',
        decode_run (256 + 1) (reader_of sq) (S (length out)) d0
        = Some (out ++ [256], d')
  | None =>
      exists l d',
        decode_run (256 + 1) (reader_of sq) fuel d0 = Some (l, d') /\
        Forall (fun b => 0 <= b < 256) l
  end.
Proof.
  intros Hpb. pose proof prob_bits_pos.
  assert (Hk : 1 <= 256 + 1 < k_max_range).
  { rewrite k_max_range_eq. change (256 + 1) with 257.
    assert (2 ^ 9 <= 2 ^ (prob_bits - 2)) by (apply Z.pow_le_mono_r; lia).
    change (2 ^ 9) with 512 in *. lia. }
  pose proof (dec_init_ok (256 + 1) (reader_of sq) d0 Hk) as Hok.
  unfold decode, decode_run.
  apply (decode_loop_any fuel _ (advance (Z.to_nat prob_bits) (reader_of sq)) Hok);
    by rewrite adc_init_state.
Qed.

End DriverAnyFile.

(** ** The further properties at [<uint32_t, uint64_t>] *)

Section More_u32_u64.
#[local] Existing Instance u32_u64.
#[local] Existing Instance u32_u64_ok.

Lemma k_max_range_u32 : k_max_range = 1073741823.
Proof. reflexivity. Qed.

Lemma three_symbols : 1 <= 3 < k_max_range.
Proof. rewrite k_max_range_u32. lia. Qed.

Lemma symbols_021 : Forall (fun s => 0 <= s < 3) [0; 2; 1].
Proof. repeat constructor; lia. Qed.

Lemma budget_3 : Z.of_nat (length [0; 2; 1]) * (prob_bits + 1) + 1 < 2 ^ range_bits.
Proof. reflexivity. Qed.

Lemma enc3_ok : enc_ok enc3.
Proof. apply (enc_init_ok_at 3 [] AC.new three_symbols). Qed.

Lemma uniform3_ok : model_ok 3 [0; 1; 2; 3].
Proof.
  destruct enc3_ok as (_ & _ & _ & _ & _ & tbl & Htbl & Hm).
  vm_compute in Htbl. injection Htbl as <-. exact Hm.
Qed.

(** Four symbols decoded from a stream of ones. *)
Lemma decoder_defined_on_any_stream_witness :
  exists l d',
    decode_symbols 4 (ADC.init 3 (Some (reader_of (fun _ => true))) adc_new).2
    = Some (l, d') /\
    length l = 4%nat /\ Forall (fun s => 0 <= s < 3) l.
Proof.
  destruct (decoder_defined_on_any_stream 3 (reader_of (fun _ => true)) adc_new 4
              three_symbols)
    as (l & d' & j & Hdec & Hlen & Hall & _).
  exists l, d'. split; [exact Hdec|]. split; [exact Hlen|exact Hall].
Defined.

(** The decoder of three symbols reads 30 bits more than were written. *)
Lemma decoder_reads_past_end_witness :
  exists w d',
    encode_run 3 [] [0; 2; 1] = Some w /\
    decode_run 3 (reader_of (padded w)) 3 adc_new = Some ([0; 2; 1], d') /\
    ADC.m_stream d' = Some {| rd_bits := padded w; rd_pos := length w + 30 |}.
Proof.
  destruct (encode_run 3 [] [0; 2; 1]) as [w|] eqn:Hrun;
    [|vm_compute in Hrun; discriminate].
  destruct (decoder_reads_past_end 3 [0; 2; 1] [] w (padded w) adc_new
              three_symbols symbols_021 budget_3 Hrun (extends_padded w))
    as (d' & Hdec & Hrd).
  exists w, d'. split; [reflexivity|]. split; [exact Hdec|exact Hrd].
Defined.

(** Three symbols take between 2 and 98 bits. *)
Lemma encoded_size_bound_witness :
  exists w, encode_run 3 [] [0; 2; 1] = Some w /\ 2 <= Z.of_nat (length w) <= 98.
Proof.
  destruct (encode_run 3 [] [0; 2; 1]) as [w|] eqn:Hrun;
    [|vm_compute in Hrun; discriminate].
  exists w. split; [reflexivity|].
  apply (encoded_size_bound 3 [0; 2; 1] [] w three_symbols symbols_021 budget_3 Hrun).
Defined.

Lemma encoder_keeps_invariant_witness :
  exists c_end tbl,
    encode_symbols [0; 2; 1] enc3 = Some c_end /\
    AC.m_probability c_end = Some tbl /\ cumulative 3 tbl.
Proof.
  destruct (encoder_keeps_invariant 3 [0; 2; 1] [] AC.new three_symbols symbols_021
              budget_3)
    as (c_end & tbl & total & Henc & _ & _ & _ & Htbl & Hcum & _).
  exists c_end, tbl. split; [exact Henc|]. split; [exact Htbl|exact Hcum].
Defined.

(** [flush] on an encoder just initialised writes [0 1], and [flush(true)]
    after it [0 1] again. *)
Lemma flush_appends_witness :
  AC.m_stream (AC.flush false enc3).2 = Some [false; true] /\
  AC.m_stream (AC.flush true (AC.flush false enc3).2).2
  = Some [false; true; false; true].
Proof.
  destruct (flush_appends false enc3 [] eq_refl (or_introl eq_refl)) as [H1 H2].
  - vm_compute. discriminate.
  - reflexivity.
  - split; [rewrite H1; reflexivity|exact H2].
Defined.

Lemma estimate_cost_buf_agrees_witness :
  exists c_end bits,
    encode_symbols [0; 2; 1] enc3 = Some c_end /\
    AC.m_stream c_end = Some bits /\
    AC.estimate_cost_buf [0; 2; 1] 18446744073709551615 0 enc3
    = Some (Z.of_nat (length bits), AC.set_stream [] c_end).
Proof.
  destruct (estimate_cost_buf_agrees [0; 2; 1] 18446744073709551615 enc3 []
              enc3_ok eq_refl symbols_021 eq_refl)
    as (c_end & bits & Henc & Hw & Hle & _).
  exists c_end, bits. split; [exact Henc|]. split; [exact Hw|].
  apply Hle. clear Hle.
  vm_compute in Henc. injection Henc as <-. vm_compute in Hw.
  injection Hw as <-. vm_compute. discriminate.
Defined.

(** The symbol 5 is outside an alphabet of three. *)
Lemma encode_symbol_defined_iff_witness :
  is_Some (AC.encode_symbol 5 enc3) <-> 5 < 3.
Proof.
  apply (encode_symbol_defined_iff 5 enc3 [] enc3_ok eq_refl).
  - split; reflexivity || (vm_compute; discriminate).
  - reflexivity.
Defined.

Lemma update_counts_symbol_witness :
  exists tbl',
    update_model 1 3 [0; 1; 2; 3] = Some tbl' /\
    slice_width tbl' 1 = slice_width [0; 1; 2; 3] 1 + 1 /\
    slice_width tbl' 0 = slice_width [0; 1; 2; 3] 0 /\
    slice_width tbl' 2 = slice_width [0; 1; 2; 3] 2.
Proof.
  destruct (update_counts_symbol 3 1 [0; 1; 2; 3] 3 uniform3_ok) as (tbl' & Hup & _ & _ & Hs).
  - lia.
  - reflexivity.
  - reflexivity.
  - exists tbl'. split; [exact Hup|].
    split; [exact (Hs 1%nat ltac:(simpl; lia))|].
    split; [rewrite (Hs 0%nat ltac:(simpl; lia)); apply Z.add_0_r|].
    rewrite (Hs 2%nat ltac:(simpl; lia)). apply Z.add_0_r.
Defined.

Lemma expand_keeps_old_cells_witness :
  exists tc' td' c' d',
    AC.expand 5 enc3 = Some (true, c') /\ AC.m_probability c' = Some tc' /\
    ADC.expand 5 dec3 = Some (true, d') /\ ADC.m_probability d' = Some td' /\
    tc' !! 2%nat = Some 2 /\ td' !! 2%nat = Some 2 /\
    tc' !! 5%nat = Some 5 /\ td' !! 5%nat = Some 1.
Proof.
  destruct (expand_keeps_old_cells 5 enc3 dec3 [0; 1; 2; 3] [0; 1; 2; 3]
              eq_refl eq_refl eq_refl eq_refl)
    as (_ & _ & Hc & Hd).
  - vm_compute. discriminate.
  - vm_compute. discriminate.
  - reflexivity.
  - destruct Hc as (tc' & Hec & _ & Hlc); [reflexivity|].
    destruct Hd as (td' & Hed & _ & Hld); [reflexivity|].
    exists tc', td'. eexists _, _.
    split; [exact Hec|]. split; [reflexivity|].
    split; [exact Hed|]. split; [reflexivity|].
    split; [exact (Hlc 2%nat)|]. split; [exact (Hld 2%nat)|].
    split; [exact (Hlc 5%nat)|exact (Hld 5%nat)].
Defined.

Lemma expand_after_init_witness :
  AC.expand 4 (AC.init 2 (Some []) AC.new).2 = Some (true, (AC.init 4 (Some []) AC.new).2).
Proof.
  apply (expand_after_init 2 4 [] AC.new).
  - lia.
  - reflexivity.
Defined.

Lemma restore_leaves_stream_witness :
  exists c1 d1 state,
    AC.encode_symbol 0 enc3 = Some c1 /\
    AC.save_state enc3 = Some state /\
    snd <$> AC.restore_state state true c1 = Some (AC.set_stream [false] enc3) /\
    (exists st, ADC.save_state dec3 = Some st /\
       fst <$> ADC.decode_symbol dec3 = Some 0 /\
       ADC.decode_symbol dec3 = Some (0, d1) /\
       ADC.m_stream <$> (snd <$> ADC.restore_state st true d1)
       = Some (Some {| rd_bits := fun _ => false; rd_pos := 33 |})).
Proof.
  destruct (AC.encode_symbol 0 enc3) as [c1|] eqn:Henc;
    [|vm_compute in Henc; discriminate].
  destruct (ADC.decode_symbol dec3) as [[s d1]|] eqn:Hdec;
    [|vm_compute in Hdec; discriminate].
  assert (Hs : s = 0) by (vm_compute in Hdec; injection Hdec as <- _; reflexivity).
  subst s.
  destruct (restore_leaves_stream [0] 1 enc3 c1 dec3 d1 [0]) as [Hc Hd].
  - split; [vm_compute; discriminate|]. exists [0; 1; 2; 3]. split; reflexivity.
  - reflexivity.
  - cbn [encode_symbols]. rewrite Henc. reflexivity.
  - split; [vm_compute; discriminate|]. exists [0; 1; 2; 3]. split; reflexivity.
  - reflexivity.
  - cbn [decode_symbols]. rewrite Hdec. reflexivity.
  - destruct Hc as (state & Hsave & Hrest). destruct Hd as (st & Hsave' & Hrest').
    exists c1, d1, state. split; [reflexivity|]. split; [exact Hsave|].
    split.
    + rewrite Hrest. vm_compute in Henc. injection Henc as <-. reflexivity.
    + exists st. split; [exact Hsave'|]. split; [reflexivity|]. split; [reflexivity|].
      rewrite Hrest'. vm_compute in Hdec. injection Hdec as <-. reflexivity.
Defined.


(** A file of zeros never holds the symbol 256: the loop goes on. *)
Lemma decode_driver_on_any_file_witness :
  decode 3 adc_new (fun _ => false) = None /\
  exists l d',
    decode_run (256 + 1) (reader_of (fun _ => false)) 3 adc_new = Some (l, d') /\
    Forall (fun b => 0 <= b < 256) l.
Proof.
  pose proof (decode_driver_on_any_file (fun _ => false) adc_new 3) as H.
  destruct (decode 3 adc_new (fun _ => false)) as [out|] eqn:Hd;
    [vm_compute in Hd; discriminate|].
  split; [reflexivity|]. apply H. simpl. lia.
Defined.

Lemma decoder_mirrors_encoder_witness :
  exists w c_end d',
    encode_run 3 [] [0; 2; 1] = Some w /\
    encode_symbols [0; 2; 1] enc3 = Some c_end /\
    decode_run 3 (reader_of (padded w)) 3 adc_new = Some ([0; 2; 1], d') /\
    ADC.m_probability d' = AC.m_probability c_end.
Proof.
  destruct (encode_run 3 [] [0; 2; 1]) as [w|] eqn:Hrun;
    [|vm_compute in Hrun; discriminate].
  destruct (decoder_mirrors_encoder 3 [0; 2; 1] [] w (padded w) adc_new
              three_symbols symbols_021 budget_3 Hrun (extends_padded w))
    as (c_end & d' & Henc & Hdec & _ & _ & _ & Hp).
  exists w, c_end, d'. split; [reflexivity|]. split; [exact Henc|].
  split; [exact Hdec|exact Hp].
Defined.

Lemma encoder_writes_online_witness :
  exists c1 c2 bits1 bits2,
    encode_symbols [0; 2] enc3 = Some c1 /\ AC.m_stream c1 = Some bits1 /\
    encode_symbols [0; 2; 1] enc3 = Some c2 /\ AC.m_stream c2 = Some (bits1 ++ bits2).
Proof.
  destruct (encoder_writes_online 3 [0; 2] [1] [] AC.new three_symbols symbols_021
              budget_3)
    as (c1 & c2 & bits1 & bits2 & H1 & H2 & H3 & H4).
  exists c1, c2, bits1, bits2. split; [exact H1|]. split; [exact H2|].
  split; [exact H3|exact H4].
Defined.

End More_u32_u64.

Section Header_example.
#[local] Existing Instance u16_u32.

Lemma u16_u32_ok : coder_types_ok u16_u32.
Proof. split; simpl; lia. Qed.

(** The example of the headers: [<uint16_t, uint32_t>], 512 symbols, each
    encoded once, and decoded. *)
Lemma coder_round_trip_witness :
  exists bits,
    encode_run 512 [] (seqZ 0 512) = Some bits /\
    fst <$> decode_run 512 (reader_of (padded bits)) (length (seqZ 0 512)) adc_new
    = Some (seqZ 0 512).
Proof.
  destruct (@coder_round_trip u16_u32 u16_u32_ok 512 (seqZ 0 512) []) as (bits & Henc & Hdec).
  - split; [lia|reflexivity].
  - apply Forall_seqZ. intros s Hs. lia.
  - reflexivity.
  - exists bits. split; [exact Henc|].
    apply (Hdec (padded bits) adc_new). apply extends_padded.
Defined.

End Header_example.

